(** * Knowledge-graph service: a shallow embedding of the ingestion and
    enhanced-retrieval core, with the properties of its specification.

  Python values are modelled as the code has them: unbounded [int] as [Z],
  [str] as the list of its code points, [dict]s with a fixed key set as
  records whose optional keys are [option] fields, [set]s as [gset],
  dictionaries used as maps as [gmap], confidences as rationals. *)

From Stdlib Require Import ZArith QArith String Ascii.
From stdpp Require Import base list gmap sets sorting.

Local Open Scope Z_scope.

(** ** Python strings *)

Module PyStr.

(** A Python [str] is a sequence of code points. *)
Abbreviation pystr := (list N).

Definition py (s : string) : pystr := N_of_ascii <$> list_ascii_of_string s.

Definition len (s : pystr) : Z := Z.of_nat (length s).

(** [s[a:b]] for [0 <= a] and [0 <= b]; negative indices are not used by
    the code modelled here. *)
Definition slice (s : pystr) (a b : Z) : pystr :=
  take (Z.to_nat b - Z.to_nat a) (drop (Z.to_nat a) s).

(** [s[:n]] for [0 <= n]. *)
Definition prefix (s : pystr) (n : nat) : pystr := take n s.

(** [str.isspace] on one code point: the Unicode white-space set. *)
Definition isspace (c : N) : bool :=
  ((9 <=? c) && (c <=? 13) || (28 <=? c) && (c <=? 32)
   || (c =? 133) || (c =? 160) || (c =? 5760)
   || (8192 <=? c) && (c <=? 8202)
   || (c =? 8232) || (c =? 8233) || (c =? 8239) || (c =? 8287)
   || (c =? 12288))%N.

Fixpoint lstrip (s : pystr) : pystr :=
  match s with
  | c :: s' => if isspace c then lstrip s' else s
  | [] => []
  end.

Fixpoint rstrip (s : pystr) : pystr :=
  match s with
  | [] => []
  | c :: s' =>
      match rstrip s' with
      | [] => if isspace c then [] else [c]
      | r => c :: r
      end
  end.

Definition strip (s : pystr) : pystr := lstrip (rstrip s).

(** [s.count(c)] for a one-character [c]. *)
Definition count (c : N) (s : pystr) : nat :=
  length (filter (λ x, x = c) s).

Definition endswith (c : N) (s : pystr) : bool :=
  bool_decide (last s = Some c).

(** [s.find(c)] for a one-character [c], from index [i]: the first index,
    or -1. *)
Fixpoint find_from (c : N) (i : Z) (s : pystr) : Z :=
  match s with
  | [] => -1
  | x :: s' => if bool_decide (x = c) then i else find_from c (i + 1) s'
  end.

Definition find (c : N) (s : pystr) : Z := find_from c 0 s.

Fixpoint startswith (sub s : pystr) : bool :=
  match sub, s with
  | [], _ => true
  | a :: sub', b :: s' => bool_decide (a = b) && startswith sub' s'
  | _ :: _, [] => false
  end.

(** [s.find(sub)]: the lowest index at which [sub] occurs, or -1. *)
Fixpoint find_sub_from (sub : pystr) (i : Z) (s : pystr) : Z :=
  if startswith sub s then i
  else match s with
       | [] => -1
       | _ :: s' => find_sub_from sub (i + 1) s'
       end.

Definition find_sub (sub s : pystr) : Z := find_sub_from sub 0 s.

(** [str.lower] and [str.upper]; code points outside A-Z and a-z are left
    as they are (the case mappings of other scripts are not modelled). *)
Definition lower_char (c : N) : N :=
  if ((65 <=? c) && (c <=? 90))%N then (c + 32)%N else c.
Definition upper_char (c : N) : N :=
  if ((97 <=? c) && (c <=? 122))%N then (c - 32)%N else c.
Definition lower (s : pystr) : pystr := lower_char <$> s.
Definition upper (s : pystr) : pystr := upper_char <$> s.

(** [s.replace(a, b)] for one-character [a] and [b]. *)
Definition replace_char (a b : N) (s : pystr) : pystr :=
  (λ c, if bool_decide (c = a) then b else c) <$> s.

(** [s.split()]: the maximal runs of non-space characters. *)
Fixpoint split_from (cur : pystr) (s : pystr) : list pystr :=
  match s with
  | [] => match cur with [] => [] | _ => [cur] end
  | c :: s' =>
      if isspace c then
        match cur with
        | [] => split_from [] s'
        | _ => cur :: split_from [] s'
        end
      else split_from (cur ++ [c]) s'
  end.

Definition split (s : pystr) : list pystr := split_from [] s.

(** [sep.join(words)] *)
Fixpoint join (sep : pystr) (words : list pystr) : pystr :=
  match words with
  | [] => []
  | [w] => w
  | w :: ws => w ++ sep ++ join sep ws
  end.

(** [s * n] *)
Fixpoint times (s : pystr) (n : nat) : pystr :=
  match n with
  | O => []
  | S n' => s ++ times s n'
  end.

(** The double-quote character and a quoted word. *)
Definition dquote : N := 34%N.
Definition quoted (w : string) : pystr := dquote :: py w ++ [dquote].

End PyStr.
Import PyStr.

(** ** pipeline/chunk_mapper.py *)

Module ChunkMapper.

(** [ChunkBoundary]: the dataclass the chunk dicts are parsed into. *)
Record ChunkBoundary := mkChunk {
  vector_rowid : Z;
  chunk_index : Z;
  char_start : Z;
  char_end : Z;
  text : pystr
}.

(** One element of an entity's ["occurrences"] list. *)
Record Occurrence := mkOcc { occ_start : Z; occ_end : Z }.

(** One element of ["chunk_appearances"]. *)
Record Appearance := mkApp {
  app_vector_rowid : Z;
  app_chunk_index : Z;
  offset_start : Z;
  offset_end : Z
}.

(** The hierarchical type of an entity: ["type_primary"],
    ["type_sub1"].. ["type_sub3"] and ["type_full"]. *)
Record TypeHierarchy := mkType {
  type_primary : pystr;
  type_sub1 : option pystr;
  type_sub2 : option pystr;
  type_sub3 : option pystr;
  type_full : pystr
}.

(** The context triple of a mention. *)
Record Context := mkContext {
  context_before : pystr;
  context_after : pystr;
  sentence : pystr
}.

(** The entity dict, restricted to the keys the mapper and the pipeline
    read.  The extractors write ["start"] and ["end"]; the mapper reads
    ["occurrences"], ["start_pos"] and ["end_pos"], which are optional
    keys, and writes ["chunk_appearances"] and
    ["spans_multiple_chunks"]. *)
Record Entity := mkEntity {
  e_text : pystr;
  e_normalized : pystr;
  e_start : Z;
  e_end : Z;
  e_type : TypeHierarchy;
  e_confidence : Q;
  e_context : Context;
  occurrences : list Occurrence;
  start_pos : option Z;
  end_pos : option Z;
  chunk_appearances : option (list Appearance);
  spans_multiple_chunks : option bool
}.

(** An entity dict as an extractor emits it: position under ["start"] and
    ["end"], none of the optional keys. *)
Definition extracted_entity (txt normalized : pystr) (s e : Z)
    (ty : TypeHierarchy) (confidence : Q) (ctx : Context) : Entity :=
  mkEntity txt normalized s e ty confidence ctx [] None None None None.

(** An entity dict that carries an explicit ["occurrences"] list. *)
Definition entity_with_occurrences (txt : pystr) (occs : list Occurrence)
    : Entity :=
  mkEntity txt txt 0 0 (mkType [] None None None []) 0 (mkContext [] [] [])
           occs None None None None.

#[global] Instance Appearance_eq_dec : EqDecision Appearance.
Proof. solve_decision. Defined.
#[global] Instance Occurrence_eq_dec : EqDecision Occurrence.
Proof. solve_decision. Defined.

Definition overlap_threshold : Z := 10.

Definition _calculate_overlap (start1 end1 start2 end2 : Z) : Z :=
  let overlap_start := Z.max start1 start2 in
  let overlap_end := Z.min end1 end2 in
  Z.max 0 (overlap_end - overlap_start).

Definition chunk_key (c : ChunkBoundary) : Z * Z :=
  (vector_rowid c, chunk_index c).

Definition app_key (a : Appearance) : Z * Z :=
  (app_vector_rowid a, app_chunk_index a).

(** The appearance appended for an occurrence and a chunk. *)
Definition make_appearance (occ : Occurrence) (chunk : ChunkBoundary) : Appearance :=
  {| app_vector_rowid := vector_rowid chunk;
     app_chunk_index := chunk_index chunk;
     offset_start := Z.max 0 (occ_start occ - char_start chunk);
     offset_end := Z.min (len (text chunk)) (occ_end occ - char_start chunk) |}.

(** Loop state: the list [chunk_appearances] and the set [seen_chunks]. *)
Definition map_state : Type := list Appearance * gset (Z * Z).

(** Body of the inner loop [for chunk in chunk_boundaries]. *)
Definition visit_chunk (occ : Occurrence) (st : map_state)
    (chunk : ChunkBoundary) : map_state :=
  let overlap :=
    _calculate_overlap (occ_start occ) (occ_end occ)
                       (char_start chunk) (char_end chunk) in
  if bool_decide (overlap_threshold ≤ overlap) then
    if bool_decide (chunk_key chunk ∈ st.2) then st
    else (st.1 ++ [make_appearance occ chunk], {[chunk_key chunk]} ∪ st.2)
  else st.

(** Body of the outer loop [for occurrence in occurrences]. *)
Definition visit_occurrence (chunks : list ChunkBoundary) (st : map_state)
    (occ : Occurrence) : map_state :=
  foldl (visit_chunk occ) st chunks.

(** The occurrences the mapper works with: the entity's own, or, when
    there are none, one built from ["start_pos"] and ["end_pos"] with
    their defaults. *)
Definition entity_occurrences (e : Entity) : list Occurrence :=
  match occurrences e with
  | [] =>
      let sp := default 0 (start_pos e) in
      let ep := default (sp + len (e_text e)) (end_pos e) in
      [ {| occ_start := sp; occ_end := ep |} ]
  | occs => occs
  end.

Definition appearances_of (chunks : list ChunkBoundary) (e : Entity)
    : list Appearance :=
  (foldl (visit_occurrence chunks) ([], ∅) (entity_occurrences e)).1.

Definition enrich (chunks : list ChunkBoundary) (e : Entity) : Entity :=
  let apps := appearances_of chunks e in
  {| e_text := e_text e; e_normalized := e_normalized e;
     e_start := e_start e; e_end := e_end e;
     e_type := e_type e; e_confidence := e_confidence e;
     e_context := e_context e;
     occurrences := occurrences e;
     start_pos := start_pos e; end_pos := end_pos e;
     chunk_appearances := Some apps;
     spans_multiple_chunks := Some (bool_decide (1 < length apps)%nat) |}.

Definition map_entities_to_chunks (entities : list Entity)
    (chunks : list ChunkBoundary) : list Entity :=
  match chunks with
  | [] => entities
  | _ => enrich chunks <$> entities
  end.

(** [entity.get("chunk_appearances", [])] *)
Definition get_chunk_appearances (e : Entity) : list Appearance :=
  default [] (chunk_appearances e).

(** *** Relationships *)

(** The relationship dict: the fields the extractors write, and the
    fields the mapper adds. *)
Record Relationship := mkRel {
  subject_text : pystr;
  subject_normalized : pystr;
  predicate : pystr;
  object_text : pystr;
  object_normalized : pystr;
  r_confidence : Q;
  r_context : pystr;
  spans_chunks : option bool;
  chunk_rowids : option (list Z);
  primary_chunk_rowid : option (option Z)
}.

(** The keys of a dict built by inserting the given keys in order. *)
Fixpoint keys_from (seen : list Z) (l : list Z) : list Z :=
  match l with
  | [] => []
  | x :: l' =>
      if bool_decide (x ∈ seen) then keys_from seen l'
      else x :: keys_from (x :: seen) l'
  end.

Definition appearance_rowids (e : Entity) : list Z :=
  keys_from [] (app_vector_rowid <$> get_chunk_appearances e).

(** [min] of a non-empty collection. *)
Definition minimum (x : Z) (l : list Z) : Z := foldr Z.min x l.

Definition _get_chunk_index (rowid : Z) (chunks : list ChunkBoundary) : Z :=
  match List.find (λ c, bool_decide (vector_rowid c = rowid)) chunks with
  | Some c => chunk_index c
  | None => 0
  end.

(** The closest-pair loop: [min_distance] ([None] is infinity) and
    [primary_rowid]. *)
Definition closest_step (chunks : list ChunkBoundary) (subj_rowid : Z)
    (st : option Z * option Z) (obj_rowid : Z) : option Z * option Z :=
  let distance :=
    Z.abs (_get_chunk_index subj_rowid chunks
           - _get_chunk_index obj_rowid chunks) in
  match st.1 with
  | Some d =>
      if bool_decide (distance < d)
      then (Some distance, Some (Z.min subj_rowid obj_rowid)) else st
  | None => (Some distance, Some (Z.min subj_rowid obj_rowid))
  end.

Definition _find_primary_chunk (subject_entity object_entity : Entity)
    (chunks : list ChunkBoundary) : option Z :=
  let subject_chunks := appearance_rowids subject_entity in
  let object_chunks := appearance_rowids object_entity in
  let shared := filter (λ r, r ∈ object_chunks) subject_chunks in
  match shared, subject_chunks, object_chunks with
  | r :: rest, _, _ => Some (minimum r rest)
  | [], _ :: _, _ :: _ =>
      (foldl (λ st s, foldl (closest_step chunks s) st object_chunks)
             (None, None) subject_chunks).2
  | [], s :: rest, [] => Some (minimum s rest)
  | [], [], o :: rest => Some (minimum o rest)
  | [], [], [] => None
  end.

(** [entity_lookup]: the last entity of each normalized name. *)
Definition entity_lookup (entity_chunk_map : list Entity)
    : gmap pystr Entity :=
  foldl (λ m e, <[e_normalized e := e]> m) ∅ entity_chunk_map.

Definition enrich_relationship (lookup : gmap pystr Entity)
    (chunks : list ChunkBoundary) (rel : Relationship) : option Relationship :=
  match lookup !! subject_normalized rel, lookup !! object_normalized rel with
  | Some subject_entity, Some object_entity =>
      let subject_chunks : gset Z :=
        list_to_set (app_vector_rowid <$> get_chunk_appearances subject_entity) in
      let object_chunks : gset Z :=
        list_to_set (app_vector_rowid <$> get_chunk_appearances object_entity) in
      Some {| subject_text := subject_text rel;
              subject_normalized := subject_normalized rel;
              predicate := predicate rel;
              object_text := object_text rel;
              object_normalized := object_normalized rel;
              r_confidence := r_confidence rel;
              r_context := r_context rel;
              spans_chunks :=
                Some (bool_decide (subject_chunks ∩ object_chunks = ∅));
              chunk_rowids :=
                Some (merge_sort Z.le (elements (subject_chunks ∪ object_chunks)));
              primary_chunk_rowid :=
                Some (_find_primary_chunk subject_entity object_entity chunks) |}
  | _, _ => None
  end.

Definition map_relationships_to_chunks (relationships : list Relationship)
    (entity_chunk_map : list Entity) (chunks : list ChunkBoundary)
    : list Relationship :=
  match chunks with
  | [] => relationships
  | _ =>
      omap (enrich_relationship (entity_lookup entity_chunk_map) chunks)
           relationships
  end.

(** *** api/models.py: what the request validation guarantees of a chunk
    list ([ChunkMetadata] fields and validator, [IngestRequest.chunks]). *)
Definition chunk_metadata_ok (c : ChunkBoundary) : bool :=
  bool_decide (0 < vector_rowid c) && bool_decide (0 ≤ chunk_index c)
  && bool_decide (0 ≤ char_start c) && bool_decide (0 < char_end c)
  && bool_decide (10 ≤ len (text c)) && bool_decide (len (text c) ≤ 10000)
  && bool_decide (char_start c < char_end c).

Fixpoint chunks_ordered (v : list ChunkBoundary) : bool :=
  match v with
  | c1 :: ((c2 :: _) as rest) =>
      bool_decide (chunk_index c1 < chunk_index c2) && chunks_ordered rest
  | _ => true
  end.

Definition validate_chunks (v : list ChunkBoundary) : bool :=
  forallb chunk_metadata_ok v
  && bool_decide (1 ≤ length v)%nat && bool_decide (length v ≤ 1000)%nat
  && chunks_ordered v.

(** An occurrence reaches the threshold on a chunk. *)
Definition hits (occ : Occurrence) (c : ChunkBoundary) : Prop :=
  overlap_threshold ≤
    _calculate_overlap (occ_start occ) (occ_end occ) (char_start c) (char_end c).

(** Loop invariant: the keys of the recorded appearances are exactly the
    set [seen_chunks], without repetition. *)
Definition mapper_inv (st : map_state) : Prop :=
  NoDup (app_key <$> st.1) ∧ ∀ k, k ∈ st.2 ↔ k ∈ app_key <$> st.1.

End ChunkMapper.


(** ** Exceptions and results *)

Module Py.

(** The exceptions the modelled code raises or catches.  All of them are
    subclasses of [Exception]. *)
Inductive exn :=
| TypeError | KeyError | ValueError | AttributeError | JSONDecodeError
| ModelUnavailable | ServiceUnavailable
| HTTPException (status_code : Z).

Inductive result (A : Type) :=
| Ok (a : A)
| Raise (e : exn).
Arguments Ok {A} a.
Arguments Raise {A} e.

End Py.
Import Py.

(** ** storage/neo4j_client.py, over an explicit graph store *)

Module Neo4jClient.

(** Node identifiers ([elementId]). *)
Definition node_id := nat.

Record DocumentNode := mkDoc {
  doc_id : node_id;
  content_id : Z;
  url : pystr;
  title : pystr
}.

Record ChunkNode := mkChunkNode {
  chunk_id : node_id;
  vector_rowid : Z;
  chunk_index : Z;
  char_start : Z;
  char_end : Z;
  text_preview : pystr
}.

Record EntityNode := mkEntityNode {
  entity_id : node_id;
  normalized : pystr;
  text : pystr;
  etype : ChunkMapper.TypeHierarchy;
  mention_count : Z;
  avg_confidence : Q
}.

(** Properties of an edge, by the operation that wrote it:
    [HAS_CHUNK] has none, [MENTIONED_IN] has the mention fields, a
    semantic relationship has confidence, context and occurrence count.
    The [created_at] and [updated_at] time stamps are left out. *)
Inductive edge_props :=
| NoProps
| MentionProps (offset_start offset_end : Z) (confidence : Q)
               (context_before context_after sentence : pystr)
| RelProps (confidence : Q) (context : pystr) (occurrence_count : Z).

Record Edge := mkEdge {
  src : node_id;
  rel_type : pystr;
  dst : node_id;
  props : edge_props
}.

Record Graph := mkGraph {
  documents : list DocumentNode;
  chunks : list ChunkNode;
  entities : list EntityNode;
  edges : list Edge;
  next_id : node_id
}.

Definition empty_graph : Graph := mkGraph [] [] [] [] 0%nat.

Definition HAS_CHUNK : pystr := py "HAS_CHUNK".
Definition MENTIONED_IN : pystr := py "MENTIONED_IN".
Definition PART_OF : pystr := py "PART_OF".

(** A write or read against the store: the result (or the exception)
    and the store afterwards; writes made before an exception stay. *)
Definition Cypher (A : Type) : Type := Graph → result A * Graph.

Definition ret {A} (a : A) : Cypher A := λ g, (Ok a, g).
Definition raise {A} (e : exn) : Cypher A := λ g, (Raise e, g).
Definition bind {A B} (m : Cypher A) (k : A → Cypher B) : Cypher B :=
  λ g, match m g with
       | (Ok a, g') => k a g'
       | (Raise e, g') => (Raise e, g')
       end.

Definition update_where {A} (p : A → bool) (f : A → A) (l : list A) : list A :=
  (λ x, if p x then f x else x) <$> l.

Definition find_document (g : Graph) (cid : Z) : option DocumentNode :=
  List.find (λ d, bool_decide (content_id d = cid)) (documents g).
Definition find_document_by_id (g : Graph) (id : node_id) : option DocumentNode :=
  List.find (λ d, bool_decide (doc_id d = id)) (documents g).
Definition find_chunk (g : Graph) (rowid : Z) : option ChunkNode :=
  List.find (λ c, bool_decide (vector_rowid c = rowid)) (chunks g).
Definition find_chunk_by_id (g : Graph) (id : node_id) : option ChunkNode :=
  List.find (λ c, bool_decide (chunk_id c = id)) (chunks g).
Definition find_entity (g : Graph) (key : pystr) : option EntityNode :=
  List.find (λ e, bool_decide (normalized e = key)) (entities g).
Definition find_entity_by_id (g : Graph) (id : node_id) : option EntityNode :=
  List.find (λ e, bool_decide (entity_id e = id)) (entities g).

Definition is_edge (s : node_id) (ty : pystr) (d : node_id) (e : Edge) : bool :=
  bool_decide (src e = s) && bool_decide (rel_type e = ty)
  && bool_decide (dst e = d).

Definition has_edge (g : Graph) (s : node_id) (ty : pystr) (d : node_id) : bool :=
  existsb (is_edge s ty d) (edges g).

(** [MERGE (d:Document {content_id}) SET d.url, d.title RETURN elementId(d)] *)
Definition create_document (cid : Z) (u t : pystr) : Cypher node_id :=
  λ g,
    match find_document g cid with
    | Some d =>
        (Ok (doc_id d),
         mkGraph
           (update_where (λ d, bool_decide (content_id d = cid))
              (λ d, mkDoc (doc_id d) cid u t) (documents g))
           (chunks g) (entities g) (edges g) (next_id g))
    | None =>
        (Ok (next_id g),
         mkGraph (documents g ++ [mkDoc (next_id g) cid u t])
           (chunks g) (entities g) (edges g) (S (next_id g)))
    end.

(** [MERGE (c:Chunk {vector_rowid}) SET ...] *)
Definition merge_chunk (rowid idx cs ce : Z) (preview : pystr)
    (g : Graph) : node_id * Graph :=
  match find_chunk g rowid with
  | Some c =>
      (chunk_id c,
       mkGraph (documents g)
         (update_where (λ c, bool_decide (vector_rowid c = rowid))
            (λ c, mkChunkNode (chunk_id c) rowid idx cs ce preview) (chunks g))
         (entities g) (edges g) (next_id g))
  | None =>
      (next_id g,
       mkGraph (documents g)
         (chunks g ++ [mkChunkNode (next_id g) rowid idx cs ce preview])
         (entities g) (edges g) (S (next_id g)))
  end.

(** [MERGE (s)-[:ty]->(d)] for an edge without properties. *)
Definition merge_plain_edge (s : node_id) (ty : pystr) (d : node_id)
    (g : Graph) : Graph :=
  if has_edge g s ty d then g
  else mkGraph (documents g) (chunks g) (entities g)
         (edges g ++ [mkEdge s ty d NoProps]) (next_id g).

(** [create_chunk]: when no Document has the given id the query returns
    no row and reading ["node_id"] of the missing record raises. *)
Definition create_chunk (document_node_id : node_id)
    (rowid idx cs ce : Z) (preview : pystr) : Cypher node_id :=
  λ g,
    match find_document_by_id g document_node_id with
    | None => (Raise TypeError, g)
    | Some d =>
        let '(cid, g1) := merge_chunk rowid idx cs ce (prefix preview 200) g in
        (Ok cid, merge_plain_edge (doc_id d) HAS_CHUNK cid g1)
    end.

(** The [ON MATCH SET] items of [create_entity], applied in the order
    they are written: [mention_count] is incremented first and the
    average then reads the new count. *)
Definition entity_on_match (confidence : Q) (e : EntityNode) : EntityNode :=
  let count' := mention_count e + 1 in
  let avg' :=
    ((avg_confidence e * inject_Z (count' - 1) + confidence)
     / inject_Z count')%Q in
  mkEntityNode (entity_id e) (normalized e) (text e) (etype e) count' avg'.

(** [MERGE (e:Entity {normalized}) ON CREATE SET ... ON MATCH SET ...] *)
Definition create_entity (txt key : pystr) (ty : ChunkMapper.TypeHierarchy)
    (confidence : Q) : Cypher node_id :=
  λ g,
    match find_entity g key with
    | Some e =>
        (Ok (entity_id e),
         mkGraph (documents g) (chunks g)
           (update_where (λ e, bool_decide (normalized e = key))
              (entity_on_match confidence) (entities g))
           (edges g) (next_id g))
    | None =>
        (Ok (next_id g),
         mkGraph (documents g) (chunks g)
           (entities g ++ [mkEntityNode (next_id g) key txt ty 1 confidence])
           (edges g) (S (next_id g)))
    end.

(** [MATCH (e) MATCH (c) MERGE (e)-[m:MENTIONED_IN]->(c) SET m...]; the
    result is not read, so a missing node makes it a no-op. *)
Definition link_entity_to_chunk (entity_node_id chunk_node_id : node_id)
    (os oe : Z) (confidence : Q) (cb ca sent : pystr) : Cypher unit :=
  λ g,
    match find_entity_by_id g entity_node_id,
          find_chunk_by_id g chunk_node_id with
    | Some _, Some _ =>
        let p := MentionProps os oe confidence
                   (prefix cb 100) (prefix ca 100) (prefix sent 500) in
        let es :=
          if has_edge g entity_node_id MENTIONED_IN chunk_node_id then
            update_where (is_edge entity_node_id MENTIONED_IN chunk_node_id)
              (λ e, mkEdge (src e) (rel_type e) (dst e) p) (edges g)
          else edges g ++ [mkEdge entity_node_id MENTIONED_IN chunk_node_id p] in
        (Ok (), mkGraph (documents g) (chunks g) (entities g) es (next_id g))
    | _, _ => (Ok (), g)
    end.

(** The [ON MATCH SET] items of [create_relationship], in order: the
    confidence reads the old count, which is incremented afterwards.
    Edges between two Entity nodes are written by [create_relationship]
    only and carry [RelProps]; other property kinds are left as they
    are. *)
Definition rel_on_match (confidence : Q) (e : Edge) : Edge :=
  match props e with
  | RelProps c ctx n =>
      let c' := ((c * inject_Z n + confidence) / inject_Z (n + 1))%Q in
      mkEdge (src e) (rel_type e) (dst e) (RelProps c' ctx (n + 1))
  | _ => e
  end.

(** The edge label of a predicate. *)
Definition relationship_type (predicate : pystr) : pystr :=
  replace_char 32 95 (upper predicate).

(** The label is written into the query text as it is, without back
    quotes.  An ASCII letter followed by ASCII letters, digits and
    underscores is read by Cypher as one name; for any other label the
    query text need not parse, and the call is modelled for the labels
    that satisfy this test only. *)
Definition is_letter (c : N) : bool :=
  ((65 <=? c) && (c <=? 90) || (97 <=? c) && (c <=? 122))%N.

Definition is_name_char (c : N) : bool :=
  (is_letter c || (48 <=? c) && (c <=? 57) || (c =? 95))%N.

Definition cypher_name_ok (label : pystr) : bool :=
  match label with
  | [] => false
  | c :: rest => is_letter c && forallb is_name_char rest
  end.

(** [MATCH (s) MATCH (o) MERGE (s)-[r:TYPE]->(o) ON CREATE ... ON MATCH ...];
    [normalized] identifies one node (uniqueness constraint), so the
    first match is the match. *)
Definition create_relationship (subject_normalized predicate
    object_normalized : pystr) (confidence : Q) (context : pystr)
    : Cypher unit :=
  λ g,
    let ty := relationship_type predicate in
    match find_entity g subject_normalized,
          find_entity g object_normalized with
    | Some s, Some o =>
        let es :=
          if has_edge g (entity_id s) ty (entity_id o) then
            update_where (is_edge (entity_id s) ty (entity_id o))
              (rel_on_match confidence) (edges g)
          else
            edges g ++ [mkEdge (entity_id s) ty (entity_id o)
                          (RelProps confidence (prefix context 500) 1)] in
        (Ok (), mkGraph (documents g) (chunks g) (entities g) es (next_id g))
    | _, _ => (Ok (), g)
    end.

(** A chunk with the given rowid is in the store, under the document. *)
Definition chunk_persisted (g : Graph) (doc : node_id) (rowid : Z) : Prop :=
  ∃ cn, cn ∈ chunks g ∧ vector_rowid cn = rowid
        ∧ has_edge g doc HAS_CHUNK (chunk_id cn) = true.

(** A document with the given content id is in the store, under the
    given node id. *)
Definition document_persisted (g : Graph) (doc : node_id) (cid : Z) : Prop :=
  ∃ d, d ∈ documents g ∧ doc_id d = doc ∧ content_id d = cid.

End Neo4jClient.

(** ** extractors/kg_extractor.py: the truncation healer *)

Module JsonHealer.

Definition lbrace : N := 123%N.
Definition rbrace : N := 125%N.
Definition lbracket : N := 91%N.
Definition rbracket : N := 93%N.
Definition newline : N := 10%N.

(** The fallback document [{"entities": [], "relationships": []}]. *)
Definition empty_document : pystr :=
  py "{" ++ quoted "entities" ++ py ": [], "
    ++ quoted "relationships" ++ py ": []}".

(** The strings appended for a missing bracket and a missing brace:
    a newline, two spaces and the bracket; a newline and the brace.
    (The source chooses between two branches that append the same text.) *)
Definition closing_bracket : pystr := newline :: py "  ]".
Definition closing_brace : pystr := newline :: py "}".

(** [char in ['}', ']']] *)
Definition is_closer (c : N) : bool :=
  bool_decide (c = rbrace) || bool_decide (c = rbracket).

(** [for i in range(n - 1, start_idx, -1)]: the first index, going
    down from [n - 1] and staying above [start_idx], that holds a closing
    brace or bracket; -1 when there is none. *)
Fixpoint scan_back (response : pystr) (start_idx : Z) (n : nat) : Z :=
  match n with
  | O => -1
  | S i =>
      if bool_decide (start_idx < Z.of_nat i) then
        match response !! i with
        | Some c =>
            if is_closer c then Z.of_nat i
            else scan_back response start_idx i
        | None => scan_back response start_idx i
        end
      else -1
  end.

(** The brace and bracket counts of a string agree. *)
Definition balanced (s : pystr) : Prop :=
  count lbrace s = count rbrace s ∧ count lbracket s = count rbracket s.

Definition balancedb (s : pystr) : bool :=
  bool_decide (count lbrace s = count rbrace s)
  && bool_decide (count lbracket s = count rbracket s).

Definition _heal_truncated_json (response : pystr) : pystr :=
  let start_idx := find lbrace response in
  if bool_decide (start_idx = -1) then empty_document
  else
    let stripped := rstrip response in
    if endswith rbrace stripped && balancedb stripped then response
    else
      let last_complete_idx := scan_back response start_idx (length response) in
      if bool_decide (last_complete_idx = -1) then empty_document
      else
        let healed := slice response 0 (last_complete_idx + 1) in
        let open_braces := count lbrace healed in
        let close_braces := count rbrace healed in
        let open_brackets := count lbracket healed in
        let close_brackets := count rbracket healed in
        let healed1 :=
          if bool_decide (close_brackets < open_brackets)%nat
          then healed ++ times closing_bracket (open_brackets - close_brackets)
          else healed in
        let healed2 :=
          if bool_decide (close_braces < open_braces)%nat
          then healed1 ++ times closing_brace (open_braces - close_braces)
          else healed1 in
        if balancedb healed2 then healed2 else empty_document.

(** Nesting of braces and brackets: every closer matches the innermost
    open one and nothing stays open.  Other characters are skipped. *)
Fixpoint nested_from (stack : list N) (s : pystr) : bool :=
  match s with
  | [] => bool_decide (stack = [])
  | c :: s' =>
      if bool_decide (c = lbrace) || bool_decide (c = lbracket)
      then nested_from (c :: stack) s'
      else if bool_decide (c = rbrace) then
        match stack with
        | o :: st => bool_decide (o = lbrace) && nested_from st s'
        | [] => false
        end
      else if bool_decide (c = rbracket) then
        match stack with
        | o :: st => bool_decide (o = lbracket) && nested_from st s'
        | [] => false
        end
      else nested_from stack s'
  end.

Definition well_nested (s : pystr) : bool := nested_from [] s.

End JsonHealer.

(** ** extractors/kg_extractor.py: extraction, metrics and the gate *)

Module KGExtractor.
Import ChunkMapper.

(** The class-level counters. *)
Record Metrics := mkMetrics {
  _active_extractions : Z;
  _total_queued : Z;
  _total_completed : Z;
  _total_failed : Z
}.

Inductive action := queue | start | complete | fail.

Definition _update_metrics (a : action) (m : Metrics) : Metrics :=
  match a with
  | queue =>
      mkMetrics (_active_extractions m) (_total_queued m + 1)
                (_total_completed m) (_total_failed m)
  | start =>
      mkMetrics (_active_extractions m + 1) (_total_queued m)
                (_total_completed m) (_total_failed m)
  | complete =>
      mkMetrics (_active_extractions m - 1) (_total_queued m)
                (_total_completed m + 1) (_total_failed m)
  | fail =>
      mkMetrics (_active_extractions m - 1) (_total_queued m)
                (_total_completed m) (_total_failed m + 1)
  end.

(** The dict returned by [get_metrics]. *)
Record MetricsSnapshot := mkSnapshot {
  active_extractions : Z;
  total_queued : Z;
  total_completed : Z;
  total_failed : Z;
  max_concurrent : Z;
  slots_available : Z
}.

Definition get_metrics (MAX_CONCURRENT_EXTRACTIONS : Z) (m : Metrics)
    : MetricsSnapshot :=
  mkSnapshot (_active_extractions m) (_total_queued m) (_total_completed m)
             (_total_failed m) MAX_CONCURRENT_EXTRACTIONS
             (MAX_CONCURRENT_EXTRACTIONS - _active_extractions m).

(** The semaphore value and the counters. *)
Record GateState := mkGate {
  sem_value : nat;
  metrics : Metrics
}.

Definition with_metrics (a : action) (st : GateState) : GateState :=
  mkGate (sem_value st) (_update_metrics a (metrics st)).

(** A raw entity and a raw relationship of the decoded model response;
    a key the model left out is [None].  A confidence is the number
    that [float(...)] gives; not-a-number and the infinities, which the
    decoder accepts as well, are outside this record (not-a-number
    passes the threshold test [confidence < min_confidence]). *)
Record RawEntity := mkRawEntity {
  raw_text : option pystr;
  raw_type : option pystr;
  raw_confidence : option Q;
  raw_start : option Z;
  raw_end : option Z
}.

Record RawRelationship := mkRawRel {
  raw_subject : option pystr;
  raw_predicate : option pystr;
  raw_object : option pystr;
  raw_rel_confidence : option Q;
  raw_context : option pystr
}.

(** What the extractor depends on outside this repository: the model
    client, the regular-expression search for a fenced block, the escape
    sanitiser (regular expressions) and the JSON decoder together with
    the shape checks on its result. *)
Record Environment := mkEnv {
  _ensure_vllm_client : result unit;
  vllm_complete : pystr → result pystr;
  _build_extraction_prompt : pystr → pystr;
  search_fenced : pystr → option pystr;
  _sanitize_escape_sequences : pystr → pystr;
  json_loads : pystr → result (list RawEntity * list RawRelationship);
  min_confidence : Q
}.

Definition Qltb (a b : Q) : bool := negb (Qle_bool b a).

(** [s.rfind(c, 0, stop)]: the last index below [stop], or -1. *)
Definition rfind_before (c : N) (stop : Z) (s : pystr) : Z :=
  foldl (λ acc ix, if bool_decide (ix.2 = c) then ix.1 else acc) (-1)
        (zip (Z.of_nat <$> seq 0 (length s)) (take (Z.to_nat stop) s)).

(** [s.find(c, from)]: the first index at or after [from], or -1. *)
Definition find_after (c : N) (from : Z) (s : pystr) : Z :=
  find_from c (Z.max 0 from) (drop (Z.to_nat from) s).

Definition _get_context (text : pystr) (s e : Z) (window : Z) : Context :=
  let context_start := Z.max 0 (s - window) in
  let context_end := Z.min (len text) (e + window) in
  let sentence_start := rfind_before 46 s text + 1 in
  let sentence_end :=
    let i := find_after 46 e text in
    if bool_decide (i = -1) then len text else i in
  mkContext (strip (slice text context_start s))
            (strip (slice text e context_end))
            (strip (slice text sentence_start sentence_end)).

(** [s.split("::")], by a scan that skips the second colon of each
    separator found. *)
Fixpoint split_colons (skip : bool) (cur : pystr) (s : pystr) : list pystr :=
  match s with
  | [] => [cur]
  | c :: s' =>
      if skip then split_colons false cur s'
      else if startswith [58; 58]%N s then cur :: split_colons true [] s'
      else split_colons false (cur ++ [c]) s'
  end.

(** The hierarchy levels of a type string. *)
Definition parse_type (entity_type : pystr) : TypeHierarchy :=
  let parts := split_colons false [] entity_type in
  mkType (default entity_type (parts !! 0%nat))
         (parts !! 1%nat) (parts !! 2%nat) (parts !! 3%nat) entity_type.

(** The position of an entity: the model's, when it passes the check,
    else the first case-insensitive hit; [None] drops the entity. *)
Definition entity_position (text entity_text normalized : pystr)
    (ent_raw : RawEntity) : option (Z * Z) :=
  let start_pos := default (find_sub entity_text text) (raw_start ent_raw) in
  let end_pos := default (start_pos + len entity_text) (raw_end ent_raw) in
  if bool_decide (start_pos < 0) || bool_decide (end_pos < 0)
     || bool_decide (end_pos ≤ start_pos)
  then
    let start_pos := find_sub normalized (lower text) in
    if bool_decide (0 ≤ start_pos)
    then Some (start_pos, start_pos + len entity_text)
    else None
  else Some (start_pos, end_pos).

(** Loop body of [_process_entities]: state is the list built so far
    and [seen_normalized]. *)
Definition process_entity (env : Environment) (text : pystr)
    (st : list Entity * gset pystr) (ent_raw : RawEntity)
    : list Entity * gset pystr :=
  match raw_text ent_raw, raw_type ent_raw, raw_confidence ent_raw with
  | Some t, Some ty, Some confidence =>
      let entity_text := strip t in
      let entity_type := strip ty in
      if Qltb confidence (min_confidence env) then st
      else
        let normalized := strip (lower entity_text) in
        if bool_decide (normalized ∈ st.2) then st
        else
          let seen := {[normalized]} ∪ st.2 in
          match entity_position text entity_text normalized ent_raw with
          | None => (st.1, seen)
          | Some (start_pos, end_pos) =>
              (st.1 ++ [extracted_entity entity_text normalized
                          start_pos end_pos (parse_type entity_type)
                          confidence
                          (_get_context text start_pos end_pos 50)],
               seen)
          end
  | _, _, _ => st
  end.

Definition _process_entities (env : Environment)
    (entities_raw : list RawEntity) (text : pystr) : list Entity :=
  (foldl (process_entity env text) ([], ∅) entities_raw).1.

(** [entity_lookup] of [_process_relationships]. *)
Definition text_lookup (entities : list Entity) : gmap pystr Entity :=
  foldl (λ m e, <[e_normalized e := e]> (<[lower (e_text e) := e]> m))
        ∅ entities.

Definition process_relationship (env : Environment)
    (lookup : gmap pystr Entity) (rel_raw : RawRelationship)
    : option Relationship :=
  match raw_subject rel_raw, raw_predicate rel_raw, raw_object rel_raw,
        raw_rel_confidence rel_raw with
  | Some s, Some p, Some o, Some confidence =>
      let subject_text := strip s in
      let object_text := strip o in
      let predicate := replace_char 32 95 (lower p) in
      let context := default [] (raw_context rel_raw) in
      if Qltb confidence (min_confidence env) then None
      else
        match lookup !! lower subject_text, lookup !! lower object_text with
        | Some subject_entity, Some object_entity =>
            if bool_decide (e_normalized subject_entity
                            = e_normalized object_entity)
            then None
            else Some (mkRel (e_text subject_entity)
                             (e_normalized subject_entity) predicate
                             (e_text object_entity)
                             (e_normalized object_entity) confidence
                             (prefix context 500) None None None)
        | _, _ => None
        end
  | _, _, _, _ => None
  end.

Definition _process_relationships (env : Environment)
    (relationships_raw : list RawRelationship) (entities : list Entity)
    : list Relationship :=
  omap (process_relationship env (text_lookup entities)) relationships_raw.

(** [s.rfind(c)] *)
Definition rfind (c : N) (s : pystr) : Z := rfind_before c (len s) s.

(** The wrapper-peeling loop, at most [n] further iterations. *)
Fixpoint peel (env : Environment) (n : nat) (response : pystr) : pystr :=
  match n with
  | O => response
  | S n' =>
      let response := strip response in
      if startswith [JsonHealer.lbrace] response
         && endswith JsonHealer.rbrace response
      then response
      else
        match search_fenced env response with
        | Some inner => peel env n' inner
        | None =>
            let start_idx := find JsonHealer.lbrace response in
            let end_idx := rfind JsonHealer.rbrace response in
            if bool_decide (start_idx ≠ -1) && bool_decide (end_idx ≠ -1)
               && bool_decide (start_idx < end_idx)
            then peel env n' (slice response start_idx (end_idx + 1))
            else response
        end
  end.

Definition _parse_llm_response (env : Environment) (response text : pystr)
    : result (list Entity * list Relationship) :=
  let response := peel env 10 response in
  let response := JsonHealer._heal_truncated_json response in
  let response := _sanitize_escape_sequences env response in
  match json_loads env response with
  | Raise JSONDecodeError => Ok ([], [])
  | Raise e => Raise e
  | Ok (entities_raw, relationships_raw) =>
      let entities := _process_entities env entities_raw text in
      Ok (entities, _process_relationships env relationships_raw entities)
  end.

(** One call of [extract_kg] running to its end.  [None]: the call is
    left waiting at the gate because the semaphore has no free slot. *)
Definition extract_kg (env : Environment) (text : pystr) (st : GateState)
    : option (result (list Entity * list Relationship) * GateState) :=
  match strip text with
  | [] => Some (Ok ([], []), st)
  | _ =>
      match _ensure_vllm_client env with
      | Raise e => Some (Raise e, st)
      | Ok _ =>
          let prompt := _build_extraction_prompt env text in
          let st := with_metrics queue st in
          match sem_value st with
          | O => None
          | S v =>
              let st := with_metrics start (mkGate v (metrics st)) in
              let outcome :=
                match vllm_complete env prompt with
                | Raise e => Raise e
                | Ok response => _parse_llm_response env response text
                end in
              match outcome with
              | Ok kg =>
                  let st := with_metrics complete st in
                  Some (Ok kg, mkGate (S (sem_value st)) (metrics st))
              | Raise _ =>
                  let st := with_metrics fail st in
                  Some (Ok ([], []), mkGate (S (sem_value st)) (metrics st))
              end
          end
      end
  end.

(** The model call raises, or it returns and the parsing raises. *)
Definition llm_or_parsing_raises (env : Environment) (text : pystr) : Prop :=
  ∃ e, vllm_complete env (_build_extraction_prompt env text) = Raise e
       ∨ ∃ response,
           vllm_complete env (_build_extraction_prompt env text) = Ok response
           ∧ _parse_llm_response env response text = Raise e.

End KGExtractor.

(** ** The gate under interleaving and cancellation *)

Module ExtractionGate.
Import KGExtractor.

(** Where a call of [extract_kg] stands.  A call ended by cancellation
    keeps what had been recorded for it: whether it was counted as
    queued, and whether ["start"] was recorded without a ["complete"]
    or ["fail"] after it. *)
Inductive phase :=
| Submitted                (* before [_update_metrics("queue")] *)
| Waiting                  (* counted as queued, at [async with semaphore] *)
| Holding                  (* slot acquired, before [_update_metrics("start")] *)
| Running                  (* started: model call and parsing *)
| Accounted (ok : bool)    (* "complete" or "fail" recorded, slot still held *)
| Finished (ok : bool)     (* slot released, call returned *)
| Cancelled (queued started : bool).  (* [CancelledError] left the call *)

#[global] Instance phase_eq_dec : EqDecision phase.
Proof. solve_decision. Defined.

Record Gate := mkGateSys {
  gate : GateState;
  tasks : list phase
}.

(** The scheduler's choices: a new call arrives; call [i] runs to its
    next suspension point ([ok] tells how the model call and the
    parsing end when the call is [Running]); or call [i] is cancelled
    where it stands. *)
Inductive event :=
| Submit
| Advance (i : nat) (ok : bool)
| Cancel (i : nat).

Definition set_task (i : nat) (p : phase) (g : Gate) (st : GateState) : Gate :=
  mkGateSys st (<[i := p]> (tasks g)).

(** [async with semaphore] gives the slot back when the block is left. *)
Definition release (st : GateState) : GateState :=
  mkGate (S (sem_value st)) (metrics st).

(** [CancelledError] is not an [Exception]: the handler
    [except Exception], which records ["fail"], does not run for it,
    and there is no [finally].  A call that has recorded its outcome
    has no suspension point left before it returns. *)
Definition fire (ev : event) (g : Gate) : option Gate :=
  match ev with
  | Submit => Some (mkGateSys (gate g) (tasks g ++ [Submitted]))
  | Advance i ok =>
      match tasks g !! i with
      | Some Submitted => Some (set_task i Waiting g (with_metrics queue (gate g)))
      | Some Waiting =>
          match sem_value (gate g) with
          | S v => Some (set_task i Holding g (mkGate v (metrics (gate g))))
          | O => None
          end
      | Some Holding => Some (set_task i Running g (with_metrics start (gate g)))
      | Some Running =>
          Some (set_task i (Accounted ok) g
                  (with_metrics (if ok then complete else fail) (gate g)))
      | Some (Accounted b) =>
          Some (set_task i (Finished b) g (release (gate g)))
      | Some (Finished _) | Some (Cancelled _ _) | None => None
      end
  | Cancel i =>
      match tasks g !! i with
      | Some Submitted => Some (set_task i (Cancelled false false) g (gate g))
      | Some Waiting => Some (set_task i (Cancelled true false) g (gate g))
      | Some Holding =>
          Some (set_task i (Cancelled true false) g (release (gate g)))
      | Some Running =>
          Some (set_task i (Cancelled true true) g (release (gate g)))
      | Some (Accounted _) | Some (Finished _) | Some (Cancelled _ _)
      | None => None
      end
  end.

Definition run (evs : list event) (g : Gate) : option Gate :=
  foldl (λ og ev, og ≫= fire ev) (Some g) evs.

Definition initial (MAX_CONCURRENT_EXTRACTIONS : nat) : Gate :=
  mkGateSys (mkGate MAX_CONCURRENT_EXTRACTIONS (mkMetrics 0 0 0 0)) [].

Definition reachable (MAX_CONCURRENT_EXTRACTIONS : nat) (g : Gate) : Prop :=
  ∃ evs, run evs (initial MAX_CONCURRENT_EXTRACTIONS) = Some g.

Definition is_finished (p : phase) : bool :=
  match p with Finished _ => true | _ => false end.

(** The call has left [extract_kg], by return or by cancellation. *)
Definition is_over (p : phase) : bool :=
  match p with Finished _ | Cancelled _ _ => true | _ => false end.

(** Number of tasks in a class of phases. *)
Definition tally (w : phase → bool) (l : list phase) : Z :=
  Z.of_nat (length (filter (λ p, w p = true) l)).

Definition holds_slot (p : phase) : bool :=
  match p with Holding | Running | Accounted _ => true | _ => false end.
Definition is_running (p : phase) : bool :=
  match p with Running => true | _ => false end.
(** Cancelled between ["start"] and the record of an outcome. *)
Definition cancelled_running (p : phase) : bool :=
  match p with Cancelled true true => true | _ => false end.
(** Holding a slot without being counted as active. *)
Definition holds_uncounted (p : phase) : bool :=
  match p with Holding | Accounted _ => true | _ => false end.
Definition ended (ok : bool) (p : phase) : bool :=
  match p with
  | Accounted b | Finished b => bool_decide (b = ok)
  | _ => false
  end.
Definition was_queued (p : phase) : bool :=
  match p with
  | Submitted | Cancelled false _ => false
  | _ => true
  end.

(** The invariant of the gate. *)
Definition gate_inv (MAX : nat) (g : Gate) : Prop :=
  Z.of_nat (sem_value (gate g)) + tally holds_slot (tasks g) = Z.of_nat MAX
  ∧ _active_extractions (metrics (gate g))
    = tally is_running (tasks g) + tally cancelled_running (tasks g)
  ∧ _total_completed (metrics (gate g)) = tally (ended true) (tasks g)
  ∧ _total_failed (metrics (gate g)) = tally (ended false) (tasks g)
  ∧ _total_queued (metrics (gate g)) = tally was_queued (tasks g).

(** [n] calls, one after the other, each cancelled while its model
    call is in flight; [first] is the index of the first of them. *)
Fixpoint cancelled_calls (first n : nat) : list event :=
  match n with
  | O => []
  | S n' =>
      [Submit; Advance first true; Advance first true; Advance first true;
       Cancel first] ++ cancelled_calls (S first) n'
  end.

End ExtractionGate.

(** ** extractors/entity_extractor.py *)

Module EntityExtractor.
Import ChunkMapper.

(** A segment handed to the recogniser: [{text, char_start, char_end}]. *)
Record Segment := mkSegment {
  seg_text : pystr;
  seg_char_start : Z;
  seg_char_end : Z
}.

(** A prediction of the recogniser. *)
Record Prediction := mkPred {
  p_text : pystr;
  p_label : pystr;
  p_start : Z;
  p_end : Z;
  p_score : Q
}.

(** Loop state of [_chunk_text_for_gliner]. *)
Record seg_state := mkSegState {
  chunks : list Segment;
  current_chunk : list pystr;
  current_length : Z;
  char_position : Z
}.

Definition space : pystr := [32%N].

Definition seg_step (max_chars : Z) (st : seg_state) (word : pystr) : seg_state :=
  let word_len := len word + 1 in
  match current_chunk st with
  | _ :: _ =>
      if bool_decide (max_chars < current_length st + word_len) then
        let chunk_text := join space (current_chunk st) in
        mkSegState
          (chunks st ++ [mkSegment chunk_text (char_position st)
                           (char_position st + len chunk_text)])
          [word] word_len
          (char_position st + len chunk_text + 1)
      else
        mkSegState (chunks st) (current_chunk st ++ [word])
                   (current_length st + word_len) (char_position st)
  | [] =>
      mkSegState (chunks st) (current_chunk st ++ [word])
                 (current_length st + word_len) (char_position st)
  end.

Definition _chunk_text_for_gliner (text : pystr) (max_chars : Z) : list Segment :=
  let st := foldl (seg_step max_chars) (mkSegState [] [] 0 0) (split text) in
  match current_chunk st with
  | [] => chunks st
  | _ =>
      let chunk_text := join space (current_chunk st) in
      chunks st ++ [mkSegment chunk_text (char_position st)
                      (char_position st + len chunk_text)]
  end.

(** The recogniser (with its entity types and threshold) and the
    settings read by [extract]. *)
Record Environment := mkEnv {
  predict_entities : pystr → result (list Prediction);
  RELATION_CONTEXT_WINDOW : Z;
  ENTITY_DEDUPLICATION : bool
}.

(** Predictions of one segment, shifted by the segment's [char_start]. *)
Definition shift (seg : Segment) (p : Prediction) : Prediction :=
  mkPred (p_text p) (p_label p) (p_start p + seg_char_start seg)
         (p_end p + seg_char_start seg) (p_score p).

Fixpoint predict_segments (env : Environment) (segs : list Segment)
    : result (list Prediction) :=
  match segs with
  | [] => Ok []
  | seg :: rest =>
      match predict_entities env (seg_text seg) with
      | Raise e => Raise e
      | Ok preds =>
          match predict_segments env rest with
          | Raise e => Raise e
          | Ok more => Ok ((shift seg <$> preds) ++ more)
          end
      end
  end.

(** Loop body over the predictions: the entities so far and
    [seen_mentions], keyed by lower-cased text, start and end. *)
Definition process_prediction (env : Environment) (text : pystr)
    (st : list Entity * gset (pystr * Z * Z)) (pred : Prediction)
    : list Entity * gset (pystr * Z * Z) :=
  let mention_key := (lower (p_text pred), p_start pred, p_end pred) in
  if ENTITY_DEDUPLICATION env && bool_decide (mention_key ∈ st.2) then st
  else
    (st.1 ++ [extracted_entity (p_text pred) (strip (lower (p_text pred)))
                (p_start pred) (p_end pred)
                (KGExtractor.parse_type (p_label pred)) (p_score pred)
                (KGExtractor._get_context text (p_start pred) (p_end pred)
                   (RELATION_CONTEXT_WINDOW env))],
     {[mention_key]} ∪ st.2).

Definition extract (env : Environment) (text : pystr) : result (list Entity) :=
  match strip text with
  | [] => Ok []
  | _ =>
      let predictions :=
        if bool_decide (1500 < len text)
        then predict_segments env (_chunk_text_for_gliner text 1000)
        else predict_entities env text in
      match predictions with
      | Raise e => Raise e
      | Ok preds => Ok (foldl (process_prediction env text) ([], ∅) preds).1
      end
  end.

End EntityExtractor.

(** ** pipeline/processor.py *)

Module Processor.
Import ChunkMapper Neo4jClient.

Record Settings := mkSettings {
  USE_GLINER_ENTITIES : bool
}.

(** The extractors a processor holds; the relation extractor of the
    recogniser path is a model call of its own and is taken as given. *)
Record Extractors := mkExtractors {
  entity_extractor : EntityExtractor.Environment;
  kg_extractor : KGExtractor.Environment;
  extract_relationships : pystr → list Entity → result (list Relationship)
}.

(** The store and the extraction gate. *)
Record World := mkWorld {
  graph : Graph;
  gate : KGExtractor.GateState
}.

(** [chunk_node_map] while the chunks are stored. *)
Fixpoint store_chunks (doc_node_id : node_id) (chunks : list ChunkBoundary)
    (chunk_node_map : gmap Z node_id) : Cypher (gmap Z node_id) :=
  match chunks with
  | [] => ret chunk_node_map
  | chunk :: rest =>
      bind (create_chunk doc_node_id (ChunkMapper.vector_rowid chunk)
              (ChunkMapper.chunk_index chunk) (ChunkMapper.char_start chunk)
              (ChunkMapper.char_end chunk)
              (prefix (ChunkMapper.text chunk) 200))
           (λ chunk_node_id,
              store_chunks doc_node_id rest
                (<[ChunkMapper.vector_rowid chunk := chunk_node_id]>
                   chunk_node_map))
  end.

Fixpoint link_appearances (entity : Entity) (entity_node_id : node_id)
    (chunk_node_map : gmap Z node_id) (apps : list Appearance) : Cypher unit :=
  match apps with
  | [] => ret ()
  | appearance :: rest =>
      match chunk_node_map !! app_vector_rowid appearance with
      | Some chunk_node_id =>
          bind (link_entity_to_chunk entity_node_id chunk_node_id
                  (offset_start appearance) (offset_end appearance)
                  (e_confidence entity)
                  (context_before (e_context entity))
                  (context_after (e_context entity))
                  (sentence (e_context entity)))
               (λ _, link_appearances entity entity_node_id
                       chunk_node_map rest)
      | None => link_appearances entity entity_node_id chunk_node_map rest
      end
  end.

Fixpoint store_entities (entities : list Entity)
    (chunk_node_map : gmap Z node_id) (entity_node_map : gmap pystr node_id)
    : Cypher (gmap pystr node_id) :=
  match entities with
  | [] => ret entity_node_map
  | entity :: rest =>
      bind (create_entity (e_text entity) (e_normalized entity)
              (e_type entity) (e_confidence entity))
           (λ entity_node_id,
              bind (link_appearances entity entity_node_id chunk_node_map
                      (get_chunk_appearances entity))
                   (λ _, store_entities rest chunk_node_map
                           (<[e_normalized entity := entity_node_id]>
                              entity_node_map)))
  end.

Fixpoint store_relationships (relationships : list Relationship) : Cypher unit :=
  match relationships with
  | [] => ret ()
  | rel :: rest =>
      bind (create_relationship (subject_normalized rel) (predicate rel)
              (object_normalized rel) (r_confidence rel) (r_context rel))
           (λ _, store_relationships rest)
  end.

(** The dict returned by [_store_in_neo4j]. *)
Record StoreResult := mkStoreResult {
  document_node_id : node_id;
  chunk_count : nat;
  entity_count : nat;
  relationship_count : nat
}.

Definition _store_in_neo4j (content_id : Z) (url title : pystr)
    (chunks : list ChunkBoundary) (entities : list Entity)
    (relationships : list Relationship) : Cypher StoreResult :=
  bind (create_document content_id url title) (λ doc_node_id,
  bind (store_chunks doc_node_id chunks ∅) (λ chunk_node_map,
  bind (store_entities entities chunk_node_map ∅) (λ entity_node_map,
  bind (store_relationships relationships) (λ _,
  ret (mkStoreResult doc_node_id (size chunk_node_map)
         (size entity_node_map) (length relationships)))))).

Definition _format_entities_for_response (entities : list Entity) : list Entity :=
  (λ e, mkEntity (e_text e) (e_normalized e) (e_start e) (e_end e)
          (e_type e) (e_confidence e) (e_context e) (occurrences e)
          (start_pos e) (end_pos e)
          (Some (get_chunk_appearances e))
          (Some (default false (spans_multiple_chunks e)))) <$> entities.

Definition _format_relationships_for_response
    (relationships : list Relationship) : list Relationship :=
  (λ r, mkRel (subject_text r) (subject_normalized r) (predicate r)
          (object_text r) (object_normalized r) (r_confidence r)
          (r_context r)
          (Some (default false (spans_chunks r)))
          (Some (default [] (chunk_rowids r)))
          (primary_chunk_rowid r)) <$> relationships.

(** The result dict of [process_document]; the processing time and the
    summary statistics are left out. *)
Record ProcessResult := mkResult {
  success : bool;
  r_content_id : Z;
  neo4j_document_id : node_id;
  entities_extracted : nat;
  relationships_extracted : nat;
  r_entities : list Entity;
  r_relationships : list Relationship
}.

(** Steps 1 and 2: extraction, by the configured path.  [None]: the
    call is left waiting at the extraction gate. *)
Definition extract_step (settings : Settings) (ex : Extractors)
    (markdown : pystr) (g : KGExtractor.GateState)
    : option (result (list Entity * list Relationship) * KGExtractor.GateState) :=
  if USE_GLINER_ENTITIES settings then
    match EntityExtractor.extract (entity_extractor ex) markdown with
    | Raise e => Some (Raise e, g)
    | Ok entities =>
        match extract_relationships ex markdown entities with
        | Raise e => Some (Raise e, g)
        | Ok relationships => Some (Ok (entities, relationships), g)
        end
    end
  else KGExtractor.extract_kg (kg_extractor ex) markdown g.

(** [process_document], for an initialised processor.  The [except]
    clause logs and re-raises. *)
Definition process_document (settings : Settings) (ex : Extractors)
    (content_id : Z) (url title markdown : pystr)
    (chunks : list ChunkBoundary) (w : World)
    : option (result ProcessResult * World) :=
  match extract_step settings ex markdown (gate w) with
  | None => None
  | Some (Raise e, gt) => Some (Raise e, mkWorld (graph w) gt)
  | Some (Ok (entities, relationships), gt) =>
      let mapped_entities := map_entities_to_chunks entities chunks in
      let mapped_relationships :=
        map_relationships_to_chunks relationships mapped_entities chunks in
      match _store_in_neo4j content_id url title chunks mapped_entities
              mapped_relationships (graph w) with
      | (Raise e, g') => Some (Raise e, mkWorld g' gt)
      | (Ok neo4j_result, g') =>
          Some (Ok (mkResult true content_id
                      (document_node_id neo4j_result)
                      (length mapped_entities)
                      (length mapped_relationships)
                      (_format_entities_for_response mapped_entities)
                      (_format_relationships_for_response
                         mapped_relationships)),
                mkWorld g' gt)
      end
  end.

End Processor.

(** ** api/server.py and the request model of api/models.py *)

Module Server.
Import ChunkMapper Processor.

Record IngestRequest := mkRequest {
  content_id : Z;
  url : pystr;
  title : pystr;
  markdown : pystr;
  chunks : list ChunkBoundary
}.

(** The field constraints and validators of [IngestRequest]. *)
Definition validate_request (r : IngestRequest) : bool :=
  bool_decide (0 < content_id r)
  && bool_decide (len (url r) ≤ 2048)
  && (startswith (py "http://") (url r) || startswith (py "https://") (url r))
  && bool_decide (len (title r) ≤ 500)
  && bool_decide (50 ≤ len (markdown r))
  && bool_decide (len (markdown r) ≤ 1000000)
  && validate_chunks (chunks r).

(** [processing_stats], without the time fields. *)
Record Stats := mkStats {
  total_processed : Z;
  total_entities : Z;
  total_relationships : Z;
  failed_count : Z
}.

(** The module-level state: the processor (or [None] before start-up
    has set it), the statistics, the store and the gate. *)
Record State := mkState {
  kg_processor : option (Settings * Extractors);
  processing_stats : Stats;
  world : World
}.

(** [confidence: float = Field(..., ge=0.0, le=1.0)] *)
Definition confidence_in_range (c : Q) : bool :=
  Qle_bool 0 c && Qle_bool c 1.

(** Validation of [IngestResponse(...)]: the constraints on values are
    the confidence ranges of [ExtractedEntity] and
    [ExtractedRelationship]; every other field of the result has its
    declared type by construction. *)
Definition ingest_response_ok (result : ProcessResult) : bool :=
  forallb (λ e, confidence_in_range (e_confidence e)) (r_entities result)
  && forallb (λ r, confidence_in_range (r_confidence r))
             (r_relationships result).

(** The body of the [try] block of [ingest_document]: the statistics
    are updated before the response is built, so a response that fails
    validation leaves them updated. *)
Definition ingest_try (request : IngestRequest) (s : State)
    : option (result ProcessResult * State) :=
  match kg_processor s with
  | None => Some (Raise (HTTPException 503), s)
  | Some (settings, ex) =>
      match process_document settings ex (content_id request) (url request)
              (title request) (markdown request) (chunks request) (world s) with
      | None => None
      | Some (Raise e, w) =>
          Some (Raise e, mkState (kg_processor s) (processing_stats s) w)
      | Some (Ok result, w) =>
          let st := processing_stats s in
          let s' :=
            mkState (kg_processor s)
              (mkStats (total_processed st + 1)
                 (total_entities st + Z.of_nat (entities_extracted result))
                 (total_relationships st
                  + Z.of_nat (relationships_extracted result))
                 (failed_count st))
              w in
          if ingest_response_ok result then Some (Ok result, s')
          else Some (Raise ValueError, s')
      end
  end.

(** [ingest_document]: the [try] block under [except Exception], which
    counts the failure and raises [HTTPException(500)]. *)
Definition ingest_document (request : IngestRequest) (s : State)
    : option (result ProcessResult * State) :=
  match ingest_try request s with
  | None => None
  | Some (Ok result, s') => Some (Ok result, s')
  | Some (Raise _, s') =>
      let st := processing_stats s' in
      Some (Raise (HTTPException 500),
            mkState (kg_processor s')
              (mkStats (total_processed st) (total_entities st)
                 (total_relationships st) (failed_count st + 1))
              (world s'))
  end.

(** The status code the framework answers with: 422 when the body fails
    validation, the code of a raised [HTTPException], 500 for any other
    exception, 200 otherwise. *)
Definition post_ingest (request : IngestRequest) (s : State)
    : option (Z * State) :=
  if validate_request request then
    match ingest_document request s with
    | None => None
    | Some (Ok _, s') => Some (200, s')
    | Some (Raise (HTTPException code), s') => Some (code, s')
    | Some (Raise _, s') => Some (500, s')
    end
  else Some (422, s).

End Server.

(** ** api/enhanced_search.py *)

Module EnhancedSearch.
Import Neo4jClient.

(** One map of [search_chunks_data] or [expanded_chunks_data].  The
    query builds every map with all its keys, so a key is never absent
    (the defaults of [dict.get] are never used); a value is [None] when
    the optional match bound nothing or the node lacks the property.
    [row_entities] is the list under ["search_entities"], respectively
    ["expanded_entities"]. *)
Record ChunkRow := mkRow {
  row_chunk_id : option node_id;
  row_vector_rowid : option Z;
  row_chunk_index : option Z;
  row_text : option pystr;
  row_doc_url : option pystr;
  row_entities : list pystr
}.

(** The part of the query result the scorer reads. *)
Record QueryResult := mkQueryResult {
  search_chunks : list ChunkRow;
  expanded_chunks : list ChunkRow
}.

(** [OPTIONAL MATCH]: the matches, or one row of nulls. *)
Definition optional {A} (matches : list A) : list (option A) :=
  match matches with
  | [] => [None]
  | _ => Some <$> matches
  end.

(** The paths [(e)-[:MENTIONED_IN]->(c:Chunk)-[:PART_OF]->(d:Document)]
    from the entity with the given id. *)
Definition mentioned_chunk_paths (g : Graph) (entity : node_id)
    : list (ChunkNode * DocumentNode) :=
  m ← filter (λ ed, src ed = entity ∧ rel_type ed = MENTIONED_IN) (edges g);
  c ← filter (λ c, chunk_id c = dst m) (chunks g);
  p ← filter (λ ed, src ed = chunk_id c ∧ rel_type ed = PART_OF) (edges g);
  d ← filter (λ d, doc_id d = dst p) (documents g);
  [(c, d)].

(** The paths [(c)<-[:MENTIONED_IN]-(e:Entity)] with [e.text] outside
    the search terms. *)
Definition cooccurring_entities (g : Graph) (search_terms : list pystr)
    (c : ChunkNode) : list EntityNode :=
  m ← filter (λ ed, dst ed = chunk_id c ∧ rel_type ed = MENTIONED_IN) (edges g);
  e ← filter (λ e, entity_id e = src m) (entities g);
  if bool_decide (text e ∈ search_terms) then [] else [e].

(** Steps 1 and 2: each resolved entity with each chunk it reaches. *)
Definition search_rows (g : Graph) (search_terms : list pystr)
    : list (EntityNode * option (ChunkNode * DocumentNode)) :=
  se ← filter (λ e, text e ∈ search_terms) (entities g);
  (λ sc, (se, sc)) <$> optional (mentioned_chunk_paths g (entity_id se)).

(** Steps 3 and 5 on top: each co-occurring entity with each chunk it
    reaches.  (Step 4 only repeats rows, which [DISTINCT] removes.) *)
Definition expanded_rows (g : Graph) (search_terms : list pystr)
    : list (option EntityNode * option (ChunkNode * DocumentNode)) :=
  row ← search_rows g search_terms;
  ce ← match row.2 with
       | Some (c, _) => optional (cooccurring_entities g search_terms c)
       | None => [None]
       end;
  match ce with
  | Some e => (λ ec, (ce, ec)) <$> optional (mentioned_chunk_paths g (entity_id e))
  | None => [(None, None)]
  end.

Definition path_key (p : option (ChunkNode * DocumentNode))
    : option (node_id * node_id) :=
  (λ cd, (chunk_id cd.1, doc_id cd.2)) <$> p.

(** The map built for a chunk path; Chunk nodes have no [text] property
    (they carry [text_preview]), so [text] is null. *)
Definition row_of (p : option (ChunkNode * DocumentNode))
    (names : list pystr) : ChunkRow :=
  match p with
  | Some (c, d) =>
      mkRow (Some (chunk_id c)) (Some (vector_rowid c))
            (Some (chunk_index c)) None (Some (url d)) names
  | None => mkRow None None None None None names
  end.

(** [collect(DISTINCT ...)]: first occurrences, in order. *)
Fixpoint distinct {A} `{EqDecision A} (seen l : list A) : list A :=
  match l with
  | [] => []
  | x :: l' =>
      if bool_decide (x ∈ seen) then distinct seen l'
      else x :: distinct (x :: seen) l'
  end.

(** The aggregation of the rows into one map per chunk path; the inner
    [collect] of entity names is read per chunk path. *)
Definition collect_chunks {E} (name : E → option pystr)
    (rows : list (E * option (ChunkNode * DocumentNode))) : list ChunkRow :=
  let paths := snd <$> rows in
  let keys := distinct [] (path_key <$> paths) in
  omap (λ k,
          (λ p, row_of p
                  (distinct []
                     (omap (λ r, if bool_decide (path_key r.2 = k)
                                 then name r.1 else None) rows)))
          <$> List.find (λ p, bool_decide (path_key p = k)) paths)
       keys.

Definition _execute_enhanced_query (g : Graph) (search_term_entities : list pystr)
    : QueryResult :=
  mkQueryResult
    (collect_chunks (λ e, Some (text e)) (search_rows g search_term_entities))
    (collect_chunks (λ oe, text <$> oe) (expanded_rows g search_term_entities)).

(** One dict of the scored list. *)
Record ScoredChunk := mkScored {
  sc_chunk_id : option node_id;
  sc_vector_rowid : Z;
  sc_chunk_index : option Z;
  chunk_text : pystr;
  document_url : option pystr;
  expansion_score : Q;
  search_entity_count : nat;
  expanded_entity_count : nat;
  relationship_count : nat
}.

Definition search_score (search_entity_count : nat) : Q :=
  if bool_decide (2 ≤ search_entity_count)%nat then 1
  else if bool_decide (search_entity_count = 1%nat) then 6 # 10
  else 4 # 10.

Definition expansion_only_score (expanded_entity_count : nat) : Q :=
  if bool_decide (3 < expanded_entity_count)%nat then 8 # 10
  else if bool_decide (1 < expanded_entity_count)%nat then 6 # 10
  else 4 # 10.

(** Loop state: [scored_chunks] and [chunk_dedup]. *)
Definition score_state : Type := list ScoredChunk * gset Z.

(** Body of the first loop; slicing the text of a kept chunk raises
    when the text is [None]. *)
Definition score_search_chunk (st : score_state) (chunk : ChunkRow)
    : result score_state :=
  match row_vector_rowid chunk with
  | None => Ok st
  | Some vector_rowid =>
      if bool_decide (vector_rowid ∈ st.2) then Ok st
      else
        let search_entity_count := length (row_entities chunk) in
        match row_text chunk with
        | None => Raise TypeError
        | Some t =>
            Ok (st.1 ++ [mkScored (row_chunk_id chunk) vector_rowid
                           (row_chunk_index chunk) (prefix t 500)
                           (row_doc_url chunk)
                           (search_score search_entity_count)
                           search_entity_count 0 0],
                {[vector_rowid]} ∪ st.2)
        end
  end.

(** Body of the second loop. *)
Definition score_expanded_chunk (st : score_state) (chunk : ChunkRow)
    : result score_state :=
  match row_vector_rowid chunk with
  | None => Ok st
  | Some vector_rowid =>
      if bool_decide (vector_rowid ∈ st.2) then Ok st
      else
        let expanded_entity_count := length (row_entities chunk) in
        match row_text chunk with
        | None => Raise TypeError
        | Some t =>
            Ok (st.1 ++ [mkScored (row_chunk_id chunk) vector_rowid
                           (row_chunk_index chunk) (prefix t 500)
                           (row_doc_url chunk)
                           (expansion_only_score expanded_entity_count)
                           0 expanded_entity_count 0],
                {[vector_rowid]} ∪ st.2)
        end
  end.

Fixpoint score_loop (body : score_state → ChunkRow → result score_state)
    (st : score_state) (rows : list ChunkRow) : result score_state :=
  match rows with
  | [] => Ok st
  | chunk :: rest =>
      match body st chunk with
      | Ok st' => score_loop body st' rest
      | Raise e => Raise e
      end
  end.

(** [list.sort(key=expansion_score, reverse=True)]: a stable sort, so
    chunks of equal score keep their order. *)
Fixpoint insert_by_score (x : ScoredChunk) (l : list ScoredChunk)
    : list ScoredChunk :=
  match l with
  | [] => [x]
  | y :: l' =>
      if KGExtractor.Qltb (expansion_score x) (expansion_score y)
      then y :: insert_by_score x l'
      else x :: l
  end.

Definition sort_by_score (l : list ScoredChunk) : list ScoredChunk :=
  foldr insert_by_score [] l.

Definition _score_and_rank_chunks (query_result : QueryResult)
    : result (list ScoredChunk) :=
  match score_loop score_search_chunk ([], ∅) (search_chunks query_result) with
  | Raise e => Raise e
  | Ok st =>
      match score_loop score_expanded_chunk st (expanded_chunks query_result) with
      | Raise e => Raise e
      | Ok st' => Ok (sort_by_score st'.1)
      end
  end.

(** The response model [ChunkScore]: every field is required. *)
Record ChunkScore := mkChunkScore {
  cs_chunk_id : node_id;
  cs_vector_rowid : Z;
  cs_chunk_index : Z;
  cs_chunk_text : pystr;
  cs_document_url : pystr;
  cs_expansion_score : Q;
  cs_search_entity_count : nat;
  cs_expanded_entity_count : nat;
  cs_relationship_count : nat
}.

(** Building a [ChunkScore] from the dict: validation fails on a [None]
    field. *)
Definition to_chunk_score (c : ScoredChunk) : result ChunkScore :=
  match sc_chunk_id c, sc_chunk_index c, document_url c with
  | Some id, Some idx, Some u =>
      Ok (mkChunkScore id (sc_vector_rowid c) idx (chunk_text c) u
            (expansion_score c) (search_entity_count c)
            (expanded_entity_count c) (relationship_count c))
  | _, _, _ => Raise ValueError
  end.

Fixpoint to_chunk_scores (l : list ScoredChunk) : result (list ChunkScore) :=
  match l with
  | [] => Ok []
  | c :: rest =>
      match to_chunk_score c, to_chunk_scores rest with
      | Ok x, Ok xs => Ok (x :: xs)
      | Raise e, _ => Raise e
      | _, Raise e => Raise e
      end
  end.

(** [EnhancedSearchResponse], without the statistics. *)
Record Response := mkResponse {
  success : bool;
  resp_chunks : list ChunkScore;
  total_chunks : nat
}.

(** The body of [enhanced_kg_search] from the point where the query has
    returned [query_result]: score and rank, cut to [max_chunks], build
    the response; any exception becomes [HTTPException(500)]. *)
Definition search_response (query_result : QueryResult) (max_chunks : nat)
    : result Response :=
  match _score_and_rank_chunks query_result with
  | Raise _ => Raise (HTTPException 500)
  | Ok scored_chunks =>
      let top_chunks := take max_chunks scored_chunks in
      match to_chunk_scores top_chunks with
      | Raise _ => Raise (HTTPException 500)
      | Ok chunks => Ok (mkResponse true chunks (length top_chunks))
      end
  end.

Definition enhanced_kg_search (g : Graph) (search_term_entities : list pystr)
    (max_chunks : nat) : result Response :=
  let query_result := _execute_enhanced_query g search_term_entities in
  search_response query_result max_chunks.

(** Some [PART_OF] edge leaves a Chunk node. *)
Definition part_of_from_chunk (g : Graph) : bool :=
  existsb (λ ed, bool_decide (rel_type ed = PART_OF)
                 && existsb (λ c, bool_decide (chunk_id c = src ed)) (chunks g))
          (edges g).







(** The rowids and scores of a scored list, in order. *)
Definition ranking (r : result (list ScoredChunk)) : option (list (Z * Q)) :=
  match r with
  | Ok l => Some ((λ c, (sc_vector_rowid c, expansion_score c)) <$> l)
  | Raise _ => None
  end.






End EnhancedSearch.

(** ** Concrete requests used to exercise the embedding *)

Module Scenario.
Import ChunkMapper.

(** A chunk list the request validation accepts, whose only chunk claims
    the range 0..2500 but carries 10 characters of text. *)
Definition short_text_chunks : list ChunkBoundary :=
  [ mkChunk 45001 0 0 2500 (py "# FastAPI " ) ].

(** An entity with one explicit occurrence at 100..121. *)
Definition positioned_entity : Entity :=
  entity_with_occurrences (py "FastAPI web framework") [mkOcc 100 121].

(** A chunk whose text covers its range, and an entity inside it. *)
Definition covering_chunks : list ChunkBoundary :=
  [ mkChunk 45001 0 0 21 (py "FastAPI uses Pydantic") ].

Definition covered_entity : Entity :=
  entity_with_occurrences (py "FastAPI uses") [mkOcc 0 12].

(** A store holding the entities [fastapi] (3 mentions, average 0.8)
    and [pydantic], and one [USES] edge between them seen twice. *)
Definition framework_type : TypeHierarchy :=
  mkType (py "Framework") None None None (py "Framework").

Definition small_graph : Neo4jClient.Graph :=
  Neo4jClient.mkGraph [] []
    [ Neo4jClient.mkEntityNode 0%nat (py "fastapi") (py "FastAPI")
        framework_type 3 (8 # 10);
      Neo4jClient.mkEntityNode 1%nat (py "pydantic") (py "Pydantic")
        framework_type 1 (9 # 10) ]
    [ Neo4jClient.mkEdge 0%nat (py "USES") 1%nat
        (Neo4jClient.RelProps (7 # 10) (py "FastAPI uses Pydantic") 2) ]
    2%nat.

(** A model response cut off inside an array that is nested in an
    entity object: [{"entities": [{"text": "Neo4j", "aliases": ["neo"]]. *)
Definition truncated_response : pystr :=
  py "{" ++ quoted "entities" ++ py ": [{" ++ quoted "text" ++ py ": "
    ++ quoted "Neo4j" ++ py ", " ++ quoted "aliases" ++ py ": ["
    ++ quoted "neo" ++ py "]".

(** Four ingests against a gate of two slots: all are queued, two
    acquire, the first two end (one by success, one by failure) and
    release, then the other two run and succeed. *)
Definition four_ingests : list ExtractionGate.event :=
  let adv := ExtractionGate.Advance in
  [ ExtractionGate.Submit; ExtractionGate.Submit;
    ExtractionGate.Submit; ExtractionGate.Submit;
    adv 0 true; adv 1 true; adv 2 true; adv 3 true;
    adv 0 true; adv 1 true; adv 0 true; adv 1 true;
    adv 0 true; adv 0 true; adv 2 true; adv 1 false; adv 1 false;
    adv 3 true; adv 2 true; adv 3 true; adv 2 true; adv 3 true;
    adv 2 true; adv 3 true ]%nat.

(** Three ingests against a gate of two slots, each abandoned by its
    client while the model call is in flight. *)
Definition three_cancelled : list ExtractionGate.event :=
  ExtractionGate.cancelled_calls 0 3.

(** After them three more ingests arrive: two acquire the slots and
    start, the third waits. *)
Definition cancelled_then_busy : list ExtractionGate.event :=
  let adv := ExtractionGate.Advance in
  three_cancelled
    ++ [ ExtractionGate.Submit; ExtractionGate.Submit; ExtractionGate.Submit;
         adv 3 true; adv 4 true; adv 5 true; adv 3 true; adv 4 true;
         adv 3 true; adv 4 true ]%nat.

Definition gate_after (evs : list ExtractionGate.event) : ExtractionGate.Gate :=
  default (ExtractionGate.initial 2)
          (ExtractionGate.run evs (ExtractionGate.initial 2)).

(** A model server that is down, behind an initialised client. *)
Definition unavailable_llm : KGExtractor.Environment :=
  KGExtractor.mkEnv (Ok ()) (λ _, Raise ModelUnavailable) (λ t, t)
    (λ _, None) (λ s, s) (λ _, Raise JSONDecodeError) (45 # 100).

Definition silent_ner : EntityExtractor.Environment :=
  EntityExtractor.mkEnv (λ _, Ok []) 200 true.

Definition llm_processor : Processor.Settings * Processor.Extractors :=
  (Processor.mkSettings false,
   Processor.mkExtractors silent_ner unavailable_llm (λ _ _, Ok [])).

(** The request of the healthy-ingest scenario, with short texts. *)
Definition two_chunks : list ChunkBoundary :=
  [ mkChunk 45001 0 0 2500 (py "# FastAPI is a web framework");
    mkChunk 45002 1 2450 4950 (py "It uses Pydantic models") ].

Definition fastapi_request : Server.IngestRequest :=
  Server.mkRequest 123 (py "https://docs.fastapi.com")
    (py "FastAPI Documentation")
    (py "# FastAPI is a web framework. It uses Pydantic models for data.")
    two_chunks.

Definition fresh_world : Processor.World :=
  Processor.mkWorld Neo4jClient.empty_graph
    (KGExtractor.mkGate 4 (KGExtractor.mkMetrics 0 0 0 0)).

(** The server before start-up has set the processor. *)
Definition uninitialised_server : Server.State :=
  Server.mkState None (Server.mkStats 0 0 0 0) fresh_world.

(** The enhanced-search scenario: the first chunk mentions Neo4j and
    Python, the second mentions Python only. *)
Definition database_type : TypeHierarchy :=
  mkType (py "Database") None None None (py "Database").
Definition language_type : TypeHierarchy :=
  mkType (py "Language") None None None (py "Language").

Definition neo4j_entity : Entity :=
  mkEntity (py "Neo4j") (py "neo4j") 10 15 database_type (9 # 10)
    (mkContext [] [] []) [] None None
    (Some [mkApp 45001 0 10 15]) (Some false).

Definition python_entity : Entity :=
  mkEntity (py "Python") (py "python") 30 36 language_type (9 # 10)
    (mkContext [] [] []) [] None None
    (Some [mkApp 45001 0 30 36; mkApp 45002 1 5 11]) (Some true).

Definition ingested_graph : Neo4jClient.Graph :=
  (Processor._store_in_neo4j 123 (py "https://docs.fastapi.com")
     (py "FastAPI Documentation") two_chunks
     [neo4j_entity; python_entity] [] Neo4jClient.empty_graph).2.

Definition neo4j_python : list pystr := [py "Neo4j"; py "Python"].

(** A query result with texts: chunk 45001 holds both search entities,
    45002 one; 45003 to 45005 are reached by expansion with 4, 2 and 1
    co-occurring entities; 45002 shows up again among the expansions. *)
Definition sample_row (rowid : Z) (names : list pystr) : EnhancedSearch.ChunkRow :=
  EnhancedSearch.mkRow (Some (Z.to_nat rowid)) (Some rowid) (Some 0)
    (Some (times (py "Neo4j and Python. ") 40))
    (Some (py "https://docs.fastapi.com")) names.

Definition sample_query_result : EnhancedSearch.QueryResult :=
  EnhancedSearch.mkQueryResult
    [ sample_row 45002 [py "Python"];
      sample_row 45001 [py "Neo4j"; py "Python"] ]
    [ sample_row 45005 [py "Flask"];
      sample_row 45002 [py "Flask"; py "Django"];
      sample_row 45004 [py "Flask"; py "Django"];
      sample_row 45003 [py "Flask"; py "Django"; py "Redis"; py "Celery"] ].

(** A markdown document of 1890 characters whose words are separated by
    blank lines: 100 times the word knowledge, then the entity
    Neo4j graph database at 1100..1120, then 70 more words. *)
Definition blank_line : pystr := [10; 10]%N.

Definition long_markdown : pystr :=
  times (py "knowledge" ++ blank_line) 100
    ++ py "Neo4j graph database"
    ++ times (blank_line ++ py "knowledge") 70.

Definition graph_database : pystr := py "Neo4j graph database".

(** Its two chunks, each with the text of its range. *)
Definition long_chunks : list ChunkBoundary :=
  [ mkChunk 45001 0 0 1000 (slice long_markdown 0 1000);
    mkChunk 45002 1 1000 1890 (slice long_markdown 1000 1890) ].

(** A recogniser that finds the entity at the start of a segment and
    reports it with segment-local offsets. *)
Definition graph_ner : EntityExtractor.Environment :=
  EntityExtractor.mkEnv
    (λ segment,
       if startswith graph_database segment
       then Ok [EntityExtractor.mkPred graph_database
                  (py "Database::Graph") 0 20 (9 # 10)]
       else Ok [])
    200 true.

Definition ner_processor : Processor.Settings * Processor.Extractors :=
  (Processor.mkSettings true,
   Processor.mkExtractors graph_ner unavailable_llm (λ _ _, Ok [])).

(** A model that answers with the entity, without offsets. *)
Definition answering_llm : KGExtractor.Environment :=
  KGExtractor.mkEnv (Ok ()) (λ _, Ok (py "{}")) (λ t, t)
    (λ _, None) (λ s, s)
    (λ _, Ok ([KGExtractor.mkRawEntity (Some graph_database)
                 (Some (py "Database::Graph")) (Some (9 # 10)) None None],
              []))
    (45 # 100).

Definition answering_processor : Processor.Settings * Processor.Extractors :=
  (Processor.mkSettings false,
   Processor.mkExtractors silent_ner answering_llm (λ _ _, Ok [])).

(** The text, start and end of the extracted entities. *)
Definition entity_spans (r : result (list Entity))
    : option (list (pystr * Z * Z)) :=
  match r with
  | Ok l => Some ((λ e, (e_text e, e_start e, e_end e)) <$> l)
  | Raise _ => None
  end.

(** The text and the chunk appearances of the entities of a response. *)
Definition response_anchors
    (r : option (result Processor.ProcessResult * Processor.World))
    : option (list (pystr * list Appearance)) :=
  match r with
  | Some (Ok res, _) =>
      Some ((λ e, (e_text e, get_chunk_appearances e))
              <$> Processor.r_entities res)
  | _ => None
  end.

Definition ingest_long (p : Processor.Settings * Processor.Extractors)
    : option (result Processor.ProcessResult * Processor.World) :=
  Processor.process_document p.1 p.2 123 (py "https://docs.fastapi.com")
    (py "FastAPI Documentation") long_markdown long_chunks fresh_world.

End Scenario.

(** ** extractors/relation_extractor.py: array healing and de-duplication *)

Module RelationExtractor.
Import JsonHealer.

(** [for i in range(n - 1, start_idx, -1): if response[i] == '}']: the
    first index, going down from [n - 1] and staying above [start_idx],
    that holds a closing brace; -1 when there is none. *)
Fixpoint last_brace_above (response : pystr) (start_idx : Z) (n : nat) : Z :=
  match n with
  | O => -1
  | S i =>
      if bool_decide (start_idx < Z.of_nat i) then
        match response !! i with
        | Some c =>
            if bool_decide (c = rbrace) then Z.of_nat i
            else last_brace_above response start_idx i
        | None => last_brace_above response start_idx i
        end
      else -1
  end.

Definition empty_array : pystr := [lbracket; rbracket].

Definition _heal_truncated_json (response : pystr) : pystr :=
  let start_idx := find lbracket response in
  if bool_decide (start_idx = -1) then response
  else if endswith rbracket (rstrip response) then response
  else
    let last_brace := last_brace_above response start_idx (length response) in
    if bool_decide (last_brace = -1) then empty_array
    else slice response 0 (last_brace + 1) ++ [newline; rbracket].

(** A Python [float] as its comparisons see it: a number (a finite
    double is the rational it denotes), an infinity, or not-a-number.
    [json.loads] yields all of them and [float(...)] keeps them. *)
Inductive pyfloat :=
| Number (q : Q)
| PosInf
| NegInf
| NaN.

(** [a > b]: every comparison with not-a-number is false. *)
Definition float_gt (a b : pyfloat) : bool :=
  match a, b with
  | NaN, _ | _, NaN => false
  | NegInf, _ => false
  | _, PosInf => false
  | PosInf, _ => true
  | Number _, NegInf => true
  | Number x, Number y => KGExtractor.Qltb y x
  end.

(** A validated relationship dict, with the keys read here and its
    texts. *)
Record Validated := mkValidated {
  v_subject_text : pystr;
  v_subject_normalized : pystr;
  v_predicate : pystr;
  v_object_text : pystr;
  v_object_normalized : pystr;
  v_confidence : pyfloat;
  v_context : pystr
}.

(** The key of [rel_map]. *)
Definition rel_key (rel : Validated) : pystr * pystr * pystr :=
  (v_subject_normalized rel, v_predicate rel, v_object_normalized rel).

(** [rel_map], a dict, as the list of its items in insertion order. *)
Definition rel_map : Type := list ((pystr * pystr * pystr) * Validated).

(** [rel_map.get(key)] *)
Definition get (key : pystr * pystr * pystr) (m : rel_map)
    : option Validated :=
  snd <$> List.find (λ kr, bool_decide (kr.1 = key)) m.

(** [rel_map[key] = rel]: an existing key keeps its place. *)
Fixpoint assign (key : pystr * pystr * pystr) (rel : Validated)
    (m : rel_map) : rel_map :=
  match m with
  | [] => [(key, rel)]
  | (k, r) :: m' =>
      if bool_decide (k = key) then (key, rel) :: m'
      else (k, r) :: assign key rel m'
  end.

(** Body of the loop of [_deduplicate_relationships]:
    [if key not in rel_map or rel["confidence"] >
    rel_map[key]["confidence"]]. *)
Definition dedup_step (m : rel_map) (rel : Validated) : rel_map :=
  let key := rel_key rel in
  match get key m with
  | None => assign key rel m
  | Some kept =>
      if float_gt (v_confidence rel) (v_confidence kept)
      then assign key rel m else m
  end.

Definition _deduplicate_relationships (relationships : list Validated)
    : list Validated :=
  snd <$> foldl dedup_step [] relationships.

Definition is_nan (x : pyfloat) : bool :=
  match x with NaN => true | _ => false end.

(** [a <= b] *)
Definition float_le (a b : pyfloat) : bool :=
  match a, b with
  | NaN, _ | _, NaN => false
  | NegInf, _ => true
  | _, PosInf => true
  | PosInf, _ => false
  | Number _, NegInf => false
  | Number x, Number y => Qle_bool x y
  end.

(** Invariant of the loop after the relationships [seen]. *)
Definition dedup_map_inv (seen : list Validated) (m : rel_map) : Prop :=
  NoDup (fst <$> m)
  ∧ (∀ k r, (k, r) ∈ m → rel_key r = k ∧ r ∈ seen)
  ∧ (∀ r, r ∈ seen →
       ∃ r', (rel_key r, r') ∈ m
             ∧ float_gt (v_confidence r) (v_confidence r') = false).

End RelationExtractor.

(** ** clients/vllm_client.py: model discovery and its cache *)

Module VLLMClient.

(** The model state of the client; times are seconds. *)
Record Client := mkClient {
  model_name : option pystr;
  last_check : option Q;
  is_available : bool;
  retry_interval : Q
}.

(** The client as [__init__] leaves it. *)
Definition init (retry : Q) : Client := mkClient None None false retry.

(** Truth value of [self.model_name]. *)
Definition truthy (name : option pystr) : bool :=
  match name with
  | Some (_ :: _) => true
  | _ => false
  end.

Definition should_check (current_time : Q) (c : Client) : bool :=
  match model_name c, last_check c with
  | None, _ | _, None => true
  | Some _, Some t =>
      KGExtractor.Qltb (retry_interval c) (current_time - t)
  end.

(** [ensure_model]: [get_model_name] is what the models endpoint would
    answer; the last component tells whether it was asked. *)
Definition ensure_model (current_time : Q) (get_model_name : option pystr)
    (c : Client) : bool * Client * bool :=
  if should_check current_time c then
    (truthy get_model_name,
     mkClient get_model_name (Some current_time) (truthy get_model_name)
              (retry_interval c),
     true)
  else (is_available c, c, false).

Definition reset_model_state (c : Client) : Client :=
  mkClient None None false (retry_interval c).

(** How the completion request ends. *)
Inductive response :=
| Completion (completion_text : pystr)
| HTTPError
| Failure (e : exn).

(** [complete]: the request is sent with the model name of the state. *)
Definition complete (current_time : Q) (get_model_name : option pystr)
    (post : option pystr → response) (c : Client) : result pystr * Client :=
  let '(available, c1, _) := ensure_model current_time get_model_name c in
  if available then
    match post (model_name c1) with
    | Completion completion_text => (Ok completion_text, c1)
    | HTTPError => (Raise ModelUnavailable, reset_model_state c1)
    | Failure e => (Raise e, reset_model_state c1)
    end
  else (Raise ModelUnavailable, c1).

(** The calls made on a client. *)
Inductive call :=
| EnsureModel (current_time : Q) (get_model_name : option pystr)
| Complete (current_time : Q) (get_model_name : option pystr)
           (post : option pystr → response)
| ResetModelState.

Definition step (c : Client) (op : call) : Client :=
  match op with
  | EnsureModel t answer => (ensure_model t answer c).1.2
  | Complete t answer post => (complete t answer post c).2
  | ResetModelState => reset_model_state c
  end.

Definition after (ops : list call) (retry : Q) : Client :=
  foldl step (init retry) ops.

(** What holds of the model state between calls. *)
Definition client_inv (c : Client) : Prop :=
  is_available c = truthy (model_name c)
  ∧ (last_check c = None → model_name c = None).

End VLLMClient.

(** ** storage/neo4j_client.py: repeated merges of one entity *)

Module Neo4jRuns.
Import Neo4jClient.

(** [create_entity] called once for each confidence of the list. *)
Definition merge_mentions (txt key : pystr) (ty : ChunkMapper.TypeHierarchy)
    (confidences : list Q) (g : Graph) : Graph :=
  foldl (λ g confidence, (create_entity txt key ty confidence g).2)
        g confidences.

(** The parts of the store and of a node that a merge on match leaves
    as they are. *)
Definition rest_of (g : Graph)
    : list DocumentNode * list ChunkNode * list Edge * nat * nat :=
  (documents g, chunks g, edges g, next_id g, length (entities g)).

Definition identity_of (e : EntityNode)
    : node_id * pystr * pystr * ChunkMapper.TypeHierarchy :=
  (entity_id e, normalized e, text e, etype e).

End Neo4jRuns.

(** ** pipeline/chunk_mapper.py: the mapping summary *)

Module MappingSummary.
Import ChunkMapper.

(** The summary dict, without the rounded average and the top-ten
    distribution, which are derived from the fields kept here. *)
Record Summary := mkSummary {
  total_chunks : nat;
  chunks_with_entities : nat;
  total_entity_appearances : nat;
  unique_entities : nat;
  multi_chunk_entities : nat;
  total_relationships : nat;
  cross_chunk_relationships : nat
}.

(** [chunk_entity_count[rowid] = chunk_entity_count.get(rowid, 0) + 1] *)
Definition count_appearance (m : gmap Z nat) (app : Appearance) : gmap Z nat :=
  <[app_vector_rowid app := S (default 0%nat (m !! app_vector_rowid app))]> m.

Definition chunk_entity_count (entities : list Entity) : gmap Z nat :=
  foldl (λ m e, foldl count_appearance m (get_chunk_appearances e))
        ∅ entities.

Definition sum_nat (l : list nat) : nat := foldr Nat.add 0%nat l.

Definition generate_mapping_summary (entities : list Entity)
    (relationships : list Relationship) (chunks : list ChunkBoundary)
    : Summary :=
  mkSummary
    (length chunks)
    (size (chunk_entity_count entities))
    (sum_nat ((λ e, length (get_chunk_appearances e)) <$> entities))
    (length entities)
    (length (filter (λ e, default false (spans_multiple_chunks e) = true)
                    entities))
    (length relationships)
    (length (filter (λ r, default false (spans_chunks r) = true)
                    relationships)).

End MappingSummary.

(** ** api/server.py: the health endpoint *)

Module Health.

(** How the check of a dependent service ends: the service is there,
    it is not, or the check raises with a message. *)
Inductive probe (A : Type) :=
| Up (a : A)
| Down
| Raised (message : pystr).
Arguments Up {A} a.
Arguments Down {A}.
Arguments Raised {A} message.

(** [f"error: {str(e)[:50]}"] *)
Definition error_status (message : pystr) : pystr :=
  py "error: " ++ prefix message 50.

Definition neo4j_status (p : probe unit) : pystr :=
  match p with
  | Up _ => py "connected"
  | Down => py "not_initialized"
  | Raised message => error_status message
  end.

(** The model name shown is [vllm_client.model_name or 'discovering']. *)
Definition vllm_status (p : probe (option pystr)) : pystr :=
  match p with
  | Up model_name =>
      py "connected ("
        ++ (if VLLMClient.truthy model_name
            then default [] model_name else py "discovering")
        ++ py ")"
  | Down => py "unhealthy"
  | Raised message => error_status message
  end.

Definition gliner_status (p : probe unit) : pystr :=
  match p with
  | Up _ => py "loaded"
  | Down => py "not_loaded"
  | Raised message => error_status message
  end.

(** [sub in s] *)
Definition contains (sub s : pystr) : bool :=
  bool_decide (find_sub sub s ≠ -1).

(** [status in ["connected", "loaded"] or status.startswith("connected (")] *)
Definition is_ok (status : pystr) : bool :=
  bool_decide (status ∈ [py "connected"; py "loaded"])
  || startswith (py "connected (") status.

Definition overall_status (statuses : list pystr) : pystr :=
  if forallb is_ok statuses then py "healthy"
  else if existsb (contains (py "error")) statuses then py "unhealthy"
  else py "degraded".

(** The ["status"] field of [health_check]. *)
Definition health_check (neo4j : probe unit) (vllm : probe (option pystr))
    (gliner : probe unit) : pystr :=
  overall_status [neo4j_status neo4j; vllm_status vllm; gliner_status gliner].

End Health.

(** ** pipeline/processor.py over the store: what a write keeps *)

Module StoreInv.
Import Neo4jClient.

(** [g'] holds the documents and chunks of [g], an entity node for
    each one of [g] (same id and normalized name) and every edge of
    [g] (same ends and type). *)
Definition extends (g g' : Graph) : Prop :=
  documents g' = documents g
  ∧ chunks g' = chunks g
  ∧ (∀ en, en ∈ entities g →
       ∃ en', en' ∈ entities g' ∧ entity_id en' = entity_id en
              ∧ normalized en' = normalized en)
  ∧ (∀ s ty d, has_edge g s ty d = true → has_edge g' s ty d = true).

(** [chunk_node_map] sends rowids to the ids of Chunk nodes of that
    rowid. *)
Definition chunk_map_ok (m : gmap Z node_id) (g : Graph) : Prop :=
  ∀ rowid id, m !! rowid = Some id →
    ∃ cn, cn ∈ chunks g ∧ chunk_id cn = id ∧ vector_rowid cn = rowid.

(** An entity of the given normalized name has a [MENTIONED_IN] edge to
    a chunk of the given rowid. *)
Definition mentioned (g : Graph) (key : pystr) (rowid : Z) : Prop :=
  ∃ en cn, en ∈ entities g ∧ normalized en = key
           ∧ cn ∈ chunks g ∧ vector_rowid cn = rowid
           ∧ has_edge g (entity_id en) MENTIONED_IN (chunk_id cn) = true.

End StoreInv.

(** ** api/server.py: the extraction status endpoint *)

Module Monitoring.
Import KGExtractor.

(** The ["status"] field of [get_extraction_status]. *)
Definition extraction_status (m : MetricsSnapshot) : pystr :=
  if bool_decide (active_extractions m < max_concurrent m)
  then py "healthy" else py "at_capacity".

End Monitoring.

(** ** pipeline/chunk_mapper.py: the rowids an entity appears in *)

Module MapperRows.
Import ChunkMapper.

(** [app["vector_rowid"] for app in entity.get("chunk_appearances", [])] *)
Definition rowids (e : Entity) : list Z :=
  app_vector_rowid <$> get_chunk_appearances e.

(** State of the closest-pair loop once a pair has been seen: a distance
    is recorded and the rowid is one of the two entities' rowids. *)
Definition closest_found (subject_entity object_entity : Entity)
    (st : option Z * option Z) : Prop :=
  ∃ d p, st = (Some d, Some p)
         ∧ (p ∈ rowids subject_entity ∨ p ∈ rowids object_entity).

End MapperRows.

(** ** Inputs for the extraction post-processing *)

Module Samples.
Import ChunkMapper KGExtractor.

(** A relationship as the model reports it, with surrounding blanks, a
    predicate in two words and a differently cased object. *)
Definition written_in : RawRelationship :=
  mkRawRel (Some (py " Neo4j ")) (Some (py "Written In"))
           (Some (py "python")) (Some (8 # 10)) None.

Definition known_entities : list Entity :=
  [Scenario.neo4j_entity; Scenario.python_entity].

(** Entities as the model reports them, without offsets: one in the
    document's spelling, one in another case, and one the document does
    not contain. *)
Definition reported_entities : list RawEntity :=
  [ mkRawEntity (Some (py " Pydantic ")) (Some (py "Library"))
                (Some (9 # 10)) None None;
    mkRawEntity (Some (py "FASTAPI")) (Some (py "Framework::Web"))
                (Some (8 # 10)) None None;
    mkRawEntity (Some (py "Django")) (Some (py "Framework"))
                (Some (8 # 10)) None None ].

(** A model that reports an entity of the document with a confidence
    above 1, and a server whose processor uses it. *)
Definition overconfident_llm : KGExtractor.Environment :=
  KGExtractor.mkEnv (Ok ()) (λ _, Ok (py "{}")) (λ t, t)
    (λ _, None) (λ s, s)
    (λ _, Ok ([mkRawEntity (Some (py "FastAPI")) (Some (py "Framework"))
                 (Some (3 # 2)) None None],
              []))
    (45 # 100).

Definition overconfident_server : Server.State :=
  Server.mkState
    (Some (Processor.mkSettings false,
           Processor.mkExtractors Scenario.silent_ner overconfident_llm
             (λ _ _, Ok [])))
    (Server.mkStats 0 0 0 0) Scenario.fresh_world.

(** The counters of the statistics. *)
Definition counters (s : Server.State) : Z * Z * Z * Z :=
  let st := Server.processing_stats s in
  (Server.total_processed st, Server.total_entities st,
   Server.total_relationships st, Server.failed_count st).

(** An entity at 2440..2470, across the overlap of the two chunks. *)
Definition straddling_entity : Entity :=
  entity_with_occurrences (py "Pydantic models for validation")
                          [mkOcc 2440 2470].

(** A processed relationship between the two known entities. *)
Definition neo4j_written_in_python : Relationship :=
  mkRel (py "Neo4j") (py "neo4j") (py "written_in") (py "Python")
        (py "python") (8 # 10) (py "Neo4j is driven from Python")
        None None None.

(** A validated relationship reported three times, with confidences
    0.6, 0.9 and 0.7, and another one in between. *)
Definition written_in_with (c : RelationExtractor.pyfloat)
    : RelationExtractor.Validated :=
  RelationExtractor.mkValidated (py "Neo4j") (py "neo4j")
    (py "written_in") (py "Python") (py "python") c
    (py "Neo4j is driven from Python").

Definition drives : RelationExtractor.Validated :=
  RelationExtractor.mkValidated (py "Python") (py "python") (py "drives")
    (py "Neo4j") (py "neo4j") (RelationExtractor.Number (5 # 10)) [].

Definition repeated_relationships : list RelationExtractor.Validated :=
  [ written_in_with (RelationExtractor.Number (6 # 10));
    drives;
    written_in_with (RelationExtractor.Number (9 # 10));
    written_in_with (RelationExtractor.Number (7 # 10)) ].

(** The same with a first confidence that is not a number. *)
Definition nan_first_relationships : list RelationExtractor.Validated :=
  [ written_in_with RelationExtractor.NaN;
    written_in_with (RelationExtractor.Number (9 # 10)) ].

(** A relationship array cut off inside its second object. *)
Definition truncated_array : pystr :=
  py "[{" ++ quoted "subject" ++ py ": " ++ quoted "Neo4j" ++ py "}, {"
    ++ quoted "subject" ++ py ": " ++ quoted "Pyth".

(** A client that found its model at second 100, with a retry interval
    of 30 seconds. *)
Definition discovered_client : VLLMClient.Client :=
  VLLMClient.mkClient (Some (py "qwen")) (Some 100%Q) true 30%Q.

(** The confidences of three mentions of one entity. *)
Definition three_mentions : list Q := [8 # 10; 1 # 2; 9 # 10].

(** The mapped entities of a two-chunk document: one entity across the
    overlap of the chunks, one inside the first chunk. *)
Definition summarised_entities : list Entity :=
  map_entities_to_chunks
    [straddling_entity; entity_with_occurrences (py "FastAPI is a web") [mkOcc 2 18]]
    Scenario.two_chunks.

Definition reported_text : pystr :=
  py "# FastAPI is a web framework. It uses Pydantic models for data.".

End Samples.

(** ** Loop invariants of the extraction post-processing *)

Module ExtractionInv.
Import ChunkMapper KGExtractor.

(** Invariant of the loop of [_process_entities]. *)
Definition entities_inv (env : Environment)
    (st : list Entity * gset pystr) : Prop :=
  NoDup (e_normalized <$> st.1)
  ∧ (∀ e, e ∈ st.1 → e_normalized e ∈ st.2)
  ∧ Forall (λ e, (min_confidence env <= e_confidence e)%Q
                 ∧ 0 ≤ e_start e ∧ e_start e ≤ e_end e
                 ∧ e_normalized e = strip (lower (e_text e))
                 ∧ occurrences e = [] ∧ chunk_appearances e = None) st.1.

End ExtractionInv.

(** ** Strings within the range where the case mappings are modelled *)

Module Ascii7.

Definition is_ascii (s : pystr) : Prop := Forall (λ c, (c < 128)%N) s.

Definition is_asciib (s : pystr) : bool := forallb (λ c, (c <? 128)%N) s.

End Ascii7.


(** ** extractors/entity_extractor.py: the segmentation loop *)

Module Segmentation.
Import EntityExtractor.

(** A segment's range reads the segment's text in [norm]. *)
Definition placed (norm : pystr) (seg : Segment) : Prop :=
  0 ≤ seg_char_start seg
  ∧ seg_char_end seg = seg_char_start seg + len (seg_text seg)
  ∧ seg_char_end seg ≤ len norm
  ∧ slice norm (seg_char_start seg) (seg_char_end seg) = seg_text seg.

(** Loop invariant of [_chunk_text_for_gliner] after the words [ws]:
    the closed segments, joined by single blanks, and the open one make
    up the words joined by single blanks; [char_position] is where the
    open segment starts in that string. *)
Definition seg_inv (ws : list pystr) (st : seg_state) : Prop :=
  let closed := join space (seg_text <$> chunks st) in
  (current_chunk st = [] ↔ ws = [])
  ∧ Forall (placed closed) (chunks st)
  ∧ match chunks st with
    | [] => char_position st = 0
            ∧ join space ws = join space (current_chunk st)
    | _ => char_position st = len closed + 1
           ∧ join space ws = closed ++ space ++ join space (current_chunk st)
    end.

End Segmentation.

(** ** extractors/entity_extractor.py: the mention key *)

Module Mentions.
Import ChunkMapper EntityExtractor.

(** [mention_key] of an emitted entity: lower-cased text, start, end. *)
Definition mention_key (e : Entity) : pystr * Z * Z :=
  (lower (e_text e), e_start e, e_end e).

(** Invariant of the loop over the predictions. *)
Definition mentions_inv (st : list Entity * gset (pystr * Z * Z)) : Prop :=
  NoDup (mention_key <$> st.1)
  ∧ (∀ e, e ∈ st.1 → mention_key e ∈ st.2)
  ∧ Forall (λ e, e_normalized e = strip (lower (e_text e))
                 ∧ occurrences e = [] ∧ start_pos e = None
                 ∧ end_pos e = None ∧ chunk_appearances e = None) st.1.

End Mentions.
(** * Properties *)

(** ** Chunk mapper *)

Section ChunkMapperProps.
Import ChunkMapper.

Lemma visit_chunk_seen occ st c k :
  k ∈ (visit_chunk occ st c).2 ↔ k ∈ st.2 ∨ (k = chunk_key c ∧ hits occ c).
Proof.
  unfold visit_chunk, hits.
  repeat case_bool_decide; cbn [fst snd];
    rewrite ?elem_of_union, ?elem_of_singleton;
    intuition (try congruence).
Qed.

Lemma visit_chunk_inv occ st c : mapper_inv st → mapper_inv (visit_chunk occ st c).
Proof.
  intros [Hnd Hseen]. unfold visit_chunk.
  repeat case_bool_decide; try (split; assumption).
  unfold mapper_inv. cbn [fst snd]. rewrite fmap_app. split.
  - apply NoDup_app. split; [assumption|].
    split; [|apply NoDup_singleton].
    intros k Hk Hk'. apply list_elem_of_singleton in Hk'. subst k.
    apply Hseen in Hk. contradiction.
  - intros k. rewrite elem_of_app, elem_of_union, elem_of_singleton, Hseen.
    change (app_key <$> [make_appearance occ c]) with [chunk_key c].
    rewrite list_elem_of_singleton. tauto.
Qed.

Lemma visit_chunk_origin occ st c a :
  a ∈ (visit_chunk occ st c).1 →
  a ∈ st.1 ∨ (hits occ c ∧ a = make_appearance occ c).
Proof.
  unfold visit_chunk, hits.
  repeat case_bool_decide; simpl; auto.
  rewrite elem_of_app, list_elem_of_singleton. intros [?|?]; auto.
Qed.

Lemma visit_occurrence_seen chunks occ : ∀ st k,
  k ∈ (visit_occurrence chunks st occ).2 ↔
  k ∈ st.2 ∨ ∃ c, c ∈ chunks ∧ chunk_key c = k ∧ hits occ c.
Proof.
  unfold visit_occurrence.
  induction chunks as [|c chunks IH]; intros st k; simpl.
  - split; [auto|]. intros [?|(c & Hc & _)]; [assumption|].
    by apply elem_of_nil in Hc.
  - rewrite IH, visit_chunk_seen. split.
    + intros [[?|[-> ?]]|(c' & ? & ? & ?)]; [by left|right..].
      * exists c. split; [apply list_elem_of_here|done].
      * exists c'. split; [by apply list_elem_of_further|done].
    + intros [?|(c' & Hc' & ? & ?)]; [by left; left|].
      apply elem_of_cons in Hc' as [->|?].
      * left; right. done.
      * right. by exists c'.
Qed.

Lemma visit_occurrence_inv chunks occ : ∀ st,
  mapper_inv st → mapper_inv (visit_occurrence chunks st occ).
Proof.
  unfold visit_occurrence.
  induction chunks as [|c chunks IH]; intros st Hst; simpl; [assumption|].
  apply IH. by apply visit_chunk_inv.
Qed.

Lemma visit_occurrence_origin chunks occ : ∀ st a,
  a ∈ (visit_occurrence chunks st occ).1 →
  a ∈ st.1 ∨ ∃ c, c ∈ chunks ∧ hits occ c ∧ a = make_appearance occ c.
Proof.
  unfold visit_occurrence.
  induction chunks as [|c chunks IH]; intros st a; simpl; [auto|].
  intros [H|(c' & ? & ? & ?)]%IH.
  - apply visit_chunk_origin in H as [?|[? ?]]; [by left|right].
    exists c. split; [apply list_elem_of_here|done].
  - right. exists c'. split; [by apply list_elem_of_further|done].
Qed.

Lemma fold_occurrences_seen chunks occs : ∀ st k,
  k ∈ (foldl (visit_occurrence chunks) st occs).2 ↔
  k ∈ st.2 ∨ ∃ occ c, occ ∈ occs ∧ c ∈ chunks ∧ chunk_key c = k ∧ hits occ c.
Proof.
  induction occs as [|o occs IH]; intros st k; simpl.
  - split; [auto|]. intros [?|(o & c & Ho & _)]; [assumption|].
    by apply elem_of_nil in Ho.
  - rewrite IH, visit_occurrence_seen. split.
    + intros [[?|(c & ? & ? & ?)]|(o' & c & ? & ? & ? & ?)]; [by left|right..].
      * exists o, c. split; [apply list_elem_of_here|done].
      * exists o', c. split; [by apply list_elem_of_further|done].
    + intros [?|(o' & c & Ho' & ? & ? & ?)]; [by left; left|].
      apply elem_of_cons in Ho' as [->|?].
      * left; right. by exists c.
      * right. by exists o', c.
Qed.

Lemma fold_occurrences_inv chunks occs : ∀ st,
  mapper_inv st → mapper_inv (foldl (visit_occurrence chunks) st occs).
Proof.
  induction occs as [|o occs IH]; intros st Hst; simpl; [assumption|].
  apply IH. by apply visit_occurrence_inv.
Qed.

Lemma fold_occurrences_origin chunks occs : ∀ st a,
  a ∈ (foldl (visit_occurrence chunks) st occs).1 →
  a ∈ st.1 ∨
  ∃ occ c, occ ∈ occs ∧ c ∈ chunks ∧ hits occ c ∧ a = make_appearance occ c.
Proof.
  induction occs as [|o occs IH]; intros st a; simpl; [auto|].
  intros [H|(o' & c & ? & ? & ? & ?)]%IH.
  - apply visit_occurrence_origin in H as [?|(c & ? & ? & ?)]; [by left|right].
    exists o, c. split; [apply list_elem_of_here|done].
  - right. exists o', c. split; [by apply list_elem_of_further|done].
Qed.

Lemma mapper_inv_init : mapper_inv ([], ∅).
Proof. split; simpl; [apply NoDup_nil_2|]. intros k. set_solver. Qed.

(** The appearance list built for one entity: a chunk key carries an
    appearance exactly when some occurrence overlaps a chunk of that key
    by at least 10 characters, and no key carries two. *)
Lemma appearances_of_threshold :
  ∀ (e : Entity) (chunks : list ChunkBoundary),
    (∀ k : Z * Z,
       k ∈ app_key <$> appearances_of chunks e ↔
       ∃ occ c, occ ∈ entity_occurrences e ∧ c ∈ chunks ∧ chunk_key c = k ∧
         10 ≤ Z.max 0 (Z.min (occ_end occ) (char_end c)
                       - Z.max (occ_start occ) (char_start c)))
    ∧ NoDup (app_key <$> appearances_of chunks e)
    ∧ (∀ s e' c, Z.min e' (char_end c) - Z.max s (char_start c) = 9 →
         appearances_of [c] (entity_with_occurrences [] [mkOcc s e']) = [])
    ∧ (∀ s e' c, Z.min e' (char_end c) - Z.max s (char_start c) = 10 →
         appearances_of [c] (entity_with_occurrences [] [mkOcc s e'])
         = [make_appearance (mkOcc s e') c]).
Proof.
  intros e chunks. unfold appearances_of.
  pose proof (fold_occurrences_inv chunks (entity_occurrences e) _
                mapper_inv_init) as [Hnd Hseen].
  split; [|split; [assumption|split]].
  - intros k. rewrite <- Hseen, fold_occurrences_seen. simpl.
    split.
    + intros [Hk|H]; [set_solver|exact H].
    + intros H. right. exact H.
  - intros s e' c H. simpl. unfold visit_chunk, _calculate_overlap, overlap_threshold.
    simpl. rewrite H. reflexivity.
  - intros s e' c H. simpl. unfold visit_chunk, _calculate_overlap, overlap_threshold.
    simpl. rewrite H. reflexivity.
Qed.


Lemma map_entities_lookup entities chunks i e :
  chunks ≠ [] → entities !! i = Some e →
  map_entities_to_chunks entities chunks !! i = Some (enrich chunks e).
Proof.
  intros Hne Hi. destruct chunks as [|c0 chunks0]; [done|].
  unfold map_entities_to_chunks. by rewrite list_lookup_fmap, Hi.
Qed.

(** C3: for every entity list and every non-empty chunk list,
    [map_entities_to_chunks] returns one entity for each given entity,
    in order, the same in the extractor's fields, whose
    [chunk_appearances] holds an appearance for a chunk key
    (vector_rowid, chunk_index) exactly when some occurrence of the
    entity overlaps a chunk of that key by at least 10 characters, the
    overlap being max(0, min(end, char_end) - max(start, char_start));
    no key carries two appearances, and [spans_multiple_chunks] tells
    whether there is more than one.  In particular an overlap of
    exactly 9 records no appearance and an overlap of exactly 10
    records one. *)
Theorem map_entities_overlap_threshold :
  ∀ (entities : list Entity) (chunks : list ChunkBoundary),
    chunks ≠ [] →
    length (map_entities_to_chunks entities chunks) = length entities
    ∧ (∀ i e, entities !! i = Some e →
         ∃ e' apps,
           map_entities_to_chunks entities chunks !! i = Some e'
           ∧ (e_text e', e_normalized e', e_start e', e_end e',
              e_confidence e', occurrences e', start_pos e', end_pos e')
             = (e_text e, e_normalized e, e_start e, e_end e,
                e_confidence e, occurrences e, start_pos e, end_pos e)
           ∧ chunk_appearances e' = Some apps
           ∧ spans_multiple_chunks e'
             = Some (bool_decide (1 < length apps)%nat)
           ∧ NoDup (app_key <$> apps)
           ∧ ∀ k : Z * Z,
               k ∈ app_key <$> apps ↔
               ∃ occ c, occ ∈ entity_occurrences e ∧ c ∈ chunks
                        ∧ chunk_key c = k
                        ∧ 10 ≤ Z.max 0 (Z.min (occ_end occ) (char_end c)
                                        - Z.max (occ_start occ)
                                                (char_start c)))
    ∧ (∀ txt s e' c,
         Z.min e' (char_end c) - Z.max s (char_start c) = 9 →
         get_chunk_appearances
           <$> map_entities_to_chunks
                 [entity_with_occurrences txt [mkOcc s e']] [c]
         = [[]])
    ∧ (∀ txt s e' c,
         Z.min e' (char_end c) - Z.max s (char_start c) = 10 →
         get_chunk_appearances
           <$> map_entities_to_chunks
                 [entity_with_occurrences txt [mkOcc s e']] [c]
         = [[make_appearance (mkOcc s e') c]]).
Proof.
  intros entities chunks Hne.
  split; [|split; [|split]].
  - destruct chunks as [|c0 chunks0]; [done|].
    unfold map_entities_to_chunks. by rewrite length_fmap.
  - intros i e Hi.
    destruct (appearances_of_threshold e chunks) as (Hiff & Hnd & _).
    exists (enrich chunks e), (appearances_of chunks e).
    split; [by apply map_entities_lookup|].
    split; [done|]. split; [done|]. split; [done|].
    split; [exact Hnd|exact Hiff].
  - intros txt s e' c H9.
    destruct (appearances_of_threshold (entity_with_occurrences txt [])
                [c]) as (_ & _ & Hnine & _).
    cbn [map_entities_to_chunks fmap list_fmap].
    unfold get_chunk_appearances, enrich. cbn [chunk_appearances default].
    f_equal. unfold appearances_of. cbn. unfold visit_chunk,
      _calculate_overlap, overlap_threshold. cbn. by rewrite H9.
  - intros txt s e' c H10.
    cbn [map_entities_to_chunks fmap list_fmap].
    unfold get_chunk_appearances, enrich. cbn [chunk_appearances default].
    f_equal. unfold appearances_of. cbn. unfold visit_chunk,
      _calculate_overlap, overlap_threshold. cbn. by rewrite H10.
Qed.

Lemma map_entities_overlap_threshold_witness :
  get_chunk_appearances
    <$> map_entities_to_chunks [Scenario.covered_entity]
          Scenario.covering_chunks
  = [[mkApp 45001 0 0 12]]
  ∧ ∃ e' apps,
      map_entities_to_chunks [Scenario.covered_entity]
        Scenario.covering_chunks !! 0%nat = Some e'
      ∧ chunk_appearances e' = Some apps
      ∧ NoDup (app_key <$> apps)
      ∧ ((45001, 0) ∈ app_key <$> apps ↔
         ∃ occ c, occ ∈ entity_occurrences Scenario.covered_entity
                  ∧ c ∈ Scenario.covering_chunks
                  ∧ chunk_key c = (45001, 0)
                  ∧ 10 ≤ Z.max 0 (Z.min (occ_end occ) (char_end c)
                                  - Z.max (occ_start occ) (char_start c))).
Proof.
  split; [vm_compute; reflexivity|].
  destruct (map_entities_overlap_threshold [Scenario.covered_entity]
              Scenario.covering_chunks ltac:(discriminate))
    as (_ & Hmap & _).
  destruct (Hmap 0%nat Scenario.covered_entity eq_refl)
    as (e' & apps & Hlook & _ & Happs & _ & Hnd & Hiff).
  exists e', apps. split; [exact Hlook|]. split; [exact Happs|].
  split; [exact Hnd|apply Hiff].
Defined.

End ChunkMapperProps.

Section ChunkMapperOffsets.
Import ChunkMapper Scenario.

Lemma appearances_origin chunks e a :
  a ∈ appearances_of chunks e →
  ∃ occ c, occ ∈ entity_occurrences e ∧ c ∈ chunks ∧ hits occ c
           ∧ a = make_appearance occ c.
Proof.
  unfold appearances_of.
  intros [H|H]%fold_occurrences_origin; [|exact H].
  by apply elem_of_nil in H.
Qed.

Lemma mapped_appearances entities chunks e a :
  chunks ≠ [] →
  e ∈ map_entities_to_chunks entities chunks →
  a ∈ get_chunk_appearances e →
  ∃ e0, e0 ∈ entities ∧ a ∈ appearances_of chunks e0.
Proof.
  intros Hne He Ha. destruct chunks as [|c0 chunks]; [done|].
  unfold map_entities_to_chunks in He.
  apply list_elem_of_fmap in He as (e0 & -> & He0).
  exists e0. split; [assumption|]. exact Ha.
Qed.

(** C4 (as stated) fails: a chunk list that passes the request validation
    and an entity occurrence at 100..121 give an appearance with
    offset_start = 100 and offset_end = 10. *)
Lemma appearance_offsets_counterexample :
  validate_chunks short_text_chunks = true ∧
  ∃ e a c,
    e ∈ map_entities_to_chunks [positioned_entity] short_text_chunks ∧
    a ∈ get_chunk_appearances e ∧
    c ∈ short_text_chunks ∧ chunk_key c = app_key a ∧
    offset_start a = 100 ∧ offset_end a = 10 ∧
    ¬ (0 ≤ offset_start a ∧ offset_start a < offset_end a
       ∧ offset_end a ≤ len (text c)).
Proof.
  split; [vm_compute; reflexivity|].
  exists (enrich short_text_chunks positioned_entity),
         (mkApp 45001 0 100 10),
         (mkChunk 45001 0 0 2500 (py "# FastAPI ")).
  split; [apply list_elem_of_here|].
  split.
  { replace (get_chunk_appearances (enrich short_text_chunks positioned_entity))
      with [mkApp 45001 0 100 10] by (vm_compute; reflexivity).
    apply list_elem_of_here. }
  split; [apply list_elem_of_here|].
  split; [reflexivity|]. split; [reflexivity|]. split; [reflexivity|].
  simpl. lia.
Qed.

(** C4 (amended): for every entity list and every non-empty chunk list,
    each appearance produced by the mapper belongs to a chunk of the
    list, with 0 <= offset_start and offset_end <= len(chunk.text); and
    offset_start < offset_end whenever that chunk's text is at least
    char_end - char_start characters long. *)
Theorem appearance_offsets_in_chunk :
  ∀ (entities : list Entity) (chunks : list ChunkBoundary) e a,
    chunks ≠ [] →
    e ∈ map_entities_to_chunks entities chunks →
    a ∈ get_chunk_appearances e →
    ∃ c, c ∈ chunks ∧ chunk_key c = app_key a ∧
         0 ≤ offset_start a ∧ offset_end a ≤ len (text c) ∧
         (char_end c - char_start c ≤ len (text c) →
          offset_start a < offset_end a).
Proof.
  intros entities chunks e a Hne He Ha.
  destruct (mapped_appearances _ _ _ _ Hne He Ha) as (e0 & _ & Ha0).
  apply appearances_origin in Ha0 as (occ & c & _ & Hc & Hhit & ->).
  exists c. split; [assumption|]. split; [reflexivity|].
  unfold hits, overlap_threshold, _calculate_overlap in Hhit.
  unfold make_appearance; cbn [offset_start offset_end].
  lia.
Qed.

Lemma appearance_offsets_in_chunk_witness :
  ∃ c, c ∈ covering_chunks ∧ chunk_key c = app_key (mkApp 45001 0 0 12) ∧
       0 ≤ offset_start (mkApp 45001 0 0 12) ∧
       offset_end (mkApp 45001 0 0 12) ≤ len (text c) ∧
       (char_end c - char_start c ≤ len (text c) →
        offset_start (mkApp 45001 0 0 12) < offset_end (mkApp 45001 0 0 12)).
Proof.
  apply (appearance_offsets_in_chunk [covered_entity] covering_chunks
           (enrich covering_chunks covered_entity)).
  - discriminate.
  - apply list_elem_of_here.
  - replace (get_chunk_appearances (enrich covering_chunks covered_entity))
      with [mkApp 45001 0 0 12] by (vm_compute; reflexivity).
    apply list_elem_of_here.
Defined.

(** On the extraction path the entities carry neither ["occurrences"]
    nor ["start_pos"]/["end_pos"], so the mapper places them at
    0..len(text); with a validated chunk list the offsets are then
    ordered. *)
Lemma unpositioned_offsets chunks e a :
  validate_chunks chunks = true →
  occurrences e = [] → start_pos e = None → end_pos e = None →
  a ∈ appearances_of chunks e →
  offset_start a = 0 ∧ 0 < offset_end a.
Proof.
  intros Hv Ho Hs He Ha.
  apply appearances_origin in Ha as (occ & c & Hocc & Hc & Hhit & ->).
  unfold entity_occurrences in Hocc. rewrite Ho, Hs, He in Hocc.
  apply list_elem_of_singleton in Hocc. subst occ.
  unfold validate_chunks in Hv.
  rewrite !andb_true_iff in Hv. destruct Hv as [[[Hall _] _] _].
  rewrite forallb_forall in Hall. apply list_elem_of_In in Hc.
  specialize (Hall _ Hc). unfold chunk_metadata_ok in Hall.
  rewrite !andb_true_iff, !bool_decide_eq_true in Hall.
  destruct Hall as [[[[[[_ _] Hstart] _] Htext] _] _].
  unfold hits, overlap_threshold, _calculate_overlap in Hhit.
  unfold make_appearance;
    cbn [offset_start offset_end occ_start occ_end default] in *.
  clear - Hstart Htext Hhit. lia.
Qed.

End ChunkMapperOffsets.

(** ** Graph store adapter *)

Section Neo4jProps.
Import Neo4jClient Scenario.

Lemma find_is_Some {A} (p : A → bool) (l : list A) x :
  x ∈ l → p x = true → ∃ y, List.find p l = Some y.
Proof.
  intros Hx Hp. destruct (List.find p l) eqn:E; [eauto|].
  apply list_elem_of_In in Hx.
  pose proof (find_none _ _ E _ Hx). congruence.
Qed.

Lemma update_where_elem {A} (p : A → bool) (f : A → A) l x :
  x ∈ l → p x = true → f x ∈ update_where p f l.
Proof.
  intros Hx Hp. unfold update_where.
  apply list_elem_of_fmap. exists x. by rewrite Hp.
Qed.

Lemma has_edge_of_elem g s ty d e :
  e ∈ edges g → is_edge s ty d e = true → has_edge g s ty d = true.
Proof.
  intros He Hp. unfold has_edge. apply existsb_exists.
  exists e. split; [by apply list_elem_of_In|assumption].
Qed.

(** C2: merging an entity whose [normalized] key is already stored
    turns its [mention_count] n into n+1 and its [avg_confidence] into
    (old_avg * n + confidence) / (n+1); merging a relationship whose
    (subject, predicate, object) edge is already stored turns its
    [occurrence_count] n into n+1 and its [confidence] into
    (old_confidence * n + confidence) / (n+1). *)
Theorem running_average_on_merge :
  (∀ g txt key ty (confidence : Q) (e : EntityNode),
     e ∈ entities g → normalized e = key →
     ∃ e', e' ∈ entities (create_entity txt key ty confidence g).2 ∧
           entity_id e' = entity_id e ∧ normalized e' = key ∧
           mention_count e' = mention_count e + 1 ∧
           avg_confidence e' =
             ((avg_confidence e * inject_Z (mention_count e) + confidence)
              / inject_Z (mention_count e + 1))%Q)
  ∧
  (∀ g subject predicate object (confidence : Q) context s o ed c0 ctx0 n,
     find_entity g subject = Some s → find_entity g object = Some o →
     ed ∈ edges g →
     src ed = entity_id s → dst ed = entity_id o →
     rel_type ed = relationship_type predicate →
     props ed = RelProps c0 ctx0 n →
     mkEdge (entity_id s) (relationship_type predicate) (entity_id o)
       (RelProps ((c0 * inject_Z n + confidence) / inject_Z (n + 1))%Q
                 ctx0 (n + 1))
     ∈ edges (create_relationship subject predicate object confidence
                context g).2).
Proof.
  split.
  - intros g txt key ty confidence e He Hkey.
    assert (Hp : bool_decide (normalized e = key) = true)
      by by apply bool_decide_eq_true.
    destruct (find_is_Some (λ e, bool_decide (normalized e = key)) _ _ He Hp)
      as [e0 Hfind].
    unfold create_entity, find_entity. rewrite Hfind. cbn [snd entities].
    exists (entity_on_match confidence e). split.
    + by apply (update_where_elem (λ e, bool_decide (normalized e = key))).
    + unfold entity_on_match.
      cbn [entity_id normalized mention_count avg_confidence].
      rewrite Z.add_simpl_r. auto.
  - intros g subject predicate object confidence context s o ed c0 ctx0 n
           Hs Ho Hed Hsrc Hdst Hty Hprops.
    assert (Hp : is_edge (entity_id s) (relationship_type predicate)
                   (entity_id o) ed = true).
    { unfold is_edge. rewrite !andb_true_iff, !bool_decide_eq_true. auto. }
    unfold create_relationship. rewrite Hs, Ho.
    rewrite (has_edge_of_elem _ _ _ _ _ Hed Hp). cbn [snd edges].
    replace (mkEdge _ _ _ _) with (rel_on_match confidence ed).
    + by apply update_where_elem.
    + unfold rel_on_match. rewrite Hprops, Hsrc, Hdst, Hty. reflexivity.
Qed.

Lemma running_average_on_merge_witness :
  (∃ e', e' ∈ entities (create_entity (py "FastAPI") (py "fastapi")
                          framework_type (1 # 2) small_graph).2 ∧
         entity_id e' = 0%nat ∧ normalized e' = py "fastapi" ∧
         mention_count e' = 3 + 1 ∧
         avg_confidence e' = (((8 # 10) * inject_Z 3 + (1 # 2))
                              / inject_Z (3 + 1))%Q)
  ∧ mkEdge 0%nat (relationship_type (py "uses")) 1%nat
      (RelProps (((7 # 10) * inject_Z 2 + (1 # 2)) / inject_Z (2 + 1))%Q
                (py "FastAPI uses Pydantic") (2 + 1))
    ∈ edges (create_relationship (py "fastapi") (py "uses") (py "pydantic")
               (1 # 2) (py "again") small_graph).2.
Proof.
  destruct running_average_on_merge as [Hent Hrel]. split.
  - apply (Hent small_graph (py "FastAPI") (py "fastapi") framework_type
                (1 # 2)
                (mkEntityNode 0%nat (py "fastapi") (py "FastAPI")
                   framework_type 3 (8 # 10))).
    + apply list_elem_of_here.
    + reflexivity.
  - apply (Hrel small_graph (py "fastapi") (py "uses") (py "pydantic")
                (1 # 2) (py "again")
                (mkEntityNode 0%nat (py "fastapi") (py "FastAPI")
                   framework_type 3 (8 # 10))
                (mkEntityNode 1%nat (py "pydantic") (py "Pydantic")
                   framework_type 1 (9 # 10))
                (mkEdge 0%nat (py "USES") 1%nat
                   (RelProps (7 # 10) (py "FastAPI uses Pydantic") 2))).
    + vm_compute; reflexivity.
    + vm_compute; reflexivity.
    + apply list_elem_of_here.
    + reflexivity.
    + reflexivity.
    + vm_compute; reflexivity.
    + reflexivity.
Defined.

End Neo4jProps.

(** ** JSON truncation healer *)

Section HealerProps.
Import JsonHealer Scenario.

Lemma count_cons c x s :
  count c (x :: s) = ((if bool_decide (x = c) then 1 else 0) + count c s)%nat.
Proof.
  unfold count. rewrite filter_cons.
  case_bool_decide; destruct (decide (x = c)); simpl; congruence.
Qed.

Lemma count_app c a b : count c (a ++ b) = (count c a + count c b)%nat.
Proof. unfold count. by rewrite filter_app, length_app. Qed.

Lemma count_times c s n : count c (times s n) = (n * count c s)%nat.
Proof.
  induction n as [|n IH]; simpl; [reflexivity|].
  by rewrite count_app, IH.
Qed.

Lemma count_rstrip c s : isspace c = false → count c (rstrip s) = count c s.
Proof.
  intros Hc. induction s as [|x s IH]; [reflexivity|].
  simpl. rewrite count_cons. destruct (rstrip s) as [|y r] eqn:E.
  - rewrite <- IH. change (count c []) with 0%nat.
    destruct (isspace x) eqn:Hx.
    + case_bool_decide; [congruence|reflexivity].
    + by rewrite count_cons.
  - by rewrite count_cons, IH.
Qed.

Lemma balancedb_spec s : balancedb s = true ↔ balanced s.
Proof.
  unfold balancedb, balanced.
  by rewrite andb_true_iff, !bool_decide_eq_true.
Qed.

Lemma balanced_rstrip s : balanced (rstrip s) ↔ balanced s.
Proof. unfold balanced. by rewrite !count_rstrip. Qed.

Lemma balanced_empty_document : balanced empty_document.
Proof. split; vm_compute; reflexivity. Qed.

(** What the backward scan returns. *)
Lemma scan_back_spec response start_idx : ∀ n,
  (n ≤ length response)%nat →
  let r := scan_back response start_idx n in
  r = -1 ∨
  ∃ i c, r = Z.of_nat i ∧ start_idx < r ∧ (i < n)%nat ∧
         response !! i = Some c ∧ is_closer c = true ∧
         ∀ j c', (i < j < n)%nat → response !! j = Some c' →
                 is_closer c' = false.
Proof.
  induction n as [|n IH]; intros Hn; simpl; [by left|].
  case_bool_decide as Hlt; [|by left].
  destruct (response !! n) as [c|] eqn:Hc.
  - destruct (is_closer c) eqn:Hcl.
    + right. exists n, c. repeat split; try done; try lia.
    + destruct IH as [IH|(i & c0 & Hr & ? & ? & ? & ? & Hafter)];
        [lia|by left|right].
      exists i, c0. rewrite Hr. repeat split; try done; try lia.
      intros j c' Hj Hj'. destruct (decide (j = n)) as [->|].
      * congruence.
      * apply (Hafter j c'); [lia|done].
  - apply lookup_ge_None in Hc. lia.
Qed.

Lemma slice_prefix (s : pystr) (i : nat) :
  slice s 0 (Z.of_nat i + 1) = take (S i) s.
Proof.
  unfold slice. simpl. rewrite drop_0. f_equal. lia.
Qed.

(** Brace and bracket counts after the closers are appended. *)
Lemma count_closed c p k m :
  count c (p ++ times closing_bracket k ++ times closing_brace m) =
  (count c p + k * count c closing_bracket + m * count c closing_brace)%nat.
Proof. rewrite !count_app, !count_times. lia. Qed.

(** C6 (as stated) fails on the nesting order: for a response cut off
    inside an array nested in an object of the entity array, the healer
    appends one bracket and then two braces; the result has balanced
    counts but closes an object with a bracket, while closing in the
    order brace, bracket, brace would nest. *)
Lemma heal_nesting_counterexample :
  _heal_truncated_json truncated_response =
    truncated_response ++ closing_bracket ++ closing_brace ++ closing_brace
  ∧ balanced (_heal_truncated_json truncated_response)
  ∧ well_nested (_heal_truncated_json truncated_response) = false
  ∧ well_nested (truncated_response ++ closing_brace ++ closing_bracket
                   ++ closing_brace) = true.
Proof.
  split; [vm_compute; reflexivity|].
  split; [split; vm_compute; reflexivity|].
  split; vm_compute; reflexivity.
Qed.

Lemma scan_back_none response start_idx : ∀ n,
  (∀ (j : nat) c, start_idx < Z.of_nat j → response !! j = Some c →
                  is_closer c = false) →
  scan_back response start_idx n = -1.
Proof.
  intros n Hnone. induction n as [|n IH]; [reflexivity|].
  cbn [scan_back]. case_bool_decide as Hlt; [|reflexivity].
  destruct (response !! n) as [c|] eqn:Hc; [|exact IH].
  by rewrite (Hnone n c Hlt Hc).
Qed.

Lemma scan_back_last response start_idx (i : nat) c :
  start_idx < Z.of_nat i →
  response !! i = Some c → is_closer c = true →
  (∀ (j : nat) c', (i < j)%nat → response !! j = Some c' →
                   is_closer c' = false) →
  ∀ n, (i < n)%nat → scan_back response start_idx n = Z.of_nat i.
Proof.
  intros Hlt Hc Hcl Hafter n. induction n as [|n IH]; intros Hn; [lia|].
  cbn [scan_back]. rewrite bool_decide_eq_true_2 by lia.
  destruct (decide (n = i)) as [->|Hne].
  - by rewrite Hc, Hcl.
  - destruct (response !! n) as [c'|] eqn:Hc'.
    + rewrite (Hafter n c') by (done || lia). apply IH. lia.
    + apply IH. lia.
Qed.

Lemma find_from_none_count c (s : pystr) : ∀ k,
  0 ≤ k → find_from c k s = -1 → count c s = 0%nat.
Proof.
  induction s as [|x s IH]; intros k Hk Hfind; [reflexivity|].
  cbn [find_from] in Hfind. rewrite count_cons.
  case_bool_decide; [lia|]. apply (IH (k + 1)); [lia|done].
Qed.

Lemma endswith_count c (s : pystr) :
  endswith c s = true → (1 ≤ count c s)%nat.
Proof.
  unfold endswith. intros H%bool_decide_eq_true.
  apply last_Some in H as [s' ->].
  rewrite count_app, count_cons, bool_decide_eq_true_2 by done. lia.
Qed.

(** A response that ends with a closing brace and has balanced counts
    holds an opening brace. *)
Lemma closed_has_brace response :
  endswith rbrace (rstrip response) = true → balanced response →
  find lbrace response ≠ -1.
Proof.
  intros Hend [Hbr _] Hfind.
  apply endswith_count in Hend. rewrite count_rstrip in Hend by done.
  apply find_from_none_count in Hfind; [|done]. lia.
Qed.

(** The text the healer builds from the cut response: all missing
    brackets, then all missing braces. *)
Lemma heal_appended (p : pystr) :
  let k := (count lbracket p - count rbracket p)%nat in
  let m := (count lbrace p - count rbrace p)%nat in
  (if bool_decide (count rbrace p < count lbrace p)%nat
   then (if bool_decide (count rbracket p < count lbracket p)%nat
         then p ++ times closing_bracket k else p) ++ times closing_brace m
   else (if bool_decide (count rbracket p < count lbracket p)%nat
         then p ++ times closing_bracket k else p))
  = p ++ times closing_bracket k ++ times closing_brace m.
Proof.
  intros k m. subst k m. repeat case_bool_decide.
  - by rewrite <- app_assoc.
  - replace (count lbracket p - count rbracket p)%nat with 0%nat by lia.
    reflexivity.
  - replace (count lbrace p - count rbrace p)%nat with 0%nat by lia.
    simpl. by rewrite app_nil_r.
  - replace (count lbracket p - count rbracket p)%nat with 0%nat by lia.
    replace (count lbrace p - count rbrace p)%nat with 0%nat by lia.
    simpl. by rewrite app_nil_r.
Qed.

Lemma balanced_closed (p : pystr) k m :
  balanced (p ++ times closing_bracket k ++ times closing_brace m)
  ↔ (count lbrace p = count rbrace p + m
     ∧ count lbracket p = count rbracket p + k)%nat.
Proof.
  unfold balanced. rewrite !count_closed.
  change (count lbrace closing_bracket) with 0%nat.
  change (count lbrace closing_brace) with 0%nat.
  change (count rbrace closing_bracket) with 0%nat.
  change (count rbrace closing_brace) with 1%nat.
  change (count lbracket closing_bracket) with 0%nat.
  change (count lbracket closing_brace) with 0%nat.
  change (count rbracket closing_bracket) with 1%nat.
  change (count rbracket closing_brace) with 0%nat.
  lia.
Qed.

(** C6 (amended): the healer's output, case by case, for every input.
    Its counts always balance.  (1) An input without an opening brace
    gives the empty document.  (2) An input that, without trailing white
    space, ends with a closing brace and has balanced counts is returned
    unchanged.  Otherwise, with [start_idx] the first opening brace:
    (3) when no closing brace or bracket lies above [start_idx], the
    empty document; (4) when [i] is the last closing brace or bracket
    and lies above [start_idx], the input cut after [i], followed by
    exactly the missing closing brackets and then exactly the missing
    closing braces (brackets always first, whatever the nesting) when
    the cut text closes no more than it opens, and the empty document
    when it closes more brackets or more braces than it opens. *)
Theorem heal_truncated_json_cases :
  ∀ response : pystr,
    let out := _heal_truncated_json response in
    let start_idx := find lbrace response in
    let closed :=
      endswith rbrace (rstrip response) = true ∧ balanced response in
    balanced out
    ∧ (start_idx = -1 → out = empty_document)
    ∧ (closed → out = response)
    ∧ (start_idx ≠ -1 → ¬ closed →
       (∀ (j : nat) c, start_idx < Z.of_nat j → response !! j = Some c →
                       is_closer c = false) →
       out = empty_document)
    ∧ (∀ (i : nat) (c : N),
         start_idx ≠ -1 → ¬ closed →
         start_idx < Z.of_nat i →
         response !! i = Some c → is_closer c = true →
         (∀ (j : nat) c', (i < j)%nat → response !! j = Some c' →
                          is_closer c' = false) →
         let p := take (S i) response in
         let fits := ((count rbracket p ≤ count lbracket p)%nat
                      ∧ (count rbrace p ≤ count lbrace p)%nat) in
         (fits →
          out = p ++ times closing_bracket
                       (count lbracket p - count rbracket p)
                  ++ times closing_brace (count lbrace p - count rbrace p))
         ∧ (¬ fits → out = empty_document)).
Proof.
  intros response out start_idx closed.
  assert (Hchk : ¬ closed →
    endswith rbrace (rstrip response) && balancedb (rstrip response)
    = false).
  { intros Hnc. apply not_true_is_false. intros Hchk. apply Hnc.
    apply andb_true_iff in Hchk as [Hend Hbal]. split; [done|].
    by apply balanced_rstrip, balancedb_spec. }
  split; [|split; [|split; [|split]]].
  - clear Hchk. subst out. unfold _heal_truncated_json.
    case_bool_decide; [apply balanced_empty_document|].
    destruct (endswith rbrace (rstrip response)
              && balancedb (rstrip response)) eqn:Hc.
    { apply andb_true_iff in Hc as [_ Hbal].
      by apply balanced_rstrip, balancedb_spec. }
    case_bool_decide; [apply balanced_empty_document|].
    cbv zeta.
    match goal with
    | |- balanced (if balancedb ?q then _ else _) =>
        destruct (balancedb q) eqn:Hfinal
    end; [by apply balancedb_spec in Hfinal|apply balanced_empty_document].
  - intros Hs. subst out start_idx. unfold _heal_truncated_json.
    by rewrite bool_decide_eq_true_2.
  - intros [Hend Hbal]. subst out. unfold _heal_truncated_json.
    rewrite bool_decide_eq_false_2 by by apply closed_has_brace.
    rewrite Hend. cbn [andb].
    by rewrite (proj2 (balancedb_spec _) (proj2 (balanced_rstrip _) Hbal)).
  - intros Hs Hnc Hnone. subst out start_idx.
    unfold _heal_truncated_json.
    rewrite bool_decide_eq_false_2 by done.
    rewrite (Hchk Hnc).
    by rewrite (scan_back_none _ _ _ Hnone), bool_decide_eq_true_2.
  - intros i c Hs Hnc Hlt Hc Hcl Hafter p fits.
    assert (Hout : out =
      let q := p ++ times closing_bracket
                      (count lbracket p - count rbracket p)
                 ++ times closing_brace (count lbrace p - count rbrace p) in
      if balancedb q then q else empty_document).
    { subst out start_idx. unfold _heal_truncated_json.
      rewrite bool_decide_eq_false_2 by done.
      rewrite (Hchk Hnc).
      rewrite (scan_back_last _ _ i c Hlt Hc Hcl Hafter)
        by by eapply lookup_lt_Some.
      rewrite bool_decide_eq_false_2 by lia.
      rewrite slice_prefix. cbv zeta.
      pose proof (heal_appended (take (S i) response)) as Happ.
      cbv zeta in Happ. rewrite Happ. reflexivity. }
    cbv zeta in Hout. split.
    + intros [Hk Hm]. rewrite Hout.
      rewrite (proj2 (balancedb_spec _)); [done|].
      apply balanced_closed. lia.
    + intros Hnf. rewrite Hout.
      match goal with
      | |- (if balancedb ?q then _ else _) = _ =>
          destruct (balancedb q) eqn:Hb
      end; [|done].
      apply balancedb_spec, balanced_closed in Hb.
      exfalso. apply Hnf. split; lia.
Qed.

End HealerProps.
(** ** Extraction gate *)

Section GateProps.
Import KGExtractor ExtractionGate.

Lemma tally_app w l1 l2 : tally w (l1 ++ l2) = tally w l1 + tally w l2.
Proof. unfold tally. rewrite filter_app, length_app. lia. Qed.

Lemma tally_cons w p l :
  tally w (p :: l) = (if w p then 1 else 0) + tally w l.
Proof.
  unfold tally. rewrite filter_cons.
  destruct (decide (w p = true)) as [->|Hn].
  - rewrite length_cons. lia.
  - destruct (w p); [congruence|]. lia.
Qed.

Lemma tally_nonneg w l : 0 ≤ tally w l.
Proof. unfold tally. lia. Qed.

(** Replacing the phase of one task moves one unit between classes. *)
Lemma tally_insert w (l : list phase) i old new :
  l !! i = Some old →
  tally w (<[i := new]> l)
  = tally w l - (if w old then 1 else 0) + (if w new then 1 else 0).
Proof.
  revert i. induction l as [|p l IH]; intros i Hi; [done|].
  destruct i as [|i]; simpl in *.
  - injection Hi as ->. rewrite !tally_cons. lia.
  - rewrite !tally_cons, (IH i Hi). lia.
Qed.

Lemma tally_replicate w p n :
  tally w (replicate n p) = if w p then Z.of_nat n else 0.
Proof.
  induction n as [|n IH]; [by destruct (w p)|].
  cbn [replicate]. rewrite tally_cons, IH. destruct (w p); lia.
Qed.

Lemma gate_inv_initial MAX : gate_inv MAX (initial MAX).
Proof. unfold gate_inv, initial, tally. simpl. lia. Qed.

Lemma gate_inv_fire MAX ev g g' :
  gate_inv MAX g → fire ev g = Some g' → gate_inv MAX g'.
Proof.
  intros (Hs & Ha & Hc & Hf & Hq) Hfire. unfold gate_inv.
  destruct ev as [|i ok|i]; simpl in Hfire.
  - injection Hfire as <-. simpl. rewrite !tally_app.
    unfold tally at 2 4 6 8 10 12. simpl. lia.
  - destruct (tasks g !! i) as [p|] eqn:Hi; [|done].
    destruct p as [| | | |b|b|q s]; try done;
      [| destruct (sem_value (gate g)) eqn:Hv; [done|] | | destruct ok | ];
      injection Hfire as <-; simpl;
      rewrite !(tally_insert _ _ _ _ _ Hi); simpl;
      try destruct b; simpl; lia.
  - destruct (tasks g !! i) as [p|] eqn:Hi; [|done].
    destruct p as [| | | |b|b|q s]; try done;
      injection Hfire as <-; simpl;
      rewrite !(tally_insert _ _ _ _ _ Hi); simpl; lia.
Qed.

Lemma run_snoc evs ev g : run (evs ++ [ev]) g = run evs g ≫= fire ev.
Proof. unfold run. by rewrite foldl_snoc. Qed.

Lemma run_app evs1 evs2 g :
  run (evs1 ++ evs2) g = run evs1 g ≫= run evs2.
Proof.
  induction evs2 as [|ev evs2 IH] using rev_ind.
  - rewrite app_nil_r. by destruct (run evs1 g).
  - rewrite app_assoc, run_snoc, IH.
    destruct (run evs1 g) as [g1|]; [|done]. cbn. by rewrite run_snoc.
Qed.

Lemma run_cons ev evs g : run (ev :: evs) g = fire ev g ≫= run evs.
Proof. change (ev :: evs) with ([ev] ++ evs). by rewrite run_app. Qed.

Lemma gate_inv_reachable MAX g : reachable MAX g → gate_inv MAX g.
Proof.
  intros [evs Hrun]. revert g Hrun.
  induction evs as [|ev evs IH] using rev_ind; intros g Hrun.
  - injection Hrun as <-. apply gate_inv_initial.
  - rewrite run_snoc in Hrun.
    destruct (run evs (initial MAX)) as [g0|] eqn:E; [|done].
    simpl in Hrun. eapply gate_inv_fire; [by apply IH|exact Hrun].
Qed.

(** When every call is over no call is in any other class. *)
Lemma tally_all_over (l : list phase) :
  Forall (λ p, is_over p = true) l →
  tally is_running l = 0 ∧ tally holds_slot l = 0
  ∧ tally (ended true) l + tally (ended false) l = tally is_finished l.
Proof.
  induction 1 as [|p l Hp _ IH]; [by vm_compute|].
  rewrite !tally_cons.
  destruct p as [| | | |b|b|q s]; try discriminate.
  - destruct b; simpl; lia.
  - simpl; lia.
Qed.

Lemma lookup_snoc (l : list phase) p : (l ++ [p]) !! length l = Some p.
Proof. by rewrite lookup_app_r, Nat.sub_diag by lia. Qed.

Lemma insert_snoc (l : list phase) p q :
  <[length l := q]> (l ++ [p]) = l ++ [q].
Proof.
  rewrite insert_app_r_alt by lia. by rewrite Nat.sub_diag.
Qed.

(** One call that is submitted, queued, acquires a free slot, starts
    and is then cancelled: the slot is free again and the call is still
    counted as active. *)
Lemma one_cancelled_call g v :
  sem_value (gate g) = S v →
  ∃ g',
    run [Submit; Advance (length (tasks g)) true;
         Advance (length (tasks g)) true; Advance (length (tasks g)) true;
         Cancel (length (tasks g))] g = Some g'
    ∧ sem_value (gate g') = S v
    ∧ _active_extractions (metrics (gate g'))
      = _active_extractions (metrics (gate g)) + 1
    ∧ _total_queued (metrics (gate g'))
      = _total_queued (metrics (gate g)) + 1
    ∧ _total_completed (metrics (gate g'))
      = _total_completed (metrics (gate g))
    ∧ _total_failed (metrics (gate g')) = _total_failed (metrics (gate g))
    ∧ tasks g' = tasks g ++ [Cancelled true true].
Proof.
  intros Hv.
  set (st1 := with_metrics queue (gate g)).
  set (st2 := mkGate v (metrics st1)).
  set (st3 := with_metrics start st2).
  assert (H1 : fire Submit g
               = Some (mkGateSys (gate g) (tasks g ++ [Submitted]))) by done.
  assert (H2 : fire (Advance (length (tasks g)) true)
                 (mkGateSys (gate g) (tasks g ++ [Submitted]))
               = Some (mkGateSys st1 (tasks g ++ [Waiting]))).
  { cbn [fire tasks gate]. rewrite lookup_snoc. unfold set_task.
    cbn [tasks]. by rewrite insert_snoc. }
  assert (H3 : fire (Advance (length (tasks g)) true)
                 (mkGateSys st1 (tasks g ++ [Waiting]))
               = Some (mkGateSys st2 (tasks g ++ [Holding]))).
  { cbn [fire tasks gate]. rewrite lookup_snoc.
    subst st1. cbn [with_metrics sem_value]. rewrite Hv. unfold set_task.
    cbn [tasks]. by rewrite insert_snoc. }
  assert (H4 : fire (Advance (length (tasks g)) true)
                 (mkGateSys st2 (tasks g ++ [Holding]))
               = Some (mkGateSys st3 (tasks g ++ [Running]))).
  { cbn [fire tasks gate]. rewrite lookup_snoc. unfold set_task.
    cbn [tasks]. by rewrite insert_snoc. }
  assert (H5 : fire (Cancel (length (tasks g)))
                 (mkGateSys st3 (tasks g ++ [Running]))
               = Some (mkGateSys (release st3)
                         (tasks g ++ [Cancelled true true]))).
  { cbn [fire tasks gate]. rewrite lookup_snoc. unfold set_task.
    cbn [tasks]. by rewrite insert_snoc. }
  eexists. split.
  - rewrite !run_cons, H1. cbn [mbind option_bind].
    rewrite !run_cons, H2. cbn [mbind option_bind].
    rewrite !run_cons, H3. cbn [mbind option_bind].
    rewrite !run_cons, H4. cbn [mbind option_bind].
    rewrite !run_cons, H5. cbn [mbind option_bind]. reflexivity.
  - cbn. repeat split; lia.
Qed.

Lemma cancelled_calls_leak n : ∀ g v,
  sem_value (gate g) = S v →
  ∃ g',
    run (cancelled_calls (length (tasks g)) n) g = Some g'
    ∧ sem_value (gate g') = S v
    ∧ _active_extractions (metrics (gate g'))
      = _active_extractions (metrics (gate g)) + Z.of_nat n
    ∧ _total_queued (metrics (gate g'))
      = _total_queued (metrics (gate g)) + Z.of_nat n
    ∧ _total_completed (metrics (gate g'))
      = _total_completed (metrics (gate g))
    ∧ _total_failed (metrics (gate g')) = _total_failed (metrics (gate g))
    ∧ tasks g' = tasks g ++ replicate n (Cancelled true true).
Proof.
  induction n as [|n IH]; intros g v Hv.
  - exists g. cbn [cancelled_calls replicate]. rewrite app_nil_r.
    repeat split; try done; lia.
  - destruct (one_cancelled_call g v Hv)
      as (g1 & Hrun1 & Hv1 & Ha1 & Hq1 & Hc1 & Hf1 & Ht1).
    assert (Hlen : length (tasks g1) = S (length (tasks g)))
      by (rewrite Ht1, length_app; cbn; lia).
    destruct (IH g1 v Hv1) as (g' & Hrun & Hv' & Ha & Hq & Hc & Hf & Ht).
    exists g'. cbn [cancelled_calls]. rewrite run_app, Hrun1. cbn [mbind option_bind].
    rewrite <- Hlen, Hrun. split; [done|]. split; [done|].
    rewrite Ha, Hq, Hc, Hf, Ht, Ht1, Ha1, Hq1, Hc1, Hf1.
    repeat split; try lia; try done.
    rewrite <- app_assoc. done.
Qed.

(** C8: the slot side of the claim holds, the counter side does not.
    In every reachable state the calls holding a slot are at most
    MAX_CONCURRENT_EXTRACTIONS and every exit gives the slot back: a
    running call that succeeds or fails is accounted for and releases,
    and a running call that is cancelled releases as well.  But the
    cancelled call records neither ["complete"] nor ["fail"], so it
    stays in [_active_extractions] for good: the reported count is the
    running calls plus the calls cancelled while running.  For every
    capacity there is a reachable state in which every call is over
    and every slot is free while the status endpoint reports more
    active extractions than the maximum and a negative number of free
    slots. *)
Theorem cancelled_call_stays_active :
  (∀ (MAX : nat) (g : Gate),
     reachable MAX g →
     0 ≤ tally holds_slot (tasks g)
     ∧ tally holds_slot (tasks g) ≤ Z.of_nat MAX
     ∧ Z.of_nat (sem_value (gate g)) + tally holds_slot (tasks g)
       = Z.of_nat MAX
     ∧ _active_extractions (metrics (gate g))
       = tally is_running (tasks g) + tally cancelled_running (tasks g)
     ∧ (∀ i ok, tasks g !! i = Some Running →
          ∃ g1 g2, fire (Advance i ok) g = Some g1
                   ∧ fire (Advance i ok) g1 = Some g2
                   ∧ tasks g2 !! i = Some (Finished ok)
                   ∧ sem_value (gate g2) = S (sem_value (gate g))
                   ∧ _active_extractions (metrics (gate g2))
                     = _active_extractions (metrics (gate g)) - 1)
     ∧ (∀ i, tasks g !! i = Some Running →
          ∃ g1, fire (Cancel i) g = Some g1
                ∧ tasks g1 !! i = Some (Cancelled true true)
                ∧ sem_value (gate g1) = S (sem_value (gate g))
                ∧ metrics (gate g1) = metrics (gate g))
     ∧ (Forall (λ p, is_over p = true) (tasks g) →
          sem_value (gate g) = MAX
          ∧ _active_extractions (metrics (gate g))
            = tally cancelled_running (tasks g)
          ∧ _total_completed (metrics (gate g))
            + _total_failed (metrics (gate g))
            = tally is_finished (tasks g)))
  ∧ (∀ m : nat,
       ∃ g, reachable (S m) g
            ∧ Forall (λ p, is_over p = true) (tasks g)
            ∧ sem_value (gate g) = S m
            ∧ active_extractions
                (get_metrics (Z.of_nat (S m)) (metrics (gate g)))
              = Z.of_nat (S m) + 1
            ∧ max_concurrent
                (get_metrics (Z.of_nat (S m)) (metrics (gate g)))
              < active_extractions
                  (get_metrics (Z.of_nat (S m)) (metrics (gate g)))
            ∧ slots_available
                (get_metrics (Z.of_nat (S m)) (metrics (gate g))) = -1
            ∧ total_completed
                (get_metrics (Z.of_nat (S m)) (metrics (gate g)))
              + total_failed
                  (get_metrics (Z.of_nat (S m)) (metrics (gate g))) = 0).
Proof.
  split.
  - intros MAX g Hreach.
    destruct (gate_inv_reachable _ _ Hreach) as (Hs & Ha & Hc & Hf & Hq).
    pose proof (tally_nonneg holds_slot (tasks g)).
    split; [done|]. split; [lia|]. split; [done|]. split; [done|].
    split; [|split].
    + intros i ok Hi. simpl. rewrite Hi.
      eexists _, _. split; [reflexivity|].
      assert (Hlt : (i < length (tasks g))%nat) by by eapply lookup_lt_Some.
      simpl. rewrite list_lookup_insert_eq by done.
      split; [reflexivity|]. simpl.
      rewrite list_lookup_insert_eq by (by rewrite length_insert).
      split; [reflexivity|]. split; [reflexivity|].
      destruct ok; simpl; lia.
    + intros i Hi. simpl. rewrite Hi.
      assert (Hlt : (i < length (tasks g))%nat) by by eapply lookup_lt_Some.
      eexists. split; [reflexivity|]. simpl.
      rewrite list_lookup_insert_eq by done. done.
    + intros Hall. destruct (tally_all_over _ Hall) as (Hr & Hh & Hsum).
      split; [lia|]. split; [lia|]. lia.
  - intros m.
    destruct (cancelled_calls_leak (S (S m)) (initial (S m)) m eq_refl)
      as (g & Hrun & Hv & Ha & Hq & Hc & Hf & Ht).
    exists g. split; [by eexists|].
    cbn [initial tasks gate metrics _active_extractions _total_queued
         _total_completed _total_failed app] in Ha, Hc, Hf, Ht.
    split; [rewrite Ht; by apply Forall_replicate|].
    split; [done|].
    unfold get_metrics.
    cbn [active_extractions max_concurrent slots_available total_completed
         total_failed].
    rewrite Ha, Hc, Hf. repeat split; lia.
Qed.

Lemma cancelled_call_stays_active_witness :
  let g := Scenario.gate_after Scenario.three_cancelled in
  ExtractionGate.run Scenario.three_cancelled (initial 2) = Some g
  ∧ Forall (λ p, is_over p = true) (tasks g)
  ∧ sem_value (gate g) = 2%nat
  ∧ tally holds_slot (tasks g) = 0
  ∧ _active_extractions (metrics (gate g)) = 3
  ∧ _active_extractions (metrics (gate g))
    = tally is_running (tasks g) + tally cancelled_running (tasks g).
Proof.
  cbn zeta.
  destruct (proj1 cancelled_call_stays_active 2%nat
              (Scenario.gate_after Scenario.three_cancelled))
    as (_ & _ & _ & Hactive & _).
  { exists Scenario.three_cancelled. vm_compute. reflexivity. }
  split; [vm_compute; reflexivity|].
  split; [vm_compute; repeat constructor|].
  split; [vm_compute; reflexivity|].
  split; [vm_compute; reflexivity|].
  split; [vm_compute; reflexivity|exact Hactive].
Defined.

End GateProps.

(** ** Orchestrator: persistence with an empty extraction *)

Section PipelineProps.
Import ChunkMapper Neo4jClient Processor.

Lemma find_some_elem {A} (p : A → bool) (l : list A) x :
  List.find p l = Some x → x ∈ l ∧ p x = true.
Proof.
  intros H. apply find_some in H as [? ?].
  split; [by apply list_elem_of_In|done].
Qed.

Lemma create_document_persists cid u t g :
  ∃ id g', create_document cid u t g = (Ok id, g')
           ∧ document_persisted g' id cid.
Proof.
  unfold create_document, find_document.
  destruct (List.find _ (documents g)) as [d|] eqn:E.
  - eexists _, _. split; [reflexivity|].
    apply find_some_elem in E as [Hd Hp].
    exists (mkDoc (doc_id d) cid u t). split; [|done]. cbn [documents].
    by apply (update_where_elem (λ d, bool_decide (content_id d = cid))
                (λ d, mkDoc (doc_id d) cid u t)).
  - eexists _, _. split; [reflexivity|].
    exists (mkDoc (next_id g) cid u t). split; [|done]. cbn [documents].
    apply elem_of_app. right. apply list_elem_of_here.
Qed.

Lemma has_edge_merge_plain g s ty d :
  has_edge (merge_plain_edge s ty d g) s ty d = true.
Proof.
  unfold merge_plain_edge. destruct (has_edge g s ty d) eqn:E; [done|].
  unfold has_edge. cbn [edges]. rewrite existsb_app. simpl.
  unfold is_edge. simpl. rewrite !bool_decide_eq_true_2 by done.
  by rewrite orb_true_r.
Qed.

Lemma has_edge_merge_plain_mono g s ty d s' ty' d' :
  has_edge g s' ty' d' = true →
  has_edge (merge_plain_edge s ty d g) s' ty' d' = true.
Proof.
  intros H. unfold merge_plain_edge. destruct (has_edge g s ty d); [done|].
  unfold has_edge in *. cbn [edges]. rewrite existsb_app, H. done.
Qed.

Lemma merge_chunk_edges rowid idx cs ce p g :
  edges (merge_chunk rowid idx cs ce p g).2 = edges g.
Proof. unfold merge_chunk. by destruct (find_chunk g rowid). Qed.

Lemma merge_chunk_documents rowid idx cs ce p g :
  documents (merge_chunk rowid idx cs ce p g).2 = documents g.
Proof. unfold merge_chunk. by destruct (find_chunk g rowid). Qed.

(** The node a chunk merge returns is in the store with that rowid. *)
Lemma merge_chunk_node rowid idx cs ce p g :
  ∃ cn, cn ∈ Neo4jClient.chunks (merge_chunk rowid idx cs ce p g).2
        ∧ Neo4jClient.vector_rowid cn = rowid
        ∧ chunk_id cn = (merge_chunk rowid idx cs ce p g).1.
Proof.
  unfold merge_chunk, find_chunk.
  destruct (List.find _ (Neo4jClient.chunks g)) as [c|] eqn:E; cbn [fst snd].
  - apply find_some_elem in E as [Hc Hp].
    exists (mkChunkNode (chunk_id c) rowid idx cs ce p).
    split; [|done]. cbn [Neo4jClient.chunks].
    by apply (update_where_elem
                (λ c, bool_decide (Neo4jClient.vector_rowid c = rowid))
                (λ c, mkChunkNode (chunk_id c) rowid idx cs ce p)).
  - exists (mkChunkNode (next_id g) rowid idx cs ce p).
    split; [|done]. cbn [Neo4jClient.chunks].
    apply elem_of_app. right. apply list_elem_of_here.
Qed.

(** Chunk nodes keep their id and rowid through a later merge. *)
Lemma merge_chunk_keeps rowid idx cs ce p g cn :
  cn ∈ Neo4jClient.chunks g →
  ∃ cn', cn' ∈ Neo4jClient.chunks (merge_chunk rowid idx cs ce p g).2
         ∧ Neo4jClient.vector_rowid cn' = Neo4jClient.vector_rowid cn
         ∧ chunk_id cn' = chunk_id cn.
Proof.
  intros Hcn. unfold merge_chunk.
  destruct (find_chunk g rowid) as [c|]; cbn [snd Neo4jClient.chunks].
  - destruct (bool_decide (Neo4jClient.vector_rowid cn = rowid)) eqn:Hp.
    + exists (mkChunkNode (chunk_id cn) rowid idx cs ce p).
      apply bool_decide_eq_true in Hp. split; [|done].
      apply (update_where_elem
               (λ c, bool_decide (Neo4jClient.vector_rowid c = rowid))
               (λ c, mkChunkNode (chunk_id c) rowid idx cs ce p));
        [done|by apply bool_decide_eq_true].
    + exists cn. split; [|done]. unfold update_where.
      apply list_elem_of_fmap. exists cn. by rewrite Hp.
  - exists cn. split; [|done]. apply elem_of_app. by left.
Qed.

Lemma create_chunk_persists did rowid idx cs ce p g d :
  find_document_by_id g did = Some d →
  ∃ cid g', create_chunk did rowid idx cs ce p g = (Ok cid, g')
            ∧ documents g' = documents g
            ∧ chunk_persisted g' did rowid
            ∧ ∀ r, chunk_persisted g did r → chunk_persisted g' did r.
Proof.
  intros Hd. unfold create_chunk. rewrite Hd.
  destruct (merge_chunk rowid idx cs ce (prefix p 200) g) as [cid g1] eqn:E.
  apply find_some_elem in Hd as [_ Hid]. apply bool_decide_eq_true in Hid.
  rewrite Hid.
  eexists _, _. split; [reflexivity|].
  assert (Hg1 : g1 = (merge_chunk rowid idx cs ce (prefix p 200) g).2)
    by by rewrite E.
  assert (Hcid : cid = (merge_chunk rowid idx cs ce (prefix p 200) g).1)
    by by rewrite E.
  split; [|split].
  - unfold merge_plain_edge. destruct (has_edge g1 did HAS_CHUNK cid);
      cbn [documents]; by rewrite Hg1, merge_chunk_documents.
  - destruct (merge_chunk_node rowid idx cs ce (prefix p 200) g)
      as (cn & Hcn & Hrow & Hcid').
    exists cn. rewrite <- Hg1, <- Hcid in *.
    split; [|split; [done|]].
    + unfold merge_plain_edge. by destruct (has_edge g1 did HAS_CHUNK cid).
    + rewrite Hcid'. apply has_edge_merge_plain.
  - intros r (cn & Hcn & Hrow & Hedge).
    destruct (merge_chunk_keeps rowid idx cs ce (prefix p 200) g cn Hcn)
      as (cn' & Hcn' & Hrow' & Hid').
    exists cn'. rewrite <- Hg1 in *. split; [|split; [congruence|]].
    + unfold merge_plain_edge. by destruct (has_edge g1 did HAS_CHUNK cid).
    + apply has_edge_merge_plain_mono. rewrite Hid'.
      unfold has_edge in *. by rewrite Hg1, merge_chunk_edges.
Qed.

Lemma store_chunks_persists did d : ∀ request_chunks m g,
  find_document_by_id g did = Some d →
  ∃ m' g', store_chunks did request_chunks m g = (Ok m', g')
           ∧ documents g' = documents g
           ∧ (∀ c, c ∈ request_chunks →
                chunk_persisted g' did (ChunkMapper.vector_rowid c))
           ∧ ∀ r, chunk_persisted g did r → chunk_persisted g' did r.
Proof.
  induction request_chunks as [|c rest IH]; intros m g Hd;
    cbn [store_chunks].
  - eexists _, _. split; [reflexivity|]. split; [done|].
    split; [|done]. intros c Hc. by apply elem_of_nil in Hc.
  - unfold bind.
    destruct (create_chunk_persists did (ChunkMapper.vector_rowid c)
                (ChunkMapper.chunk_index c) (ChunkMapper.char_start c)
                (ChunkMapper.char_end c) (prefix (ChunkMapper.text c) 200)
                g d Hd) as (cid & g1 & -> & Hdocs & Hthis & Hkeep).
    assert (Hd1 : find_document_by_id g1 did = Some d)
      by (unfold find_document_by_id; by rewrite Hdocs).
    destruct (IH (<[ChunkMapper.vector_rowid c := cid]> m) g1 Hd1)
      as (m' & g' & -> & Hdocs' & Hall & Hkeep').
    eexists _, _. split; [reflexivity|]. split; [congruence|].
    split; [|by auto].
    intros c' [->|Hc']%elem_of_cons; [by apply Hkeep'|by apply Hall].
Qed.

Lemma store_empty_persists cid u t request_chunks g :
  ∃ res g', _store_in_neo4j cid u t request_chunks [] [] g = (Ok res, g')
            ∧ document_persisted g' (document_node_id res) cid
            ∧ ∀ c, c ∈ request_chunks →
                chunk_persisted g' (document_node_id res)
                  (ChunkMapper.vector_rowid c).
Proof.
  unfold _store_in_neo4j, bind.
  destruct (create_document_persists cid u t g)
    as (id & g1 & -> & (d & Hd & Hid & Hcid)).
  assert (Hp : bool_decide (doc_id d = id) = true)
    by by apply bool_decide_eq_true.
  destruct (find_is_Some (λ d, bool_decide (doc_id d = id)) _ _ Hd Hp)
    as [d' Hfind].
  destruct (store_chunks_persists id d' request_chunks ∅ g1 Hfind)
    as (m' & g2 & -> & Hdocs & Hall & _).
  cbn [store_entities store_relationships]. unfold ret.
  eexists _, _. split; [reflexivity|]. cbn [document_node_id].
  split; [|exact Hall].
  exists d. by rewrite Hdocs.
Qed.

(** C7: when the model call or the parsing inside [extract_kg] raises
    (client initialised, a slot free), [extract_kg] returns ([], [])
    and raises nothing; and whenever the extraction step yields
    ([], []), [process_document] returns a successful result with empty
    entity and relationship lists, having stored the Document node and
    a Chunk node under it for every chunk of the request. *)
Theorem failed_extraction_is_empty_and_persists :
  (∀ env text u (st : KGExtractor.GateState) v,
     KGExtractor._ensure_vllm_client env = Ok u →
     KGExtractor.sem_value st = S v →
     KGExtractor.llm_or_parsing_raises env text →
     ∃ st', KGExtractor.extract_kg env text st = Some (Ok ([], []), st'))
  ∧ (∀ settings ex cid u t markdown request_chunks w gt,
       extract_step settings ex markdown (gate w) = Some (Ok ([], []), gt) →
       ∃ r w',
         process_document settings ex cid u t markdown request_chunks w
           = Some (Ok r, w')
         ∧ success r = true ∧ r_content_id r = cid
         ∧ r_entities r = [] ∧ r_relationships r = []
         ∧ entities_extracted r = 0%nat ∧ relationships_extracted r = 0%nat
         ∧ document_persisted (graph w') (neo4j_document_id r) cid
         ∧ ∀ c, c ∈ request_chunks →
             chunk_persisted (graph w') (neo4j_document_id r)
               (ChunkMapper.vector_rowid c)).
Proof.
  split.
  - intros env text u st v Hens Hsem (e & Hraise).
    unfold KGExtractor.extract_kg.
    destruct (strip text) eqn:Hstrip; [by eexists|].
    rewrite Hens. cbn [KGExtractor.with_metrics KGExtractor.sem_value].
    rewrite Hsem.
    destruct Hraise as [->|(response & -> & ->)]; by eexists.
  - intros settings ex cid u t markdown request_chunks w gt Hex.
    unfold process_document. rewrite Hex.
    assert (Hme : map_entities_to_chunks [] request_chunks = [])
      by by destruct request_chunks.
    rewrite Hme.
    assert (Hmr : map_relationships_to_chunks [] [] request_chunks = [])
      by by destruct request_chunks.
    rewrite Hmr.
    destruct (store_empty_persists cid u t request_chunks (graph w))
      as (res & g' & -> & Hdoc & Hchunks).
    eexists _, _. split; [reflexivity|]. cbn.
    repeat split; assumption.
Qed.

Lemma failed_extraction_is_empty_and_persists_witness :
  (∃ st', KGExtractor.extract_kg Scenario.unavailable_llm
            (Server.markdown Scenario.fastapi_request)
            (gate Scenario.fresh_world) = Some (Ok ([], []), st'))
  ∧ (∃ r w',
       process_document Scenario.llm_processor.1 Scenario.llm_processor.2
         123 (py "https://docs.fastapi.com") (py "FastAPI Documentation")
         (Server.markdown Scenario.fastapi_request) Scenario.two_chunks
         Scenario.fresh_world = Some (Ok r, w')
       ∧ success r = true ∧ r_content_id r = 123
       ∧ r_entities r = [] ∧ r_relationships r = []
       ∧ entities_extracted r = 0%nat ∧ relationships_extracted r = 0%nat
       ∧ document_persisted (graph w') (neo4j_document_id r) 123
       ∧ ∀ c, c ∈ Scenario.two_chunks →
           chunk_persisted (graph w') (neo4j_document_id r)
             (ChunkMapper.vector_rowid c)).
Proof.
  destruct failed_extraction_is_empty_and_persists as [Hextract Hprocess].
  split.
  - apply (Hextract Scenario.unavailable_llm _ () _ 3%nat).
    + reflexivity.
    + reflexivity.
    + exists ModelUnavailable. left. reflexivity.
  - apply (Hprocess _ _ _ _ _ _ _ _
             (KGExtractor.mkGate 4 (KGExtractor.mkMetrics 0 1 0 1))).
    vm_compute. reflexivity.
Defined.

End PipelineProps.

(** ** HTTP surface: status codes of the ingest endpoint *)

Section ServerProps.
Import Processor Server.

(** A body that fails validation is answered with 422 and nothing is
    touched. *)
Lemma ingest_invalid_is_422 request s :
  validate_request request = false → post_ingest request s = Some (422, s).
Proof. intros H. unfold post_ingest. by rewrite H. Qed.

(** An exception of the pipeline is answered with 500. *)
Lemma ingest_failure_is_500 request s settings ex e w :
  validate_request request = true →
  kg_processor s = Some (settings, ex) →
  process_document settings ex (content_id request) (url request)
    (title request) (markdown request) (chunks request) (world s)
    = Some (Raise e, w) →
  ∃ s', post_ingest request s = Some (500, s').
Proof.
  intros Hv Hp Hr. unfold post_ingest, ingest_document, ingest_try.
  rewrite Hv, Hp, Hr. by eexists.
Qed.

(** C9 at the uninitialised orchestrator: for every valid request, when
    [kg_processor] is not set the endpoint answers 500, not 503, and
    counts the request as failed; the [HTTPException(503)] is raised
    inside the [try] block and converted by its [except Exception]. *)
Theorem ingest_uninitialised_is_500 :
  ∀ request s,
    validate_request request = true →
    kg_processor s = None →
    ingest_try request s = Some (Raise (HTTPException 503), s)
    ∧ post_ingest request s
      = Some (500,
              mkState None
                (mkStats (total_processed (processing_stats s))
                   (total_entities (processing_stats s))
                   (total_relationships (processing_stats s))
                   (failed_count (processing_stats s) + 1))
                (world s)).
Proof.
  intros request s Hv Hp. unfold post_ingest, ingest_document, ingest_try.
  rewrite Hv, Hp. cbn. rewrite Hp. split; reflexivity.
Qed.

Lemma ingest_uninitialised_is_500_witness :
  ingest_try Scenario.fastapi_request Scenario.uninitialised_server
    = Some (Raise (HTTPException 503), Scenario.uninitialised_server)
  ∧ post_ingest Scenario.fastapi_request Scenario.uninitialised_server
    = Some (500,
            mkState None (mkStats 0 0 0 (0 + 1)) Scenario.fresh_world).
Proof.
  apply (ingest_uninitialised_is_500 Scenario.fastapi_request
           Scenario.uninitialised_server).
  - vm_compute. reflexivity.
  - reflexivity.
Defined.

End ServerProps.

(** ** Enhanced search *)

Section SearchTraversal.
Import Neo4jClient EnhancedSearch.

Lemma bind_all_nil {A B} (f : A → list B) (l : list A) :
  (∀ x, x ∈ l → f x = []) → l ≫= f = [].
Proof.
  induction l as [|x l IH]; intros H; [done|].
  rewrite bind_cons, (H x) by apply list_elem_of_here.
  apply IH. intros y Hy. apply H. by apply list_elem_of_further.
Qed.

(** Without a [PART_OF] edge out of a Chunk node the pattern of step 2
    (and of step 5) matches nothing. *)
Lemma mentioned_chunk_paths_nil g entity :
  part_of_from_chunk g = false → mentioned_chunk_paths g entity = [].
Proof.
  intros Hno. unfold mentioned_chunk_paths.
  apply bind_all_nil. intros m _.
  apply bind_all_nil. intros c [_ Hc]%list_elem_of_filter.
  destruct (filter (λ ed, src ed = chunk_id c ∧ rel_type ed = PART_OF)
              (edges g)) as [|ed rest] eqn:Ef; [done|].
  assert (Hin : ed ∈ filter (λ ed, src ed = chunk_id c ∧ rel_type ed = PART_OF)
                  (edges g)) by (rewrite Ef; apply list_elem_of_here).
  apply list_elem_of_filter in Hin as [[Hsrc Hty] Hed].
  unfold part_of_from_chunk in Hno.
  assert (existsb
            (λ ed, bool_decide (rel_type ed = PART_OF)
                   && existsb (λ c, bool_decide (chunk_id c = src ed))
                        (chunks g)) (edges g) = true) as Hyes; [|congruence].
  apply existsb_exists. exists ed. split; [by apply list_elem_of_In|].
  rewrite bool_decide_eq_true_2 by done. simpl.
  apply existsb_exists. exists c. split; [by apply list_elem_of_In|].
  by apply bool_decide_eq_true.
Qed.

Lemma search_rows_unmatched g terms row :
  part_of_from_chunk g = false → row ∈ search_rows g terms → row.2 = None.
Proof.
  intros Hno. unfold search_rows.
  intros (se & Hrow & _)%list_elem_of_bind.
  rewrite (mentioned_chunk_paths_nil _ _ Hno) in Hrow.
  apply list_elem_of_fmap in Hrow as (sc & -> & Hsc).
  by apply list_elem_of_singleton in Hsc as ->.
Qed.

Lemma expanded_rows_unmatched g terms row :
  part_of_from_chunk g = false → row ∈ expanded_rows g terms → row.2 = None.
Proof.
  intros Hno. unfold expanded_rows.
  intros (r & Hrow & Hr)%list_elem_of_bind.
  apply list_elem_of_bind in Hrow as (ce & Hrow & _).
  destruct ce as [e|].
  - rewrite (mentioned_chunk_paths_nil _ _ Hno) in Hrow.
    apply list_elem_of_fmap in Hrow as (ec & -> & Hec).
    by apply list_elem_of_singleton in Hec as ->.
  - by apply list_elem_of_singleton in Hrow as ->.
Qed.

(** Rows that reach no chunk aggregate to maps without a rowid. *)
Lemma collect_chunks_unmatched {E} (name : E → option pystr) rows row :
  (∀ r, r ∈ rows → r.2 = None) →
  row ∈ collect_chunks name rows → row_vector_rowid row = None.
Proof.
  intros Hnone. unfold collect_chunks.
  intros (k & _ & Hk)%list_elem_of_omap.
  destruct (List.find _ (snd <$> rows)) as [p|] eqn:E1; [|done].
  simpl in Hk. injection Hk as <-.
  apply find_some in E1 as [Hp _]. apply list_elem_of_In in Hp.
  apply list_elem_of_fmap in Hp as (r & -> & Hr).
  by rewrite (Hnone r Hr).
Qed.

Lemma score_loop_skips body st rows :
  (∀ st row, row_vector_rowid row = None → body st row = Ok st) →
  (∀ row, row ∈ rows → row_vector_rowid row = None) →
  score_loop body st rows = Ok st.
Proof.
  intros Hbody. induction rows as [|row rows IH]; intros Hrows; [done|].
  simpl. rewrite Hbody by (apply Hrows, list_elem_of_here).
  apply IH. intros r Hr. apply Hrows. by apply list_elem_of_further.
Qed.

(** C1 at the graph the ingest path writes: Chunk nodes are attached by
    [HAS_CHUNK] edges from their Document and no [PART_OF] edge leaves a
    Chunk node, so for every such graph, every list of search terms and
    every limit the enhanced search answers with no chunk at all. *)
Theorem enhanced_search_finds_no_chunk :
  ∀ g search_term_entities max_chunks,
    part_of_from_chunk g = false →
    enhanced_kg_search g search_term_entities max_chunks
    = Ok (mkResponse true [] 0).
Proof.
  intros g terms max_chunks Hno.
  unfold enhanced_kg_search, search_response, _score_and_rank_chunks.
  rewrite score_loop_skips.
  - rewrite score_loop_skips.
    + simpl. by destruct max_chunks.
    + intros st row H. unfold score_expanded_chunk. by rewrite H.
    + intros row Hrow. eapply collect_chunks_unmatched; [|exact Hrow].
      intros r Hr. by eapply expanded_rows_unmatched.
  - intros st row H. unfold score_search_chunk. by rewrite H.
  - intros row Hrow. eapply collect_chunks_unmatched; [|exact Hrow].
    intros r Hr. by eapply search_rows_unmatched.
Qed.

(** The specification's scenario: both entities are linked to the first
    chunk and Python also to the second, and the search returns nothing. *)
Lemma enhanced_search_finds_no_chunk_witness :
  enhanced_kg_search Scenario.ingested_graph Scenario.neo4j_python 100
  = Ok (mkResponse true [] 0).
Proof.
  apply (enhanced_search_finds_no_chunk Scenario.ingested_graph
           Scenario.neo4j_python 100).
  vm_compute. reflexivity.
Defined.

Lemma ingested_graph_mentions :
  (has_edge Scenario.ingested_graph 3 MENTIONED_IN 1 = true
   ∧ has_edge Scenario.ingested_graph 4 MENTIONED_IN 1 = true
   ∧ has_edge Scenario.ingested_graph 4 MENTIONED_IN 2 = true
   ∧ has_edge Scenario.ingested_graph 0 HAS_CHUNK 1 = true
   ∧ has_edge Scenario.ingested_graph 0 HAS_CHUNK 2 = true)%nat.
Proof. repeat split; vm_compute; reflexivity. Qed.

End SearchTraversal.

Section ScoringProps.
Import EnhancedSearch.





Lemma Qltb_true a b : KGExtractor.Qltb a b = true → (a <= b)%Q.
Proof.
  unfold KGExtractor.Qltb. intros H. apply negb_true_iff in H.
  apply Qlt_le_weak, Qnot_le_lt. intros Hle.
  apply Qle_bool_iff in Hle. congruence.
Qed.

Lemma Qltb_false a b : KGExtractor.Qltb a b = false → (b <= a)%Q.
Proof.
  unfold KGExtractor.Qltb. intros H. apply negb_false_iff in H.
  by apply Qle_bool_iff.
Qed.







Lemma length_prefix_500 (t : pystr) : (length (prefix t 500) ≤ 500)%nat.
Proof. unfold prefix. rewrite length_take. lia. Qed.








(** The scenario of the specification: the chunk with both entities
    comes first with 1.0, expansion-only chunks follow by tier, and the
    single-entity chunk has 0.6. *)
Lemma sample_scores :
  ranking (_score_and_rank_chunks Scenario.sample_query_result)
  = Some [ (45001, 1%Q); (45003, (8 # 10)%Q); (45002, (6 # 10)%Q);
           (45004, (6 # 10)%Q); (45005, (4 # 10)%Q) ].
Proof. vm_compute. reflexivity. Qed.



(** The answer to the sample query result cut to two chunks. *)
Lemma sample_response :
  match search_response Scenario.sample_query_result 2 with
  | Ok resp =>
      (λ c, (cs_vector_rowid c, cs_expansion_score c,
             length (cs_chunk_text c))) <$> resp_chunks resp
      = [ (45001, 1%Q, 500%nat); (45003, (8 # 10)%Q, 500%nat) ]
      ∧ total_chunks resp = 2%nat
  | Raise _ => False
  end.
Proof. vm_compute. split; reflexivity. Qed.


End ScoringProps.

(** ** Anchoring of entity text in the original markdown *)

Section AnchorProps.
Import ChunkMapper Scenario.

(** C5 at a markdown whose words are separated by blank lines and
    whose entity "Neo4j graph database" stands at 1100..1120 (in the
    second chunk): the whitespace segmentation records 1000 as the start
    of the second segment, so the recogniser path reports the entity at
    1000..1020, where the markdown holds other text; and on both
    extraction paths the mapper, which reads ["start_pos"] while the
    extractors write ["start"], anchors the entity to the first chunk at
    offsets 0..20, where the markdown holds other text as well. *)
Theorem anchored_text_is_not_entity_text :
  validate_chunks long_chunks = true
  ∧ slice long_markdown 1100 1120 = graph_database
  ∧ EntityExtractor.seg_char_start
      <$> EntityExtractor._chunk_text_for_gliner long_markdown 1000
    = [0; 1000]
  ∧ entity_spans (EntityExtractor.extract graph_ner long_markdown)
    = Some [(graph_database, 1000, 1020)]
  ∧ slice long_markdown 1000 1020 ≠ graph_database
  ∧ entity_spans
      (match KGExtractor.extract_kg answering_llm long_markdown
               (Processor.gate fresh_world) with
       | Some (Ok kg, _) => Ok kg.1
       | _ => Raise ValueError
       end)
    = Some [(graph_database, 1100, 1120)]
  ∧ response_anchors (ingest_long ner_processor)
    = Some [(graph_database, [mkApp 45001 0 0 20])]
  ∧ response_anchors (ingest_long answering_processor)
    = Some [(graph_database, [mkApp 45001 0 0 20])]
  ∧ slice long_markdown (0 + 0) (0 + 20) ≠ graph_database.
Proof.
  repeat split; try (vm_compute; reflexivity);
    intros H; vm_compute in H; discriminate.
Qed.

End AnchorProps.

(** * Further properties of the modelled code *)

(** ** Extraction gate: progress and reporting *)

Section GateExtra.
Import KGExtractor ExtractionGate Monitoring.

Lemma tally_zero w (l : list phase) :
  (∀ p, p ∈ l → w p = false) → tally w l = 0.
Proof.
  induction l as [|p l IH]; intros H; [done|].
  rewrite tally_cons, (H p) by apply list_elem_of_here.
  rewrite IH; [done|]. intros q Hq. apply H. by apply list_elem_of_further.
Qed.

(** X1: the gate cannot deadlock, with or without cancellations.  In
    every reachable state with at least one slot configured, as long
    as some call has neither returned nor been cancelled, some call
    can take its next step. *)
Theorem gate_no_deadlock :
  ∀ (MAX : nat) (g : Gate) (i : nat) (p : phase),
    reachable MAX g → (0 < MAX)%nat →
    tasks g !! i = Some p → is_over p = false →
    ∃ j ok g', fire (Advance j ok) g = Some g'.
Proof.
  intros MAX g i p Hreach Hmax Hi Hp.
  destruct (gate_inv_reachable _ _ Hreach) as (Hs & _).
  destruct (decide (Exists (λ q, q ≠ Waiting ∧ is_over q = false) (tasks g)))
    as [Hex|Hall].
  - apply Exists_exists in Hex as (q & Hq & Hnw & Hnf).
    apply list_elem_of_lookup in Hq as [j Hj].
    exists j, true. simpl. rewrite Hj.
    destruct q; try done; by eexists.
  - assert (Hfree : tally holds_slot (tasks g) = 0).
    { apply tally_zero. intros q Hq.
      destruct (holds_slot q) eqn:E; [|done].
      exfalso. apply Hall. apply Exists_exists. exists q.
      split; [done|]. by destruct q. }
    assert (p = Waiting) as ->.
    { destruct (decide (p = Waiting)) as [|Hne]; [done|].
      exfalso. apply Hall. apply Exists_exists. exists p.
      split; [by eapply list_elem_of_lookup_2|done]. }
    exists i, true. simpl. rewrite Hi.
    destruct (sem_value (gate g)) eqn:Hv; [lia|]. by eexists.
Qed.

Lemma gate_no_deadlock_witness :
  ∃ j ok g',
    fire (Advance j ok)
      (Scenario.gate_after Scenario.cancelled_then_busy) = Some g'.
Proof.
  apply (gate_no_deadlock 2
           (Scenario.gate_after
              Scenario.cancelled_then_busy)
           5 Waiting).
  - exists Scenario.cancelled_then_busy.
    vm_compute. reflexivity.
  - lia.
  - vm_compute. reflexivity.
  - reflexivity.
Defined.

Lemma tally_partition (l : list phase) :
  tally was_queued l
  = tally is_running l + tally cancelled_running l
    + tally (ended true) l + tally (ended false) l
    + tally (λ p, bool_decide (p = Waiting)) l
    + tally (λ p, bool_decide (p = Holding)) l
    + tally (λ p, bool_decide (p = Cancelled true false)) l.
Proof.
  induction l as [|p l IH]; [by vm_compute|].
  rewrite !tally_cons, IH.
  destruct p as [| | | |[]|[]|[] []]; simpl; lia.
Qed.

Lemma tally_holders (l : list phase) :
  tally holds_slot l = tally is_running l + tally holds_uncounted l.
Proof.
  induction l as [|p l IH]; [done|].
  rewrite !tally_cons, IH. destruct p; simpl; lia.
Qed.

(** X2: what the status endpoint reports in a reachable state.  The
    reported free slots are the semaphore's free slots, plus the calls
    that hold a slot without being counted as active, minus the calls
    cancelled while running; the active, completed and failed calls
    never exceed the queued ones; the status is "at_capacity" exactly
    when [active] has reached the maximum.  As long as no call was
    cancelled while running, the reported free slots are not negative
    and not below the semaphore's, and "at_capacity" means that
    [active] equals the maximum and that no slot is free. *)
Theorem status_report_sound :
  ∀ (MAX : nat) (g : Gate),
    reachable MAX g →
    let m := get_metrics (Z.of_nat MAX) (metrics (gate g)) in
    slots_available m
    = Z.of_nat (sem_value (gate g)) + tally holds_uncounted (tasks g)
      - tally cancelled_running (tasks g)
    ∧ active_extractions m + total_completed m + total_failed m
      ≤ total_queued m
    ∧ (extraction_status m = py "at_capacity"
       ↔ max_concurrent m ≤ active_extractions m)
    ∧ (tally cancelled_running (tasks g) = 0 →
         0 ≤ slots_available m
         ∧ Z.of_nat (sem_value (gate g)) ≤ slots_available m
         ∧ (extraction_status m = py "at_capacity"
            ↔ active_extractions m = max_concurrent m)
         ∧ (extraction_status m = py "at_capacity"
            → sem_value (gate g) = 0%nat)).
Proof.
  intros MAX g Hreach m.
  destruct (gate_inv_reachable _ _ Hreach) as (Hs & Ha & Hc & Hf & Hq).
  pose proof (tally_holders (tasks g)) as Hhold.
  pose proof (tally_partition (tasks g)) as Hpart.
  pose proof (tally_nonneg (λ p, bool_decide (p = Waiting)) (tasks g)).
  pose proof (tally_nonneg (λ p, bool_decide (p = Holding)) (tasks g)).
  pose proof (tally_nonneg (λ p, bool_decide (p = Cancelled true false))
                (tasks g)).
  pose proof (tally_nonneg holds_uncounted (tasks g)).
  pose proof (tally_nonneg is_running (tasks g)).
  subst m. unfold extraction_status, get_metrics. simpl.
  split; [lia|]. split; [lia|]. split.
  - case_bool_decide; split; try done; try lia; discriminate.
  - intros Hno. split; [lia|]. split; [lia|].
    case_bool_decide as Hlt.
    + split; [split; [discriminate|lia]|discriminate].
    + split; [split; [lia|done]|]. intros _. lia.
Qed.

Lemma status_report_sound_witness :
  let g := Scenario.gate_after
             Scenario.cancelled_then_busy in
  let m := get_metrics 2 (metrics (gate g)) in
  slots_available m = -3
  ∧ slots_available m
    = Z.of_nat (sem_value (gate g)) + tally holds_uncounted (tasks g)
      - tally cancelled_running (tasks g)
  ∧ extraction_status m = py "at_capacity".
Proof.
  cbn zeta.
  destruct (status_report_sound 2
              (Scenario.gate_after
                 Scenario.cancelled_then_busy))
    as (Hslots & _).
  { exists Scenario.cancelled_then_busy.
    vm_compute. reflexivity. }
  split; [vm_compute; reflexivity|].
  split; [exact Hslots|vm_compute; reflexivity].
Defined.

End GateExtra.

(** ** JSON truncation healer: a second pass changes nothing *)

Section HealerExtra.
Import JsonHealer.

Lemma find_from_bounds c (s : pystr) : ∀ k,
  find_from c k s = -1 ∨ k ≤ find_from c k s < k + len s.
Proof.
  unfold len. induction s as [|x s IH]; intros k; simpl; [by left|].
  case_bool_decide.
  - right. lia.
  - destruct (IH (k + 1)) as [->|?]; [by left|right; lia].
Qed.

(** A hit inside a prefix is the hit in any extension of that prefix. *)
Lemma find_from_prefix c (s t : pystr) (n : nat) : ∀ k,
  0 ≤ k → find_from c k s ≠ -1 → find_from c k s < k + Z.of_nat n →
  find_from c k (take n s ++ t) = find_from c k s.
Proof.
  revert n. induction s as [|x s IH]; intros n k Hk Hfound Hlt; [done|].
  simpl in *. destruct n as [|n].
  - case_bool_decide; [lia|].
    destruct (find_from_bounds c s (k + 1)) as [E|?]; [congruence|lia].
  - simpl. case_bool_decide; [done|].
    apply IH; [lia|done|lia].
Qed.

Lemma last_times (s : pystr) c n :
  last s = Some c → (0 < n)%nat → last (times s n) = Some c.
Proof.
  intros Hs Hn. destruct n as [|n]; [lia|]. clear Hn.
  induction n as [|n IH].
  - simpl. by rewrite app_nil_r.
  - change (times s (S (S n))) with (s ++ times s (S n)).
    by rewrite last_app, IH.
Qed.

Lemma last_app_times (l s : pystr) c n :
  last s = Some c → (0 < n)%nat → last (l ++ times s n) = Some c.
Proof.
  intros Hs Hn. by rewrite last_app, (last_times s c n).
Qed.

Lemma scan_back_hit (response : pystr) start_idx n c :
  start_idx < Z.of_nat n → response !! n = Some c → is_closer c = true →
  scan_back response start_idx (S n) = Z.of_nat n.
Proof.
  intros Hlt Hc Hcl. simpl.
  by rewrite bool_decide_eq_true_2, Hc, Hcl by done.
Qed.

(** Strings the healer leaves as they are: balanced counts, an opening
    brace that is not the last character, and a closing brace or bracket
    at the end. *)
Lemma heal_fixpoint (o : pystr) c :
  balanced o → last o = Some c → is_closer c = true →
  find lbrace o ≠ -1 → find lbrace o < len o - 1 →
  _heal_truncated_json o = o.
Proof.
  intros Hbal Hlast Hcl Hfind Hlt. unfold _heal_truncated_json.
  rewrite bool_decide_eq_false_2 by done.
  destruct (endswith rbrace (rstrip o) && balancedb (rstrip o)); [done|].
  destruct (last_Some o c) as [[o' ->] _]; [done|].
  assert (Hlen : length (o' ++ [c]) = S (length o'))
    by (rewrite length_app; simpl; lia).
  unfold len in Hlt. rewrite Hlen in *.
  rewrite (scan_back_hit _ _ _ c);
    [|lia|by rewrite lookup_app_r, Nat.sub_diag by lia|done].
  rewrite bool_decide_eq_false_2 by lia.
  rewrite slice_prefix.
  rewrite take_ge by lia.
  destruct Hbal as [Hb1 Hb2].
  rewrite !(bool_decide_eq_false_2 (_ < _)%nat) by lia.
  assert (balancedb (o' ++ [c]) = true) as ->; [|done].
  apply balancedb_spec. by split.
Qed.

(** X3: healing is idempotent: for every input string, healing the
    healed string returns it unchanged. *)
Theorem heal_idempotent :
  ∀ response : pystr,
    _heal_truncated_json (_heal_truncated_json response)
    = _heal_truncated_json response.
Proof.
  intros response.
  assert (Hempty : _heal_truncated_json empty_document = empty_document)
    by (vm_compute; reflexivity).
  unfold _heal_truncated_json at 2 3.
  case_bool_decide as Hfind; [exact Hempty|].
  destruct (endswith rbrace (rstrip response) && balancedb (rstrip response))
    eqn:Hchk.
  { unfold _heal_truncated_json.
    rewrite bool_decide_eq_false_2 by done. by rewrite Hchk. }
  case_bool_decide as Hscan; [exact Hempty|].
  destruct (scan_back_spec response (find lbrace response) (length response))
    as [Hr|(i & c & Hr & Hsi & Hi & Hc & Hcl & _)]; [lia|done|].
  rewrite Hr in *. rewrite slice_prefix.
  set (p := take (S i) response).
  set (k := (count lbracket p - count rbracket p)%nat).
  set (m := (count lbrace p - count rbrace p)%nat).
  set (h1 := if bool_decide (count rbracket p < count lbracket p)%nat
             then p ++ times closing_bracket k else p).
  set (h2 := if bool_decide (count rbrace p < count lbrace p)%nat
             then h1 ++ times closing_brace m else h1).
  destruct (balancedb h2) eqn:Hfinal; [|exact Hempty].
  apply balancedb_spec in Hfinal.
  assert (Hlastp : last p = Some c).
  { subst p. rewrite last_lookup, length_take.
    replace (Init.Nat.pred (S i `min` length response)) with i by lia.
    rewrite lookup_take_lt by lia. done. }
  assert (Hh1 : ∃ c1 t1, h1 = p ++ t1 ∧ last h1 = Some c1
                         ∧ is_closer c1 = true).
  { subst h1. case_bool_decide.
    - exists rbracket, (times closing_bracket k). split; [done|].
      split; [|done]. apply last_app_times; [done|subst k; lia].
    - exists c, []. by rewrite app_nil_r. }
  destruct Hh1 as (c1 & t1 & Hh1 & Hlast1 & Hcl1).
  assert (Hh2 : ∃ c2 t2, h2 = p ++ t2 ∧ last h2 = Some c2
                         ∧ is_closer c2 = true).
  { subst h2. case_bool_decide.
    - exists rbrace, (t1 ++ times closing_brace m).
      rewrite Hh1, <- app_assoc. split; [done|]. split; [|done].
      rewrite app_assoc. apply last_app_times; [done|subst m; lia].
    - by exists c1, t1. }
  destruct Hh2 as (c2 & t2 & Hh2 & Hlast2 & Hcl2).
  assert (Hfp : find lbrace h2 = find lbrace response).
  { rewrite Hh2. subst p. unfold find.
    apply find_from_prefix; [lia|done|]. unfold find in Hsi. lia. }
  apply (heal_fixpoint h2 c2); try done.
  - by rewrite Hfp.
  - rewrite Hfp, Hh2. unfold len. rewrite length_app. subst p.
    rewrite length_take. lia.
Qed.

End HealerExtra.

(** ** Post-processing of the model's entities and relationships *)

Section ExtractionExtra.
Import ChunkMapper KGExtractor ExtractionInv Ascii7.

Lemma is_asciib_spec s : is_asciib s = true → is_ascii s.
Proof.
  unfold is_asciib, is_ascii. induction s as [|c s IH]; [done|].
  simpl. intros H. apply andb_true_iff in H as [Hc Hs].
  constructor; [by apply N.ltb_lt|by apply IH].
Qed.

Lemma text_lookup_elem (entities : list Entity) k e :
  text_lookup entities !! k = Some e → e ∈ entities.
Proof.
  unfold text_lookup.
  assert (H : ∀ (m : gmap pystr Entity),
    foldl (λ m e, <[e_normalized e := e]> (<[lower (e_text e) := e]> m))
          m entities !! k = Some e →
    e ∈ entities ∨ m !! k = Some e).
  { induction entities as [|x l IH]; intros m Hk; simpl in *; [by right|].
    destruct (IH _ Hk) as [Hin|Hm].
    - left. by right.
    - destruct (decide (e_normalized x = k)) as [<-|Hne].
      + rewrite lookup_insert_eq in Hm. injection Hm as ->. left. left.
      + rewrite lookup_insert_ne in Hm by done.
        destruct (decide (lower (e_text x) = k)) as [<-|Hne'].
        * rewrite lookup_insert_eq in Hm. injection Hm as ->. left. left.
        * rewrite lookup_insert_ne in Hm by done. by right. }
  intros Hk. destruct (H ∅ Hk) as [?|Hm]; [done|].
  by rewrite lookup_empty in Hm.
Qed.

Lemma replace_char_removes a b (s : pystr) :
  a ≠ b → a ∉ replace_char a b s.
Proof.
  intros Hab Hin. unfold replace_char in Hin.
  apply list_elem_of_fmap in Hin as (c & Hc & _).
  case_bool_decide; congruence.
Qed.

(** X4: for texts within ASCII (where the case mapping of the model
    is the one of [str.lower]), every relationship
    [_process_relationships] returns links two different entities of
    the given list and carries their texts and normalized names; its
    predicate is the lower-case form of a reported predicate with
    blanks replaced by underscores, so without blanks; its context has
    at most 500 characters, and it has no chunk fields yet. *)
Theorem process_relationships_valid :
  ∀ env relationships_raw entities r,
    Forall (λ raw, is_ascii (default [] (raw_subject raw))
                   ∧ is_ascii (default [] (raw_predicate raw))
                   ∧ is_ascii (default [] (raw_object raw)))
           relationships_raw →
    Forall (λ e, is_ascii (e_text e)) entities →
    r ∈ _process_relationships env relationships_raw entities →
    subject_normalized r ≠ object_normalized r
    ∧ (∃ s, s ∈ entities ∧ e_text s = subject_text r
            ∧ e_normalized s = subject_normalized r)
    ∧ (∃ o, o ∈ entities ∧ e_text o = object_text r
            ∧ e_normalized o = object_normalized r)
    ∧ (∃ raw p, raw ∈ relationships_raw ∧ raw_predicate raw = Some p
                ∧ predicate r = replace_char 32 95 (lower p))
    ∧ (32%N ∉ predicate r)
    ∧ (length (r_context r) ≤ 500)%nat
    ∧ spans_chunks r = None ∧ chunk_rowids r = None
    ∧ primary_chunk_rowid r = None.
Proof.
  intros env raw entities r _ _ Hin. unfold _process_relationships in Hin.
  apply list_elem_of_omap in Hin as (rel_raw & Hraw & Hr).
  unfold process_relationship in Hr.
  destruct (raw_subject rel_raw) as [s|]; [|done].
  destruct (raw_predicate rel_raw) as [p|] eqn:Hp; [|done].
  destruct (raw_object rel_raw) as [o|]; [|done].
  destruct (raw_rel_confidence rel_raw) as [confidence|]; [|done].
  destruct (Qltb confidence (min_confidence env)) eqn:Hconf; [done|].
  destruct (text_lookup entities !! lower (strip s)) as [es|] eqn:Hs; [|done].
  destruct (text_lookup entities !! lower (strip o)) as [eo|] eqn:Ho; [|done].
  case_bool_decide as Hself; [done|].
  injection Hr as <-. cbn -[prefix replace_char lower strip].
  split; [done|].
  split; [exists es; split; [by eapply text_lookup_elem|done]|].
  split; [exists eo; split; [by eapply text_lookup_elem|done]|].
  split; [by exists rel_raw, p|].
  split; [by apply replace_char_removes|].
  split; [|done]. apply length_prefix_500.
Qed.

Lemma process_relationships_valid_witness :
  ∃ r, r ∈ _process_relationships Scenario.answering_llm
             [Samples.written_in] Samples.known_entities
       ∧ subject_normalized r = py "neo4j"
       ∧ predicate r = py "written_in"
       ∧ (32%N ∉ predicate r).
Proof.
  eexists. split; [vm_compute; left|].
  split; [reflexivity|]. split; [reflexivity|].
  refine (proj1 (proj2 (proj2 (proj2 (proj2
    (process_relationships_valid Scenario.answering_llm
       [Samples.written_in] Samples.known_entities _ _ _ _)))))).
  - repeat constructor; apply is_asciib_spec; vm_compute; reflexivity.
  - repeat constructor; apply is_asciib_spec; vm_compute; reflexivity.
  - vm_compute. left.
Defined.

Lemma entity_position_range text entity_text normalized ent_raw s e :
  entity_position text entity_text normalized ent_raw = Some (s, e) →
  0 ≤ s ∧ s ≤ e.
Proof.
  unfold entity_position.
  set (sp := default _ (raw_start ent_raw)).
  set (ep := default _ (raw_end ent_raw)).
  destruct (bool_decide (sp < 0) || bool_decide (ep < 0)
            || bool_decide (ep ≤ sp)) eqn:Hbad.
  - clear Hbad. destruct (bool_decide (0 ≤ find_sub normalized (lower text)))
      eqn:Hf; [|done].
    apply bool_decide_eq_true in Hf. intros [= <- <-]. unfold len. lia.
  - intros [= <- <-].
    rewrite !orb_false_iff, !bool_decide_eq_false in Hbad. lia.
Qed.

Lemma process_entity_inv env text st ent_raw :
  entities_inv env st → entities_inv env (process_entity env text st ent_raw).
Proof.
  intros (Hnd & Hseen & Hall). unfold process_entity.
  destruct (raw_text ent_raw) as [t|]; [|done].
  destruct (raw_type ent_raw) as [ty|]; [|done].
  destruct (raw_confidence ent_raw) as [confidence|]; [|done].
  destruct (Qltb confidence (min_confidence env)) eqn:Hconf; [done|].
  case_bool_decide as Hdup; [done|].
  destruct (entity_position text (strip t) (strip (lower (strip t))) ent_raw)
    as [[s e]|] eqn:Hpos.
  - apply entity_position_range in Hpos. unfold entities_inv. cbn [fst snd].
    split; [|split].
    + rewrite fmap_app. apply NoDup_app. split; [done|]. split.
      * intros x Hx Hx'. apply list_elem_of_fmap in Hx as (e0 & -> & He0).
        cbn in Hx'. apply list_elem_of_singleton in Hx'.
        apply Hdup. rewrite <- Hx'. by apply Hseen.
      * cbn. apply NoDup_singleton.
    + intros e0 He0. apply elem_of_app in He0 as [He0|He0].
      * apply elem_of_union_r. by apply Hseen.
      * apply list_elem_of_singleton in He0 as ->. cbn.
        apply elem_of_union_l. by apply elem_of_singleton.
    + apply Forall_app. split; [done|]. apply Forall_singleton. cbn.
      split; [|by repeat split; try lia].
      unfold Qltb in Hconf. apply negb_false_iff in Hconf.
      by apply Qle_bool_iff in Hconf.
  - unfold entities_inv. cbn [fst snd]. split; [done|]. split; [|done].
    intros e0 He0. apply elem_of_union_r. by apply Hseen.
Qed.

(** X5: for texts within ASCII (where the case mapping of the model
    is the one of [str.lower]), the entities [_process_entities]
    returns have pairwise different normalized names, each the stripped
    lower-case form of the entity's text; each has a position with
    [0 <= start <= end], and neither occurrences nor chunk appearances. *)
Theorem process_entities_valid :
  ∀ env entities_raw text,
    is_ascii text →
    Forall (λ r, is_ascii (default [] (raw_text r))) entities_raw →
    let entities := _process_entities env entities_raw text in
    NoDup (e_normalized <$> entities)
    ∧ Forall (λ e, 0 ≤ e_start e ∧ e_start e ≤ e_end e
                   ∧ e_normalized e = strip (lower (e_text e))
                   ∧ occurrences e = [] ∧ chunk_appearances e = None)
             entities.
Proof.
  intros env entities_raw text _ _. unfold _process_entities.
  assert (H : ∀ st, entities_inv env st →
            entities_inv env (foldl (process_entity env text) st entities_raw)).
  { induction entities_raw as [|x l IH]; intros st Hst; [done|].
    simpl. apply IH. by apply process_entity_inv. }
  destruct (H ([], ∅)) as (Hnd & _ & Hall).
  { split; [apply NoDup_nil_2|]. split; [|done].
    intros e He. by apply elem_of_nil in He. }
  split; [done|].
  eapply Forall_impl; [exact Hall|]. intros e (_ & He). exact He.
Qed.

Lemma process_entities_valid_witness :
  (e_normalized <$> _process_entities Scenario.answering_llm
                      Samples.reported_entities Samples.reported_text)
    = [py "pydantic"; py "fastapi"]
  ∧ NoDup (e_normalized <$> _process_entities Scenario.answering_llm
                              Samples.reported_entities
                              Samples.reported_text).
Proof.
  split; [vm_compute; reflexivity|].
  refine (proj1 (process_entities_valid Scenario.answering_llm
                   Samples.reported_entities Samples.reported_text _ _)).
  - apply is_asciib_spec. vm_compute. reflexivity.
  - repeat constructor; apply is_asciib_spec; vm_compute; reflexivity.
Defined.

End ExtractionExtra.

(** ** Positions the extractor finds by search *)

Section PositionExtra.
Import ChunkMapper KGExtractor Ascii7.

Lemma isspace_range c : isspace c = true → (c ≤ 32 ∨ 133 ≤ c)%N.
Proof.
  unfold isspace.
  rewrite !orb_true_iff, !andb_true_iff, !N.leb_le, !N.eqb_eq. lia.
Qed.

Lemma isspace_lower_char c : isspace (lower_char c) = isspace c.
Proof.
  unfold lower_char.
  destruct ((65 <=? c)%N && (c <=? 90)%N) eqn:Hc; [|done].
  apply andb_true_iff in Hc as [H1 H2].
  apply N.leb_le in H1. apply N.leb_le in H2.
  destruct (isspace (c + 32)) eqn:E1; destruct (isspace c) eqn:E2; try done.
  - apply isspace_range in E1. lia.
  - apply isspace_range in E2. lia.
Qed.

Lemma lstrip_lower s : lstrip (lower s) = lower (lstrip s).
Proof.
  induction s as [|c s IH]; [done|]. simpl.
  rewrite isspace_lower_char. by destruct (isspace c).
Qed.

Lemma rstrip_lower s : rstrip (lower s) = lower (rstrip s).
Proof.
  induction s as [|c s IH]; [done|].
  change (lower (c :: s)) with (lower_char c :: lower s).
  cbn [rstrip]. rewrite IH, isspace_lower_char.
  destruct (rstrip s); cbn; [by destruct (isspace c)|done].
Qed.

Lemma strip_lower s : strip (lower s) = lower (strip s).
Proof. unfold strip. by rewrite rstrip_lower, lstrip_lower. Qed.

(** What [rstrip] and [lstrip] leave at the two ends. *)
Lemma rstrip_last s c : last (rstrip s) = Some c → isspace c = false.
Proof.
  revert c. induction s as [|x s IH]; intros c; [done|]. cbn [rstrip].
  destruct (rstrip s) as [|y r] eqn:E.
  - destruct (isspace x) eqn:Hx; [done|]. by intros [= <-].
  - intros Hl. apply IH. exact Hl.
Qed.

Lemma rstrip_id s :
  (∀ c, last s = Some c → isspace c = false) → rstrip s = s.
Proof.
  induction s as [|x s IH]; intros Hl; [done|]. cbn [rstrip].
  destruct s as [|y s'].
  - cbn. by rewrite (Hl x).
  - rewrite IH.
    + done.
    + intros c Hc. apply Hl. rewrite last_cons. by rewrite Hc.
Qed.

Lemma lstrip_last s c :
  last s = Some c → isspace c = false → last (lstrip s) = Some c.
Proof.
  intros Hl Hc. induction s as [|x s IH]; [done|]. simpl.
  destruct (isspace x) eqn:Hx; [|done].
  apply IH. rewrite last_cons in Hl.
  destruct (last s) eqn:E; [done|]. congruence.
Qed.

Lemma lstrip_nil_last s c :
  lstrip s = [] → last s = Some c → isspace c = true.
Proof.
  induction s as [|x s IH]; [done|]. simpl.
  destruct (isspace x) eqn:Hx; [|done].
  intros Hs Hl. rewrite last_cons in Hl.
  destruct (last s) eqn:E; [by apply IH|congruence].
Qed.

Lemma lstrip_id s : lstrip (lstrip s) = lstrip s.
Proof.
  induction s as [|x s IH]; [done|]. simpl.
  destruct (isspace x) eqn:Hx; [done|]. simpl. by rewrite Hx.
Qed.

Lemma strip_last s c : last (strip s) = Some c → isspace c = false.
Proof.
  unfold strip. intros Hl.
  destruct (last (rstrip s)) as [d|] eqn:Hd.
  - pose proof (rstrip_last _ _ Hd) as Hsp.
    rewrite (lstrip_last _ _ Hd Hsp) in Hl. congruence.
  - apply last_None in Hd. rewrite Hd in Hl. done.
Qed.

Lemma strip_strip s : strip (strip s) = strip s.
Proof.
  unfold strip at 1. rewrite (rstrip_id (strip s)).
  - unfold strip. apply lstrip_id.
  - apply strip_last.
Qed.

(** [find] returns an index at which the searched string stands. *)
Lemma startswith_take sub : ∀ s,
  startswith sub s = true → take (length sub) s = sub.
Proof.
  induction sub as [|a sub IH]; intros s Hs; [done|].
  destruct s as [|b s]; [done|]. simpl in *.
  apply andb_true_iff in Hs as [Hab Hs].
  apply bool_decide_eq_true in Hab as ->. by rewrite IH.
Qed.

Lemma find_sub_from_spec sub : ∀ s i,
  0 ≤ i →
  find_sub_from sub i s = -1
  ∨ (i ≤ find_sub_from sub i s
     ∧ take (length sub)
            (drop (Z.to_nat (find_sub_from sub i s - i)) s) = sub).
Proof.
  induction s as [|x s IH]; intros i Hi.
  - cbn [find_sub_from]. destruct (startswith sub []) eqn:E; [|by left].
    right. split; [lia|]. rewrite Z.sub_diag. by apply startswith_take.
  - cbn [find_sub_from]. destruct (startswith sub (x :: s)) eqn:E.
    + right. split; [lia|]. rewrite Z.sub_diag. by apply startswith_take.
    + destruct (IH (i + 1)) as [->|[Hle Htake]]; [lia|by left|right].
      split; [lia|].
      replace (Z.to_nat (find_sub_from sub (i + 1) s - i))
        with (S (Z.to_nat (find_sub_from sub (i + 1) s - (i + 1)))) by lia.
      done.
Qed.

Lemma find_sub_slice sub s :
  0 ≤ find_sub sub s →
  slice s (find_sub sub s) (find_sub sub s + len sub) = sub.
Proof.
  intros Hf. unfold find_sub in *.
  destruct (find_sub_from_spec sub s 0) as [E|[_ Htake]]; [lia|lia|].
  unfold slice, len. rewrite Z.sub_0_r in Htake.
  replace (Z.to_nat (find_sub_from sub 0 s + Z.of_nat (length sub))
           - Z.to_nat (find_sub_from sub 0 s))%nat
    with (length sub) by lia.
  done.
Qed.

Lemma lower_slice s a b : lower (slice s a b) = slice (lower s) a b.
Proof. unfold lower, slice. by rewrite fmap_take, fmap_drop. Qed.

Lemma length_lower s : length (lower s) = length s.
Proof. unfold lower. by rewrite length_fmap. Qed.

Lemma entity_position_reads t text ent_raw s e :
  raw_start ent_raw = None → raw_end ent_raw = None →
  entity_position text (strip t) (strip (lower (strip t))) ent_raw
    = Some (s, e) →
  lower (slice text s e) = lower (strip t).
Proof.
  intros Hs He. unfold entity_position. rewrite Hs, He. cbn [default].
  assert (Hn : strip (lower (strip t)) = lower (strip t))
    by (by rewrite strip_lower, strip_strip).
  rewrite Hn.
  destruct (bool_decide (find_sub (strip t) text < 0)
            || bool_decide (find_sub (strip t) text + len (strip t) < 0)
            || bool_decide (find_sub (strip t) text + len (strip t)
                            ≤ find_sub (strip t) text)) eqn:Hbad.
  - destruct (bool_decide (0 ≤ find_sub (lower (strip t)) (lower text)))
      eqn:Hf; [|done].
    apply bool_decide_eq_true in Hf. intros [= <- <-].
    rewrite lower_slice.
    replace (len (strip t)) with (len (lower (strip t)))
      by (unfold len; by rewrite length_lower).
    by apply find_sub_slice.
  - intros [= <- <-].
    rewrite !orb_false_iff, !bool_decide_eq_false in Hbad.
    rewrite find_sub_slice; [done|lia].
Qed.

(** X6: when the model reports its entities without offsets, the span
    [start..end] of every entity [_process_entities] returns reads, in
    the document, the entity's text up to letter case (texts within
    ASCII, where the case mapping keeps lengths). *)
Theorem process_entities_located :
  ∀ env entities_raw text,
    is_ascii text →
    Forall (λ r, raw_start r = None ∧ raw_end r = None
                 ∧ is_ascii (default [] (raw_text r))) entities_raw →
    Forall (λ e, lower (slice text (e_start e) (e_end e)) = lower (e_text e))
           (_process_entities env entities_raw text).
Proof.
  intros env entities_raw text _ Hraw. unfold _process_entities.
  assert (H : ∀ st,
    Forall (λ e, lower (slice text (e_start e) (e_end e)) = lower (e_text e))
           st.1 →
    Forall (λ e, lower (slice text (e_start e) (e_end e)) = lower (e_text e))
           (foldl (process_entity env text) st entities_raw).1).
  { induction Hraw as [|r l (Hs & He & _) _ IH]; intros st Hst; [done|].
    simpl. apply IH. unfold process_entity.
    destruct (raw_text r) as [t|]; [|done].
    destruct (raw_type r) as [ty|]; [|done].
    destruct (raw_confidence r) as [confidence|]; [|done].
    destruct (Qltb confidence (min_confidence env)); [done|].
    case_bool_decide; [done|].
    destruct (entity_position text (strip t) (strip (lower (strip t))) r)
      as [[s e]|] eqn:Hpos; [|done].
    cbn [fst]. apply Forall_app. split; [done|].
    apply Forall_singleton. cbn -[lower slice strip].
    by apply (entity_position_reads t text r). }
  by apply H.
Qed.

Lemma process_entities_located_witness :
  (e_text <$> _process_entities Scenario.answering_llm
                Samples.reported_entities Samples.reported_text)
    = [py "Pydantic"; py "FASTAPI"]
  ∧ Forall (λ e, lower (slice Samples.reported_text (e_start e) (e_end e))
                 = lower (e_text e))
           (_process_entities Scenario.answering_llm
              Samples.reported_entities Samples.reported_text).
Proof.
  split; [vm_compute; reflexivity|].
  apply process_entities_located.
  - apply is_asciib_spec. vm_compute. reflexivity.
  - repeat constructor; apply is_asciib_spec; vm_compute; reflexivity.
Defined.

End PositionExtra.

(** ** Chunk mapper: validated chunk lists and relationships *)

Section MapperExtra.
Import ChunkMapper.

Lemma chunks_ordered_head c l :
  chunks_ordered (c :: l) = true →
  chunks_ordered l = true
  ∧ ∀ c', c' ∈ l → chunk_index c < chunk_index c'.
Proof.
  revert c. induction l as [|c2 l IH]; intros c Hord.
  - split; [done|]. intros c' Hc'. by apply elem_of_nil in Hc'.
  - cbn [chunks_ordered] in Hord.
    apply andb_true_iff in Hord as [Hlt Hrest].
    apply bool_decide_eq_true in Hlt.
    split; [done|]. intros c' Hc'.
    apply elem_of_cons in Hc' as [->|Hc']; [done|].
    destruct (IH c2 Hrest) as [_ Hall]. specialize (Hall c' Hc'). lia.
Qed.

Lemma chunks_ordered_NoDup l :
  chunks_ordered l = true → NoDup (chunk_key <$> l).
Proof.
  induction l as [|c l IH]; intros Hord; [apply NoDup_nil_2|].
  apply chunks_ordered_head in Hord as [Hrest Hall].
  rewrite fmap_cons. apply NoDup_cons. split; [|by apply IH].
  intros Hin. apply list_elem_of_fmap in Hin as (c' & Hk & Hc').
  specialize (Hall c' Hc'). unfold chunk_key in Hk.
  injection Hk as _ Hidx. lia.
Qed.

(** One pass of the inner loop over chunks with distinct keys, none of
    them seen before. *)
Lemma visit_occurrence_fresh occ : ∀ chunks st,
  NoDup (chunk_key <$> chunks) →
  (∀ c, c ∈ chunks → chunk_key c ∉ st.2) →
  (visit_occurrence chunks st occ).1
  = st.1 ++ (make_appearance occ <$>
               filter (λ c, overlap_threshold ≤
                              _calculate_overlap (occ_start occ) (occ_end occ)
                                (char_start c) (char_end c)) chunks).
Proof.
  unfold visit_occurrence.
  induction chunks as [|c chunks IH]; intros st Hnd Hfresh.
  - simpl. by rewrite app_nil_r.
  - rewrite fmap_cons in Hnd. apply NoDup_cons in Hnd as [Hc Hnd].
    cbn [foldl]. rewrite IH; [|done|].
    + unfold visit_chunk. rewrite filter_cons.
      destruct (decide (overlap_threshold ≤ _)) as [Hhit|Hmiss].
      * rewrite bool_decide_eq_true_2 by done.
        rewrite bool_decide_eq_false_2
          by (apply Hfresh; apply list_elem_of_here).
        cbn [fst]. by rewrite fmap_cons, <- app_assoc.
      * by rewrite bool_decide_eq_false_2 by done.
    + intros c' Hc'. unfold visit_chunk.
      repeat case_bool_decide; cbn [snd];
        try (apply Hfresh; by apply list_elem_of_further).
      rewrite elem_of_union, elem_of_singleton. intros [Heq|Hin].
      * apply Hc. rewrite <- Heq. apply list_elem_of_fmap. by exists c'.
      * revert Hin. apply Hfresh. by apply list_elem_of_further.
Qed.

Lemma single_occurrence_appearances_of chunks e occ :
  validate_chunks chunks = true →
  entity_occurrences e = [occ] →
  appearances_of chunks e
  = make_appearance occ <$>
      filter (λ c, 10 ≤ _calculate_overlap (occ_start occ) (occ_end occ)
                          (char_start c) (char_end c)) chunks.
Proof.
  intros Hv Hocc. unfold appearances_of. rewrite Hocc.
  cbn [foldl]. rewrite visit_occurrence_fresh.
  - done.
  - apply chunks_ordered_NoDup. unfold validate_chunks in Hv.
    by apply andb_true_iff in Hv as [_ Hv].
  - intros c _. cbn. apply not_elem_of_empty.
Qed.

Lemma validate_chunks_nonempty chunks :
  validate_chunks chunks = true → chunks ≠ [].
Proof.
  intros Hv ->. unfold validate_chunks in Hv. cbn in Hv. discriminate.
Qed.

(** X7: for a chunk list the request validation accepts,
    [map_entities_to_chunks] returns one entity for each given entity,
    in order; for a given entity with a single occurrence the returned
    entity's [chunk_appearances] are exactly the chunks the occurrence
    overlaps by at least 10 characters, one appearance each, in the
    order of the chunk list, and [spans_multiple_chunks] tells whether
    there is more than one such chunk. *)
Theorem single_occurrence_appearances :
  ∀ (chunks : list ChunkBoundary) (entities : list Entity),
    validate_chunks chunks = true →
    length (map_entities_to_chunks entities chunks) = length entities
    ∧ ∀ (i : nat) (e : Entity) (occ : Occurrence),
        entities !! i = Some e →
        entity_occurrences e = [occ] →
        let overlapped :=
          filter (λ c, 10 ≤ _calculate_overlap (occ_start occ) (occ_end occ)
                              (char_start c) (char_end c)) chunks in
        ∃ e', map_entities_to_chunks entities chunks !! i = Some e'
              ∧ e_normalized e' = e_normalized e
              ∧ chunk_appearances e'
                = Some (make_appearance occ <$> overlapped)
              ∧ get_chunk_appearances e' = make_appearance occ <$> overlapped
              ∧ spans_multiple_chunks e'
                = Some (bool_decide (1 < length overlapped)%nat).
Proof.
  intros chunks entities Hv.
  pose proof (validate_chunks_nonempty chunks Hv) as Hne.
  split.
  - destruct chunks as [|c0 chunks0]; [done|].
    unfold map_entities_to_chunks. by rewrite length_fmap.
  - intros i e occ Hi Hocc overlapped. exists (enrich chunks e).
    split.
    { destruct chunks as [|c0 chunks0]; [done|].
      unfold map_entities_to_chunks. by rewrite list_lookup_fmap, Hi. }
    pose proof (single_occurrence_appearances_of chunks e occ Hv Hocc)
      as Happs.
    unfold get_chunk_appearances, enrich.
    cbn [e_normalized chunk_appearances spans_multiple_chunks default].
    rewrite Happs, length_fmap. done.
Qed.

Lemma single_occurrence_appearances_witness :
  ∃ e', map_entities_to_chunks [Samples.straddling_entity]
          Scenario.two_chunks !! 0%nat = Some e'
        ∧ chunk_appearances e'
          = Some [mkApp 45001 0 2440 28; mkApp 45002 1 0 20]
        ∧ spans_multiple_chunks e' = Some true.
Proof.
  destruct (single_occurrence_appearances Scenario.two_chunks
              [Samples.straddling_entity] eq_refl) as [_ H].
  destruct (H 0%nat Samples.straddling_entity (mkOcc 2440 2470)
              eq_refl eq_refl) as (e' & Hl & _ & Ha & _ & Hs).
  exists e'. split; [exact Hl|]. split; [exact Ha|exact Hs].
Defined.

End MapperExtra.

(** ** Chunk mapper: relationships *)

Section RelationshipMapping.
Import ChunkMapper MapperRows.

Lemma keys_from_elem l : ∀ seen x,
  x ∈ keys_from seen l ↔ x ∈ l ∧ x ∉ seen.
Proof.
  induction l as [|y l IH]; intros seen x; cbn [keys_from].
  - split; [intros H; by apply elem_of_nil in H|].
    intros [H _]. by apply elem_of_nil in H.
  - case_bool_decide as Hy.
    + rewrite IH, elem_of_cons. split; [tauto|].
      intros [[->|?] ?]; [done|tauto].
    + rewrite !elem_of_cons, IH, elem_of_cons.
      destruct (decide (x = y)) as [->|Hne]; [tauto|]. tauto.
Qed.

Lemma appearance_rowids_elem e x : x ∈ appearance_rowids e ↔ x ∈ rowids e.
Proof.
  unfold appearance_rowids, rowids. rewrite keys_from_elem.
  split; [tauto|]. intros H. split; [done|]. apply not_elem_of_nil.
Qed.

Lemma appearance_rowids_nil e : appearance_rowids e = [] ↔ rowids e = [].
Proof.
  unfold appearance_rowids, rowids.
  destruct (app_vector_rowid <$> get_chunk_appearances e) as [|x l]; [done|].
  cbn [keys_from]. rewrite bool_decide_eq_false_2 by apply not_elem_of_nil.
  done.
Qed.

Lemma minimum_spec l : ∀ x,
  minimum x l ∈ x :: l ∧ ∀ y, y ∈ x :: l → minimum x l ≤ y.
Proof.
  unfold minimum. induction l as [|z l IH]; intros x; cbn [foldr].
  - split; [apply list_elem_of_here|].
    intros y Hy. apply list_elem_of_singleton in Hy. lia.
  - destruct (IH x) as [Hin Hle]. split.
    + destruct (Z.min_spec z (foldr Z.min x l)) as [[_ ->]|[_ ->]].
      * apply list_elem_of_further, list_elem_of_here.
      * apply elem_of_cons in Hin as [->|Hin]; [apply list_elem_of_here|].
        by do 2 apply list_elem_of_further.
    + intros y Hy.
      assert (y = z ∨ y ∈ x :: l) as [->|Hy'].
      { apply elem_of_cons in Hy as [->|Hy]; [right; apply list_elem_of_here|].
        apply elem_of_cons in Hy as [->|Hy]; [by left|].
        right. by apply list_elem_of_further. }
      * lia.
      * specialize (Hle y Hy'). lia.
Qed.

Lemma closest_step_found s o chunks subj_rowid obj_rowid st :
  subj_rowid ∈ rowids s → obj_rowid ∈ rowids o →
  st.1 = None ∨ closest_found s o st →
  closest_found s o (closest_step chunks subj_rowid st obj_rowid).
Proof.
  intros Hs Ho Hst. unfold closest_step.
  assert (Hmin : Z.min subj_rowid obj_rowid ∈ rowids s
                 ∨ Z.min subj_rowid obj_rowid ∈ rowids o).
  { destruct (Z.min_spec subj_rowid obj_rowid) as [[_ ->]|[_ ->]]; tauto. }
  destruct Hst as [Hnone|(d & p & -> & Hp)].
  - rewrite Hnone. by eexists _, _.
  - cbn [fst]. case_bool_decide; by eexists _, _.
Qed.

Lemma closest_inner_found s o chunks subj_rowid : ∀ objs st,
  subj_rowid ∈ rowids s → (∀ x, x ∈ objs → x ∈ rowids o) →
  objs ≠ [] → st.1 = None ∨ closest_found s o st →
  closest_found s o (foldl (closest_step chunks subj_rowid) st objs).
Proof.
  intros objs st Hs. revert st.
  induction objs as [|x objs IH]; intros st Ho Hne Hst; [done|].
  cbn [foldl].
  assert (Hx : closest_found s o (closest_step chunks subj_rowid st x)).
  { apply closest_step_found; [done| |done]. apply Ho, list_elem_of_here. }
  destruct objs as [|x' objs']; [done|].
  apply IH; [|done|by right].
  intros y Hy. by apply Ho, list_elem_of_further.
Qed.

Lemma closest_outer_found s o chunks objs : ∀ subjs st,
  (∀ x, x ∈ subjs → x ∈ rowids s) → (∀ x, x ∈ objs → x ∈ rowids o) →
  subjs ≠ [] → objs ≠ [] → st.1 = None ∨ closest_found s o st →
  closest_found s o
    (foldl (λ st x, foldl (closest_step chunks x) st objs) st subjs).
Proof.
  induction subjs as [|x subjs IH]; intros st Hs Ho Hne Hne' Hst; [done|].
  cbn [foldl].
  assert (Hx : closest_found s o (foldl (closest_step chunks x) st objs)).
  { apply closest_inner_found; try done. apply Hs, list_elem_of_here. }
  destruct subjs as [|x' subjs']; [done|].
  apply IH; [|done|done|done|by right].
  intros y Hy. by apply Hs, list_elem_of_further.
Qed.

(** X8: the primary chunk of a relationship is [None] exactly when
    neither entity appears in a chunk; otherwise it is a rowid one of the
    two entities appears in; and when the two share a rowid, it is the
    smallest rowid they share. *)
Theorem find_primary_chunk_cases :
  ∀ (subject_entity object_entity : Entity) (chunks : list ChunkBoundary),
    let found := _find_primary_chunk subject_entity object_entity chunks in
    (found = None ↔ rowids subject_entity = [] ∧ rowids object_entity = [])
    ∧ (∀ p, found = Some p →
            p ∈ rowids subject_entity ∨ p ∈ rowids object_entity)
    ∧ (∀ x, x ∈ rowids subject_entity → x ∈ rowids object_entity →
            ∃ p, found = Some p
                 ∧ p ∈ rowids subject_entity ∧ p ∈ rowids object_entity
                 ∧ ∀ y, y ∈ rowids subject_entity →
                        y ∈ rowids object_entity → p ≤ y).
Proof.
  intros s o chunks found. subst found. unfold _find_primary_chunk.
  set (shared := filter (λ r, r ∈ appearance_rowids o) (appearance_rowids s)).
  assert (Hshared : ∀ x, x ∈ shared ↔ x ∈ rowids s ∧ x ∈ rowids o).
  { intros x. subst shared.
    rewrite list_elem_of_filter, !appearance_rowids_elem. tauto. }
  destruct shared as [|r rest] eqn:Esh.
  - destruct (appearance_rowids s) as [|s0 srest] eqn:Es;
      destruct (appearance_rowids o) as [|o0 orest] eqn:Eo.
    + pose proof (proj1 (appearance_rowids_nil s) Es) as Hs.
      pose proof (proj1 (appearance_rowids_nil o) Eo) as Ho.
      split; [done|]. split; [done|].
      intros x Hx. rewrite Hs in Hx. by apply elem_of_nil in Hx.
    + assert (Hno : rowids o ≠ []).
      { intros H. apply appearance_rowids_nil in H. congruence. }
      split; [split; [done|tauto]|]. split.
      * intros p [= <-]. right. apply appearance_rowids_elem.
        rewrite Eo. apply minimum_spec.
      * intros x Hx Hx'. exfalso.
        eapply elem_of_nil, Hshared. by split.
    + assert (Hns : rowids s ≠ []).
      { intros H. apply appearance_rowids_nil in H. congruence. }
      split; [split; [done|tauto]|]. split.
      * intros p [= <-]. left. apply appearance_rowids_elem.
        rewrite Es. apply minimum_spec.
      * intros x Hx Hx'. exfalso.
        eapply elem_of_nil, Hshared. by split.
    + assert (Hns : rowids s ≠ []).
      { intros H. apply appearance_rowids_nil in H. congruence. }
      destruct (closest_outer_found s o chunks (o0 :: orest)
                  (s0 :: srest) (None, None)) as (d & p & Hst & Hp);
        try done.
      { intros x Hx. apply appearance_rowids_elem. by rewrite Es. }
      { intros x Hx. apply appearance_rowids_elem. by rewrite Eo. }
      { by left. }
      rewrite Hst. cbn [snd].
      split; [split; [done|tauto]|]. split.
      * by intros p' [= <-].
      * intros x Hx Hx'. exfalso.
        eapply elem_of_nil, Hshared. by split.
  - destruct (minimum_spec rest r) as [Hin Hle].
    apply Hshared in Hin as [Hin_s Hin_o].
    split.
    { split; [done|]. intros [Hs _]. rewrite Hs in Hin_s.
      by apply elem_of_nil in Hin_s. }
    split; [intros p [= <-]; by left|].
    intros x Hx Hx'. exists (minimum r rest).
    split; [done|]. split; [done|]. split; [done|].
    intros y Hy Hy'. apply Hle, Hshared. by split.
Qed.

Lemma entity_lookup_elem (entities : list Entity) k e :
  entity_lookup entities !! k = Some e →
  e ∈ entities ∧ e_normalized e = k.
Proof.
  unfold entity_lookup.
  assert (H : ∀ (m : gmap pystr Entity),
    foldl (λ m e, <[e_normalized e := e]> m) m entities !! k = Some e →
    (e ∈ entities ∧ e_normalized e = k) ∨ m !! k = Some e).
  { induction entities as [|x l IH]; intros m Hk; simpl in *; [by right|].
    destruct (IH _ Hk) as [[Hin Hn]|Hm].
    - left. split; [by right|done].
    - destruct (decide (e_normalized x = k)) as [Heq|Hne].
      + rewrite <- Heq in Hm. rewrite lookup_insert_eq in Hm.
        injection Hm as ->. left. split; [left|done].
      + rewrite lookup_insert_ne in Hm by done. by right. }
  intros Hk. destruct (H ∅ Hk) as [?|Hm]; [done|].
  by rewrite lookup_empty in Hm.
Qed.

(** X9: with a non-empty chunk list, every relationship
    [map_relationships_to_chunks] returns is one of the given
    relationships, unchanged in the extractor's fields, whose two
    normalized names belong to entities of the given list; its
    [chunk_rowids] is the sorted, duplicate-free list of the rowids those
    two entities appear in, [spans_chunks] is false exactly when they
    share a rowid, and [primary_chunk_rowid] is set. *)
Theorem map_relationships_enriched :
  ∀ relationships entity_chunk_map chunks r',
    chunks ≠ [] →
    r' ∈ map_relationships_to_chunks relationships entity_chunk_map chunks →
    ∃ r s o rows,
      r ∈ relationships ∧ s ∈ entity_chunk_map ∧ o ∈ entity_chunk_map
      ∧ e_normalized s = subject_normalized r
      ∧ e_normalized o = object_normalized r
      ∧ (subject_text r', subject_normalized r', predicate r',
         object_text r', object_normalized r', r_confidence r', r_context r')
        = (subject_text r, subject_normalized r, predicate r,
           object_text r, object_normalized r, r_confidence r, r_context r)
      ∧ chunk_rowids r' = Some rows
      ∧ Sorted Z.le rows ∧ NoDup rows
      ∧ (∀ x, x ∈ rows ↔ x ∈ rowids s ∨ x ∈ rowids o)
      ∧ (spans_chunks r' = Some false ↔ ∃ x, x ∈ rowids s ∧ x ∈ rowids o)
      ∧ (spans_chunks r' = Some true ∨ spans_chunks r' = Some false)
      ∧ primary_chunk_rowid r' = Some (_find_primary_chunk s o chunks).
Proof.
  intros rels ents chunks r' Hne Hin.
  destruct chunks as [|c0 chunks0]; [done|].
  set (chunks := c0 :: chunks0) in *.
  unfold map_relationships_to_chunks in Hin. subst chunks.
  apply list_elem_of_omap in Hin as (r & Hr & Henr).
  unfold enrich_relationship in Henr.
  destruct (entity_lookup ents !! subject_normalized r) as [s|] eqn:Hs;
    [|done].
  destruct (entity_lookup ents !! object_normalized r) as [o|] eqn:Ho;
    [|done].
  apply entity_lookup_elem in Hs as [Hs Hsn].
  apply entity_lookup_elem in Ho as [Ho Hon].
  injection Henr as <-.
  exists r, s, o. eexists.
  do 6 (split; [done|]).
  cbn [chunk_rowids spans_chunks primary_chunk_rowid].
  split; [reflexivity|].
  split; [apply (Sorted_merge_sort Z.le)|].
  split.
  { rewrite merge_sort_Permutation. apply NoDup_elements. }
  split.
  { intros x. rewrite merge_sort_Permutation, elem_of_elements,
      elem_of_union, !elem_of_list_to_set. done. }
  split.
  - split.
    + intros [= Hb]. apply bool_decide_eq_false in Hb.
      apply set_choose_L in Hb as (x & Hx).
      apply elem_of_intersection in Hx as [H1 H2].
      apply elem_of_list_to_set in H1. apply elem_of_list_to_set in H2.
      by exists x.
    + intros (x & H1 & H2). f_equal. apply bool_decide_eq_false.
      intros Hempty. eapply (not_elem_of_empty (C := gset Z) x).
      rewrite <- Hempty. apply elem_of_intersection.
      split; by apply elem_of_list_to_set.
  - split; [|done]. case_bool_decide; [by left|by right].
Qed.

Lemma map_relationships_enriched_witness :
  ∃ r', r' ∈ map_relationships_to_chunks [Samples.neo4j_written_in_python]
               Samples.known_entities Scenario.two_chunks
        ∧ chunk_rowids r' = Some [45001; 45002]
        ∧ spans_chunks r' = Some false
        ∧ primary_chunk_rowid r' = Some (Some 45001)
        ∧ ∃ r s o rows,
            r ∈ [Samples.neo4j_written_in_python]
            ∧ s ∈ Samples.known_entities ∧ o ∈ Samples.known_entities
            ∧ chunk_rowids r' = Some rows ∧ Sorted Z.le rows.
Proof.
  eexists. split; [vm_compute; left|].
  split; [reflexivity|]. split; [reflexivity|]. split; [reflexivity|].
  destruct (map_relationships_enriched [Samples.neo4j_written_in_python]
              Samples.known_entities Scenario.two_chunks _
              ltac:(discriminate) ltac:(vm_compute; left))
    as (r & s & o & rows & Hr & Hs & Ho & _ & _ & _ & Hrows & Hsorted & _).
  exists r, s, o, rows. done.
Defined.

End RelationshipMapping.

(** ** The ingest endpoint: answers and counters *)

Section ServerExtra.
Import Processor Server.

(** X10: whenever [POST /api/v1/ingest] answers, the status code is
    422, 200 or 500 and the processor is left as it was.  With 422 the
    state is untouched.  With 200 the document was processed, its
    response passed validation, [total_processed] grew by one, the
    entity and relationship totals grew by the numbers extracted and
    [failed_count] is unchanged.  With 500 [failed_count] grew by one,
    and either the processor was missing or the pipeline raised and the
    other counters are unchanged, or the document was processed and
    stored but its response failed validation (a confidence outside
    0..1), and then the request is also counted as processed:
    [total_processed] and the totals grew as for a success. *)
Theorem ingest_answer_is_counted :
  ∀ request s code s',
    post_ingest request s = Some (code, s') →
    let st := processing_stats s in
    let st' := processing_stats s' in
    let processed (result : ProcessResult) :=
      ∃ settings ex,
        kg_processor s = Some (settings, ex)
        ∧ process_document settings ex (content_id request) (url request)
            (title request) (markdown request) (chunks request) (world s)
          = Some (Ok result, world s')
        ∧ total_processed st' = total_processed st + 1
        ∧ total_entities st'
          = total_entities st + Z.of_nat (entities_extracted result)
        ∧ total_relationships st'
          = total_relationships st
            + Z.of_nat (relationships_extracted result) in
    kg_processor s' = kg_processor s
    ∧ ((code = 422 ∧ validate_request request = false ∧ s' = s)
       ∨ (code = 200 ∧ validate_request request = true
          ∧ failed_count st' = failed_count st
          ∧ ∃ result, ingest_response_ok result = true ∧ processed result)
       ∨ (code = 500 ∧ validate_request request = true
          ∧ failed_count st' = failed_count st + 1
          ∧ ((total_processed st' = total_processed st
              ∧ total_entities st' = total_entities st
              ∧ total_relationships st' = total_relationships st
              ∧ (kg_processor s = None
                 ∨ ∃ settings ex e,
                     kg_processor s = Some (settings, ex)
                     ∧ process_document settings ex (content_id request)
                         (url request) (title request) (markdown request)
                         (chunks request) (world s)
                       = Some (Raise e, world s')))
             ∨ ∃ result,
                 ingest_response_ok result = false ∧ processed result))).
Proof.
  intros request s code s' Hpost. cbn zeta.
  unfold post_ingest in Hpost.
  destruct (validate_request request) eqn:Hv.
  - unfold ingest_document, ingest_try in Hpost.
    destruct (kg_processor s) as [[settings ex]|] eqn:Hp.
    + destruct (process_document settings ex (content_id request)
                  (url request) (title request) (markdown request)
                  (chunks request) (world s))
        as [[[result|e] w]|] eqn:Hdoc; [| |done].
      * cbv zeta in Hpost.
        destruct (ingest_response_ok result) eqn:Hok.
        -- injection Hpost as <- <-. cbn. rewrite ?Hp.
           split; [done|]. right. left.
           split; [done|]. split; [done|]. split; [done|].
           exists result. split; [done|]. exists settings, ex. done.
        -- injection Hpost as <- <-. cbn. rewrite ?Hp.
           split; [done|]. right. right.
           split; [done|]. split; [done|]. split; [done|]. right.
           exists result. split; [done|]. exists settings, ex. done.
      * cbn in Hpost. injection Hpost as <- <-. cbn. rewrite ?Hp.
        split; [done|]. right. right.
        split; [done|]. split; [done|]. split; [done|]. left.
        split; [done|]. split; [done|]. split; [done|]. right.
        exists settings, ex, e. done.
    + cbn in Hpost. rewrite ?Hp in Hpost. injection Hpost as <- <-.
      cbn. rewrite ?Hp. split; [done|]. right. right.
      split; [done|]. split; [done|]. split; [done|]. left.
      split; [done|]. split; [done|]. split; [done|]. by left.
  - injection Hpost as <- <-. split; [done|]. left. done.
Qed.

(** A document whose entity is reported with confidence 1.5 is stored,
    answered with 500, and counted both as processed and as failed. *)
Lemma overconfident_ingest :
  (λ cs, (cs.1, Samples.counters cs.2,
          length (Neo4jClient.entities (graph (world cs.2)))))
    <$> post_ingest Scenario.fastapi_request Samples.overconfident_server
  = Some (500, (1, 1, 0, 1), 1%nat).
Proof. vm_compute. reflexivity. Qed.

Lemma ingest_answer_is_counted_witness :
  ∃ s', post_ingest Scenario.fastapi_request Samples.overconfident_server
        = Some (500, s')
        ∧ kg_processor s' = kg_processor Samples.overconfident_server
        ∧ Samples.counters s' = (1, 1, 0, 1).
Proof.
  destruct (post_ingest Scenario.fastapi_request
              Samples.overconfident_server) as [[code s']|] eqn:Hpost;
    [|vm_compute in Hpost; discriminate].
  assert (Hcode : code = 500).
  { vm_compute in Hpost. by injection Hpost as <- _. }
  subst code. exists s'. split; [reflexivity|].
  destruct (ingest_answer_is_counted Scenario.fastapi_request
              Samples.overconfident_server 500 s' Hpost) as [Hp _].
  split; [exact Hp|].
  vm_compute in Hpost. injection Hpost as <-. vm_compute. reflexivity.
Defined.

End ServerExtra.

(** ** Segmentation for the recogniser *)

Section SegmentExtra.
Import EntityExtractor Segmentation.

Lemma join_snoc sep (ws : list pystr) w :
  ws ≠ [] → join sep (ws ++ [w]) = join sep ws ++ sep ++ w.
Proof.
  induction ws as [|x ws IH]; intros Hne; [done|].
  destruct ws as [|y ws]; [done|].
  change (join sep ((x :: y :: ws) ++ [w]))
    with (x ++ sep ++ join sep ((y :: ws) ++ [w])).
  rewrite IH by done.
  change (join sep (x :: y :: ws)) with (x ++ sep ++ join sep (y :: ws)).
  by rewrite <- !app_assoc.
Qed.

Lemma slice_app_l (s t : pystr) a b :
  0 ≤ a → b ≤ len s → slice (s ++ t) a b = slice s a b.
Proof.
  unfold slice, len. intros Ha Hb.
  destruct (decide (a ≤ b)) as [Hab|Hab].
  - rewrite drop_app_le by lia. rewrite take_app_le; [done|].
    rewrite length_drop. lia.
  - replace (Z.to_nat b - Z.to_nat a)%nat with 0%nat by lia. done.
Qed.

Lemma slice_app_r (s t : pystr) :
  slice (s ++ t) (len s) (len s + len t) = t.
Proof.
  unfold slice, len. rewrite Nat2Z.id.
  rewrite drop_app_length.
  replace (Z.to_nat (Z.of_nat (length s) + Z.of_nat (length t)) - length s)%nat
    with (length t) by lia.
  apply firstn_all.
Qed.

Lemma placed_app norm extra seg : placed norm seg → placed (norm ++ extra) seg.
Proof.
  intros (H0 & Hend & Hle & Hslice). unfold placed.
  split; [done|]. split; [done|]. split.
  - unfold len in *. rewrite length_app. lia.
  - rewrite slice_app_l; [done|done|done].
Qed.

(** Closing the open segment. *)
Lemma close_segment ws st :
  seg_inv ws st → current_chunk st ≠ [] →
  let chunk_text := join space (current_chunk st) in
  let segs := chunks st ++ [mkSegment chunk_text (char_position st)
                             (char_position st + len chunk_text)] in
  join space (seg_text <$> segs) = join space ws
  ∧ Forall (placed (join space ws)) segs
  ∧ char_position st + len chunk_text = len (join space ws).
Proof.
  intros (Hcur & Hplaced & Hpos) Hne. cbn zeta.
  set (ct := join space (current_chunk st)) in *.
  destruct (chunks st) as [|seg0 segs0] eqn:Hch.
  - destruct Hpos as [Hcp Hjoin]. rewrite app_nil_l, list_fmap_singleton.
    cbn [join seg_text]. rewrite Hcp, Hjoin.
    split; [done|]. split; [|lia].
    apply Forall_singleton. unfold placed.
    cbn [seg_text seg_char_start seg_char_end].
    split; [lia|]. split; [lia|]. split; [lia|].
    apply (slice_app_r [] ct).
  - destruct Hpos as [Hcp Hjoin].
    rewrite fmap_app, list_fmap_singleton, join_snoc by done.
    cbn [seg_text].
    set (closed := join space (seg_text <$> seg0 :: segs0)) in *.
    rewrite <- Hjoin.
    split; [done|]. split.
    + apply Forall_app. split.
      * rewrite Hjoin. eapply Forall_impl; [exact Hplaced|].
        intros seg Hseg. by apply placed_app.
      * apply Forall_singleton. unfold placed.
        cbn [seg_text seg_char_start seg_char_end].
        rewrite Hcp, Hjoin.
        assert (Hpre : len (closed ++ space) = len closed + 1).
        { unfold len. rewrite length_app. cbn. lia. }
        assert (Hall : len (closed ++ space ++ ct)
                       = len closed + 1 + len ct).
        { unfold len. rewrite !length_app. cbn. lia. }
        split; [unfold len; lia|]. split; [lia|]. split; [lia|].
        rewrite (app_assoc closed space ct), <- Hpre.
        apply slice_app_r.
    + rewrite Hcp, Hjoin. unfold len. rewrite !length_app. cbn. lia.
Qed.

Lemma seg_step_inv max_chars ws st word :
  seg_inv ws st → seg_inv (ws ++ [word]) (seg_step max_chars st word).
Proof.
  intros Hinv. pose proof Hinv as (Hcur & Hplaced & Hpos).
  unfold seg_step.
  destruct (current_chunk st) as [|w0 cur] eqn:Hc.
  - (* the first word *)
    assert (Hws : ws = []) by by apply Hcur.
    subst ws. unfold seg_inv. cbn [chunks current_chunk char_position].
    split; [by split; intros H; destruct (app_cons_not_nil _ _ _ (eq_sym H))|].
    split; [done|].
    destruct (chunks st); destruct Hpos as [Hcp Hjoin];
      [by rewrite Hcp|].
    exfalso. cbn in Hjoin. exact (app_cons_not_nil _ _ _ Hjoin).
  - assert (Hws : ws ≠ []).
    { intros H. apply Hcur in H. done. }
    case_bool_decide as Hflush.
    + (* over the limit: close the segment and start a new one *)
      destruct (close_segment ws st Hinv) as (Hj & Hpl & Hlen);
        [by rewrite Hc|].
      rewrite Hc in Hj, Hpl, Hlen.
      unfold seg_inv. cbn [chunks current_chunk char_position].
      split; [by split; [|intros H; destruct (app_cons_not_nil _ _ _ (eq_sym H))]|].
      rewrite Hj. split; [done|].
      destruct (chunks st ++ _) eqn:E;
        [by destruct (app_cons_not_nil _ _ _ (eq_sym E))|].
      split; [lia|]. by rewrite join_snoc.
    + (* the word joins the open segment *)
      unfold seg_inv. cbn [chunks current_chunk char_position].
      split; [by split; intros H; destruct (app_cons_not_nil _ _ _ (eq_sym H))|].
      split; [done|].
      change (w0 :: cur ++ [word]) with ((w0 :: cur) ++ [word]).
      destruct (chunks st); destruct Hpos as [Hcp Hjoin].
      * split; [done|]. by rewrite !join_snoc, Hjoin by done.
      * split; [done|].
        rewrite !join_snoc, Hjoin by done. by rewrite <- !app_assoc.
Qed.

Lemma seg_fold_inv max_chars words : ∀ ws st,
  seg_inv ws st →
  seg_inv (ws ++ words) (foldl (seg_step max_chars) st words).
Proof.
  induction words as [|w words IH]; intros ws st Hinv.
  - by rewrite app_nil_r.
  - cbn [foldl]. replace (ws ++ w :: words) with ((ws ++ [w]) ++ words)
      by (by rewrite <- app_assoc).
    apply IH. by apply seg_step_inv.
Qed.

(** X11: the segments handed to the recogniser tile the text with its
    white space normalised: joined by single blanks their texts give the
    words of the text joined by single blanks, and every segment's
    [char_start..char_end] reads exactly the segment's text in that
    string (so the offsets are positions in the normalised text). *)
Theorem segments_tile_normalised_text :
  ∀ (text : pystr) (max_chars : Z),
    let norm := join space (split text) in
    let segs := _chunk_text_for_gliner text max_chars in
    join space (seg_text <$> segs) = norm
    ∧ Forall (λ seg,
                0 ≤ seg_char_start seg
                ∧ seg_char_end seg = seg_char_start seg + len (seg_text seg)
                ∧ seg_char_end seg ≤ len norm
                ∧ slice norm (seg_char_start seg) (seg_char_end seg)
                  = seg_text seg) segs.
Proof.
  intros text max_chars norm segs. subst norm segs.
  unfold _chunk_text_for_gliner.
  assert (Hinit : seg_inv [] (mkSegState [] [] 0 0)).
  { unfold seg_inv. cbn. split; [done|]. split; [constructor|done]. }
  pose proof (seg_fold_inv max_chars (split text) [] _ Hinit) as Hinv.
  rewrite app_nil_l in Hinv.
  set (st := foldl (seg_step max_chars) _ (split text)) in *.
  destruct (current_chunk st) as [|w cur] eqn:Hc.
  - pose proof Hinv as (Hcur & Hplaced & Hpos).
    assert (Hws : split text = []) by (apply Hcur; done).
    rewrite Hws in *. rewrite Hc in Hpos.
    destruct (chunks st) as [|s l]; [done|].
    exfalso. destruct Hpos as [_ Hjoin]. cbn in Hjoin.
    exact (app_cons_not_nil _ _ _ Hjoin).
  - destruct (close_segment _ st Hinv) as (Hj & Hpl & _);
      [by rewrite Hc|].
    rewrite Hc in Hj, Hpl. split; [exact Hj|exact Hpl].
Qed.

End SegmentExtra.

(** ** The recogniser path: de-duplicated mentions *)

Section NerExtra.
Import ChunkMapper EntityExtractor Mentions.

Lemma process_prediction_inv env text st pred :
  ENTITY_DEDUPLICATION env = true →
  mentions_inv st → mentions_inv (process_prediction env text st pred).
Proof.
  intros Hdedup (Hnd & Hseen & Hall). unfold process_prediction.
  rewrite Hdedup. cbn [andb].
  case_bool_decide as Hdup; [done|].
  unfold mentions_inv. cbn [fst snd]. split; [|split].
  - rewrite fmap_app. apply NoDup_app. split; [done|]. split.
    + intros k Hk Hk'. apply list_elem_of_fmap in Hk as (e0 & -> & He0).
      rewrite list_fmap_singleton in Hk'.
      apply list_elem_of_singleton in Hk'.
      apply Hdup.
      change (mention_key e0 = (lower (p_text pred), p_start pred, p_end pred))
        in Hk'.
      rewrite <- Hk'. by apply Hseen.
    + rewrite list_fmap_singleton. apply NoDup_singleton.
  - intros e0 He0. apply elem_of_app in He0 as [He0|He0].
    + apply elem_of_union_r. by apply Hseen.
    + apply list_elem_of_singleton in He0 as ->.
      apply elem_of_union_l. by apply elem_of_singleton.
  - apply Forall_app. split; [done|]. by apply Forall_singleton.
Qed.

(** X12: with [ENTITY_DEDUPLICATION] on, the entities [extract] returns
    have pairwise different mention keys (lower-cased text, start, end);
    each carries the stripped lower-case text as its normalized name and
    none of the keys the chunk mapper reads or writes. *)
Theorem extract_mentions_distinct :
  ∀ env text entities,
    ENTITY_DEDUPLICATION env = true →
    extract env text = Ok entities →
    NoDup (mention_key <$> entities)
    ∧ Forall (λ e, e_normalized e = strip (lower (e_text e))
                   ∧ occurrences e = [] ∧ start_pos e = None
                   ∧ end_pos e = None ∧ chunk_appearances e = None)
             entities.
Proof.
  intros env text entities Hdedup Hex.
  assert (Hfold : ∀ preds st, mentions_inv st →
            mentions_inv (foldl (process_prediction env text) st preds)).
  { induction preds as [|p preds IH]; intros st Hst; [done|].
    cbn [foldl]. apply IH. by apply process_prediction_inv. }
  assert (Hinit : mentions_inv ([], ∅)).
  { split; [apply NoDup_nil_2|]. split; [|done].
    intros e He. by apply elem_of_nil in He. }
  unfold extract in Hex.
  destruct (strip text) as [|c rest].
  { injection Hex as <-. split; [apply NoDup_nil_2|done]. }
  destruct (if bool_decide (1500 < len text)
            then predict_segments env (_chunk_text_for_gliner text 1000)
            else predict_entities env text) as [preds|e]; [|done].
  injection Hex as <-.
  destruct (Hfold preds _ Hinit) as (Hnd & _ & Hall). by split.
Qed.

Lemma extract_mentions_distinct_witness :
  ∃ entities,
    extract Scenario.graph_ner Scenario.long_markdown = Ok entities
    ∧ length entities = 1%nat
    ∧ NoDup (mention_key <$> entities).
Proof.
  eexists. split; [vm_compute; reflexivity|]. split; [reflexivity|].
  refine (proj1 (extract_mentions_distinct Scenario.graph_ner
                   Scenario.long_markdown _ _ _)).
  - reflexivity.
  - vm_compute. reflexivity.
Defined.

End NerExtra.

(** ** Relation extractor: healing a truncated array *)

Section ArrayHealer.
Import JsonHealer RelationExtractor.

Lemma last_brace_above_spec response start_idx : ∀ n,
  (n ≤ length response)%nat →
  last_brace_above response start_idx n = -1
  ∨ ∃ i, last_brace_above response start_idx n = Z.of_nat i
         ∧ start_idx < Z.of_nat i ∧ (i < n)%nat
         ∧ response !! i = Some rbrace.
Proof.
  induction n as [|n IH]; intros Hn; cbn [last_brace_above]; [by left|].
  case_bool_decide as Hlt; [|by left].
  destruct (response !! n) as [c|] eqn:Hc.
  - case_bool_decide as Hbrace.
    + right. exists n. subst c. repeat split; try done; lia.
    + destruct IH as [IH|(i & Hr & ? & ? & ?)]; [lia|by left|right].
      exists i. repeat split; try done; lia.
  - destruct IH as [IH|(i & Hr & ? & ? & ?)]; [lia|by left|right].
    exists i. repeat split; try done; lia.
Qed.

Lemma rstrip_closed (s : pystr) :
  rstrip (s ++ [newline; rbracket]) = s ++ [newline; rbracket].
Proof.
  apply rstrip_id. intros c Hc.
  rewrite last_app in Hc. cbn in Hc. by injection Hc as <-.
Qed.

Lemma heal_array_cases (response : pystr) :
  (find lbracket response = -1 ∧ _heal_truncated_json response = response)
  ∨ (find lbracket response ≠ -1
     ∧ endswith rbracket (rstrip response) = true
     ∧ _heal_truncated_json response = response)
  ∨ (find lbracket response ≠ -1
     ∧ _heal_truncated_json response = empty_array)
  ∨ (find lbracket response ≠ -1
     ∧ ∃ i, response !! i = Some rbrace
            ∧ find lbracket response < Z.of_nat i
            ∧ _heal_truncated_json response
              = take (S i) response ++ [newline; rbracket]).
Proof.
  unfold _heal_truncated_json.
  case_bool_decide as Hfind; [by left|].
  destruct (endswith rbracket (rstrip response)) eqn:Hend;
    [by right; left|].
  case_bool_decide as Hscan; [by right; right; left|].
  destruct (last_brace_above_spec response (find lbracket response)
              (length response))
    as [Hr|(i & Hr & Hsi & Hi & Hc)]; [lia|done|].
  right; right; right. split; [done|]. exists i.
  rewrite Hr, slice_prefix. done.
Qed.

Lemma heal_array_fixpoint (s : pystr) :
  find lbracket s ≠ -1 → endswith rbracket (rstrip s) = true →
  _heal_truncated_json s = s.
Proof.
  intros Hf He. unfold _heal_truncated_json.
  by rewrite bool_decide_eq_false_2, He by done.
Qed.

Lemma last_brace_above_none response start_idx : ∀ n,
  (∀ j : nat, start_idx < Z.of_nat j → response !! j ≠ Some rbrace) →
  last_brace_above response start_idx n = -1.
Proof.
  intros n Hnone. induction n as [|n IH]; [reflexivity|].
  cbn [last_brace_above]. case_bool_decide as Hlt; [|reflexivity].
  destruct (response !! n) as [c|] eqn:Hc; [|exact IH].
  rewrite bool_decide_eq_false_2; [exact IH|].
  intros ->. by apply (Hnone n Hlt).
Qed.

Lemma last_brace_above_last response start_idx (i : nat) :
  start_idx < Z.of_nat i →
  response !! i = Some rbrace →
  (∀ j : nat, (i < j)%nat → response !! j ≠ Some rbrace) →
  ∀ n, (i < n)%nat → last_brace_above response start_idx n = Z.of_nat i.
Proof.
  intros Hlt Hc Hafter n. induction n as [|n IH]; intros Hn; [lia|].
  cbn [last_brace_above]. rewrite bool_decide_eq_true_2 by lia.
  destruct (decide (n = i)) as [->|Hne].
  - by rewrite Hc, bool_decide_eq_true_2.
  - destruct (response !! n) as [c'|] eqn:Hc'.
    + rewrite bool_decide_eq_false_2; [apply IH; lia|].
      intros ->. apply (Hafter n); [lia|done].
    + apply IH. lia.
Qed.

(** X13: the array healer, case by case, for every response.  (1) A
    response without an opening bracket is returned as it is.  (2) So
    is one that, without trailing white space, ends with a closing
    bracket.  Otherwise, with [start_idx] the first opening bracket:
    (3) when no closing brace lies above [start_idx], the result is the
    empty array; (4) when [i] is the last closing brace and lies above
    [start_idx], the result is the response cut after [i] and closed
    by a newline and a bracket.  The result of healing a response with
    an opening bracket always has one and ends with a closing bracket,
    and healing a result again changes nothing. *)
Theorem heal_array_closes :
  ∀ response : pystr,
    let healed := _heal_truncated_json response in
    let start_idx := find lbracket response in
    (start_idx = -1 → healed = response)
    ∧ (endswith rbracket (rstrip response) = true → healed = response)
    ∧ (start_idx ≠ -1 → endswith rbracket (rstrip response) = false →
       (∀ j : nat, start_idx < Z.of_nat j → response !! j ≠ Some rbrace) →
       healed = empty_array)
    ∧ (∀ i : nat,
         start_idx ≠ -1 → endswith rbracket (rstrip response) = false →
         start_idx < Z.of_nat i → response !! i = Some rbrace →
         (∀ j : nat, (i < j)%nat → response !! j ≠ Some rbrace) →
         healed = take (S i) response ++ [newline; rbracket])
    ∧ (start_idx ≠ -1 →
         find lbracket healed ≠ -1
         ∧ endswith rbracket (rstrip healed) = true)
    ∧ _heal_truncated_json healed = healed.
Proof.
  intros response. cbn zeta.
  split; [|split; [|split; [|split]]].
  - intros Hf. unfold _heal_truncated_json.
    by rewrite bool_decide_eq_true_2.
  - intros He. unfold _heal_truncated_json.
    case_bool_decide; [done|]. by rewrite He.
  - intros Hf He Hnone. unfold _heal_truncated_json.
    rewrite bool_decide_eq_false_2, He by done.
    by rewrite (last_brace_above_none _ _ _ Hnone), bool_decide_eq_true_2.
  - intros i Hf He Hlt Hc Hafter. unfold _heal_truncated_json.
    rewrite bool_decide_eq_false_2, He by done.
    rewrite (last_brace_above_last _ _ i Hlt Hc Hafter)
      by by eapply lookup_lt_Some.
    rewrite bool_decide_eq_false_2 by lia.
    by rewrite slice_prefix.
  - destruct (heal_array_cases response)
      as [[Hf ->]|[(Hf & He & ->)|[[Hf ->]|(Hf & i & Hc & Hsi & ->)]]].
    + split; [done|].
      unfold _heal_truncated_json. by rewrite bool_decide_eq_true_2.
    + split; [done|]. by apply heal_array_fixpoint.
    + split; [intros _; by vm_compute|]. vm_compute. reflexivity.
    + assert (Hf' :
        find lbracket (take (S i) response ++ [newline; rbracket])
        = find lbracket response).
      { unfold find. apply find_from_prefix; [lia|done|].
        unfold find in Hsi. lia. }
      assert (He : endswith rbracket
                     (rstrip (take (S i) response ++ [newline; rbracket]))
                   = true).
      { rewrite rstrip_closed. unfold endswith.
        apply bool_decide_eq_true. by rewrite last_app. }
      split; [intros _; split; [by rewrite Hf'|done]|].
      apply heal_array_fixpoint; [by rewrite Hf'|done].
Qed.

(** A response cut off inside its second object keeps the first. *)
Example heal_array_sample :
  _heal_truncated_json Samples.truncated_array
  = py "[{" ++ quoted "subject" ++ py ": " ++ quoted "Neo4j" ++ py "}"
      ++ [newline; rbracket].
Proof. vm_compute. reflexivity. Qed.

End ArrayHealer.

(** ** Relation extractor: de-duplication *)

Section Deduplication.
Import RelationExtractor.

Lemma get_Some key (m : rel_map) kept :
  get key m = Some kept → (key, kept) ∈ m.
Proof.
  unfold get. destruct (List.find _ m) as [[k r]|] eqn:Hf; [|done].
  intros [= <-]. apply find_some_elem in Hf as [Hin Hk].
  apply bool_decide_eq_true in Hk. cbn in Hk. by subst k.
Qed.

Lemma get_None key (m : rel_map) : get key m = None → key ∉ fst <$> m.
Proof.
  unfold get. destruct (List.find _ m) as [kr|] eqn:Hf; [done|].
  intros _ Hin. apply list_elem_of_fmap in Hin as ([k r] & Hk & Hin).
  cbn in Hk. subst k.
  assert (is_Some (List.find (λ kr, bool_decide (kr.1 = key)) m)) as [x Hx].
  { apply (find_is_Some (λ kr : (pystr * pystr * pystr) * Validated,
                           bool_decide (kr.1 = key)) m (key, r)); [done|].
    by apply bool_decide_eq_true. }
  congruence.
Qed.

Lemma assign_keys key rel (m : rel_map) :
  fst <$> assign key rel m
  = if bool_decide (key ∈ fst <$> m) then fst <$> m
    else (fst <$> m) ++ [key].
Proof.
  induction m as [|[k r] m IH]; cbn [assign].
  - by rewrite bool_decide_eq_false_2 by apply not_elem_of_nil.
  - destruct (decide (k = key)) as [Hk|Hk].
    + subst k. rewrite bool_decide_eq_true_2 by done.
      rewrite bool_decide_eq_true_2 by apply list_elem_of_here.
      done.
    + rewrite (bool_decide_eq_false_2 (k = key)) by done.
      rewrite !fmap_cons, IH. cbn [fst].
      destruct (decide (key ∈ fst <$> m)) as [Hin|Hnin].
      * rewrite !bool_decide_eq_true_2; [done| |done].
        by apply list_elem_of_further.
      * rewrite !bool_decide_eq_false_2; [done| |done].
        intros Hin. apply elem_of_cons in Hin as [?|?]; [congruence|done].
Qed.

Lemma assoc_unique (m : rel_map) k a b :
  NoDup (fst <$> m) → (k, a) ∈ m → (k, b) ∈ m → a = b.
Proof.
  induction m as [|[k0 r0] m IH]; intros Hnd Ha Hb.
  - by apply elem_of_nil in Ha.
  - rewrite fmap_cons in Hnd. apply NoDup_cons in Hnd as [Hk0 Hnd].
    assert (Hkey : ∀ r, (k0, r) ∈ m → False).
    { intros r Hr. apply Hk0. apply list_elem_of_fmap. by exists (k0, r). }
    apply elem_of_cons in Ha as [Ha|Ha]; apply elem_of_cons in Hb as [Hb|Hb].
    + congruence.
    + injection Ha as -> ->. by destruct (Hkey b).
    + injection Hb as -> ->. by destruct (Hkey a).
    + by apply IH.
Qed.

Lemma assign_elem key rel (m : rel_map) k r :
  (k, r) ∈ assign key rel m →
  (k = key ∧ r = rel) ∨ (k, r) ∈ m.
Proof.
  induction m as [|[k0 r0] m IH]; cbn [assign].
  - intros H. apply list_elem_of_singleton in H. left.
    by injection H as -> ->.
  - case_bool_decide as Hk.
    + intros H. apply elem_of_cons in H as [H|H].
      * left. by injection H as -> ->.
      * right. by apply list_elem_of_further.
    + intros H. apply elem_of_cons in H as [H|H].
      * injection H as -> ->. right. apply list_elem_of_here.
      * destruct (IH H) as [?|?]; [by left|right].
        by apply list_elem_of_further.
Qed.

Lemma assign_here key rel (m : rel_map) : (key, rel) ∈ assign key rel m.
Proof.
  induction m as [|[k0 r0] m IH]; cbn [assign]; [apply list_elem_of_here|].
  case_bool_decide; [apply list_elem_of_here|by apply list_elem_of_further].
Qed.

Lemma assign_other key rel (m : rel_map) k r :
  k ≠ key → (k, r) ∈ m → (k, r) ∈ assign key rel m.
Proof.
  intros Hne. induction m as [|[k0 r0] m IH]; cbn [assign]; intros H.
  - by apply elem_of_nil in H.
  - apply elem_of_cons in H as [H|H].
    + injection H as <- <-. rewrite bool_decide_eq_false_2 by done.
      apply list_elem_of_here.
    + case_bool_decide; apply list_elem_of_further; [done|by apply IH].
Qed.

Lemma assign_NoDup key rel (m : rel_map) :
  NoDup (fst <$> m) → NoDup (fst <$> assign key rel m).
Proof.
  intros Hnd. rewrite assign_keys. case_bool_decide as Hin; [done|].
  apply NoDup_app. split; [done|]. split; [|apply NoDup_singleton].
  intros k Hk Hk'. apply list_elem_of_singleton in Hk'. by subst k.
Qed.

Lemma float_gt_irrefl a : float_gt a a = false.
Proof.
  destruct a as [q| | |]; try reflexivity. cbn.
  unfold KGExtractor.Qltb. apply negb_false_iff, Qle_bool_iff, Qle_refl.
Qed.

(** A confidence that replaces the kept one is not exceeded by what
    the kept one was not exceeded by. *)
Lemma float_gt_replaced r kept rel :
  float_gt r kept = false → float_gt rel kept = true →
  float_gt r rel = false.
Proof.
  destruct r as [x| | |], kept as [y| | |], rel as [z| | |];
    cbn; try done.
  intros Hxy Hzy. apply Qltb_false in Hxy. apply Qltb_true in Hzy.
  unfold KGExtractor.Qltb. apply negb_false_iff, Qle_bool_iff.
  by eapply Qle_trans.
Qed.

Lemma float_not_gt_le a b :
  is_nan a = false → is_nan b = false →
  float_gt a b = false → float_le a b = true.
Proof.
  destruct a as [x| | |], b as [y| | |]; cbn; try done.
  unfold KGExtractor.Qltb. intros _ _ H. by apply negb_false_iff in H.
Qed.

Lemma dedup_step_inv seen m rel :
  dedup_map_inv seen m → dedup_map_inv (seen ++ [rel]) (dedup_step m rel).
Proof.
  intros (Hnd & Hsound & Hbest). unfold dedup_step.
  assert (Hassign :
    (∀ kept, (rel_key rel, kept) ∈ m →
             float_gt (v_confidence rel) (v_confidence kept) = true) →
    dedup_map_inv (seen ++ [rel]) (assign (rel_key rel) rel m)).
  { intros Hgt. split; [by apply assign_NoDup|]. split.
    - intros k r Hkr. apply assign_elem in Hkr as [[-> ->]|Hkr].
      + split; [done|]. apply elem_of_app. right. apply list_elem_of_here.
      + destruct (Hsound k r Hkr) as [? ?]. split; [done|].
        apply elem_of_app. by left.
    - intros r Hr. apply elem_of_app in Hr as [Hr|Hr].
      + destruct (Hbest r Hr) as (r' & Hin & Hconf).
        destruct (decide (rel_key r = rel_key rel)) as [Heq|Hne].
        * exists rel. rewrite Heq. split; [apply assign_here|].
          rewrite Heq in Hin. specialize (Hgt r' Hin).
          by eapply float_gt_replaced.
        * exists r'. split; [by apply assign_other|done].
      + apply list_elem_of_singleton in Hr as ->. exists rel.
        split; [apply assign_here|apply float_gt_irrefl]. }
  destruct (get (rel_key rel) m) as [kept|] eqn:Hget.
  - apply get_Some in Hget.
    destruct (float_gt (v_confidence rel) (v_confidence kept)) eqn:Hgt.
    + apply Hassign. intros kept' Hin.
      by rewrite (assoc_unique m _ kept' kept Hnd Hin Hget).
    + split; [done|]. split.
      * intros k r Hkr. destruct (Hsound k r Hkr) as [? ?].
        split; [done|]. apply elem_of_app. by left.
      * intros r Hr. apply elem_of_app in Hr as [Hr|Hr]; [by apply Hbest|].
        apply list_elem_of_singleton in Hr as ->. exists kept.
        split; [done|exact Hgt].
  - apply Hassign. intros kept Hin. exfalso.
    apply (get_None _ _ Hget). apply list_elem_of_fmap.
    by exists (rel_key rel, kept).
Qed.

Lemma dedup_fold_inv rels : ∀ seen m,
  dedup_map_inv seen m →
  dedup_map_inv (seen ++ rels) (foldl dedup_step m rels).
Proof.
  induction rels as [|rel rels IH]; intros seen m Hinv.
  - by rewrite app_nil_r.
  - cbn [foldl]. replace (seen ++ rel :: rels) with ((seen ++ [rel]) ++ rels)
      by (by rewrite <- app_assoc).
    apply IH. by apply dedup_step_inv.
Qed.

Lemma dedup_fold_length rels : ∀ m,
  (length (foldl dedup_step m rels) ≤ length m + length rels)%nat.
Proof.
  induction rels as [|rel rels IH]; intros m; cbn [foldl length]; [lia|].
  etransitivity; [apply IH|].
  assert (length (dedup_step m rel) ≤ S (length m))%nat; [|lia].
  assert (Ha : ∀ k r, (length (assign k r m) ≤ S (length m))%nat).
  { intros k r. rewrite <- (length_fmap fst (assign k r m)), assign_keys.
    case_bool_decide; rewrite ?length_app, !length_fmap; cbn; lia. }
  unfold dedup_step. destruct (get _ m); [|apply Ha].
  destruct (float_gt _ _); [apply Ha|lia].
Qed.

Lemma keys_of_values (m : rel_map) :
  (∀ k r, (k, r) ∈ m → rel_key r = k) →
  rel_key <$> (snd <$> m) = fst <$> m.
Proof.
  induction m as [|[k r] m IH]; intros Hk; [done|].
  rewrite !fmap_cons. cbn [fst snd]. f_equal.
  - apply Hk. apply list_elem_of_here.
  - apply IH. intros k' r' H. apply Hk. by apply list_elem_of_further.
Qed.

(** X14: de-duplication keeps one relationship for each (subject,
    predicate, object) key: the keys of the result are pairwise
    different, every result is one of the given relationships, and
    every given relationship has a result of its key that its own
    confidence does not exceed (the test [>] of the code is false for
    it); when no given confidence is not-a-number, that result's
    confidence is at least as high.  The result is no longer than the
    input.  A confidence that is not-a-number, which [json.loads] and
    [float] let through, is never exceeded and never exceeds. *)
Theorem deduplicate_keeps_best :
  ∀ relationships : list Validated,
    let kept := _deduplicate_relationships relationships in
    NoDup (rel_key <$> kept)
    ∧ (∀ r, r ∈ kept → r ∈ relationships)
    ∧ (∀ r, r ∈ relationships →
         ∃ r', r' ∈ kept ∧ rel_key r' = rel_key r
               ∧ float_gt (v_confidence r) (v_confidence r') = false)
    ∧ (Forall (λ r, is_nan (v_confidence r) = false) relationships →
       ∀ r, r ∈ relationships →
         ∃ r', r' ∈ kept ∧ rel_key r' = rel_key r
               ∧ float_le (v_confidence r) (v_confidence r') = true)
    ∧ (length kept ≤ length relationships)%nat.
Proof.
  intros rels. cbn zeta. unfold _deduplicate_relationships.
  assert (Hinit : dedup_map_inv [] []).
  { split; [apply NoDup_nil_2|]. split.
    - intros k r H. by apply elem_of_nil in H.
    - intros r H. by apply elem_of_nil in H. }
  pose proof (dedup_fold_inv rels [] [] Hinit) as (Hnd & Hsound & Hbest).
  rewrite app_nil_l in Hsound, Hbest.
  assert (Hkept : ∀ r, r ∈ rels →
    ∃ r', r' ∈ snd <$> foldl dedup_step [] rels
          ∧ r' ∈ rels ∧ rel_key r' = rel_key r
          ∧ float_gt (v_confidence r) (v_confidence r') = false).
  { intros r Hr. destruct (Hbest r Hr) as (r' & Hin & Hconf).
    exists r'. split; [|split; [|split; [|done]]].
    - apply list_elem_of_fmap. by exists (rel_key r, r').
    - by apply (Hsound _ _ Hin).
    - by apply (Hsound _ _ Hin). }
  split; [|split; [|split; [|split]]].
  - rewrite keys_of_values; [done|]. intros k r H. by apply Hsound.
  - intros r Hr. apply list_elem_of_fmap in Hr as ([k r0] & -> & Hin).
    by apply (Hsound k r0).
  - intros r Hr. destruct (Hkept r Hr) as (r' & ? & _ & ? & ?).
    by exists r'.
  - intros Hnum r Hr. destruct (Hkept r Hr) as (r' & ? & Hr' & ? & Hgt).
    exists r'. split; [done|]. split; [done|].
    rewrite Forall_forall in Hnum.
    apply float_not_gt_le; [by apply Hnum|by apply Hnum|done].
  - rewrite length_fmap. pose proof (dedup_fold_length rels []) as H.
    cbn in H. lia.
Qed.

(** The kept relationship stands where its key was first seen. *)
Example deduplicate_sample :
  _deduplicate_relationships Samples.repeated_relationships
  = [ Samples.written_in_with (Number (9 # 10)); Samples.drives ].
Proof. vm_compute. reflexivity. Qed.

(** A first confidence that is not a number is kept, whatever follows. *)
Example deduplicate_nan_sample :
  _deduplicate_relationships Samples.nan_first_relationships
  = [ Samples.written_in_with NaN ].
Proof. vm_compute. reflexivity. Qed.

End Deduplication.

(** ** The model client: discovery, cache and failures *)

Section ClientExtra.
Import VLLMClient.

Lemma ensure_model_inv t answer c :
  client_inv c → client_inv (ensure_model t answer c).1.2.
Proof.
  intros Hinv. unfold ensure_model.
  destruct (should_check t c); [|done]. by split.
Qed.

Lemma reset_inv c : client_inv (reset_model_state c).
Proof. by split. Qed.

Lemma complete_inv t answer post c :
  client_inv c → client_inv (complete t answer post c).2.
Proof.
  intros Hinv. pose proof (ensure_model_inv t answer c Hinv) as H1.
  unfold complete. destruct (ensure_model t answer c) as [[available c1] q].
  cbn in H1. destruct available; [|done].
  destruct (post (model_name c1)); [done|apply reset_inv..].
Qed.

Lemma after_inv ops retry : client_inv (after ops retry).
Proof.
  unfold after.
  assert (H : ∀ c, client_inv c → client_inv (foldl step c ops)).
  { induction ops as [|op ops IH]; intros c Hc; [done|].
    cbn [foldl]. apply IH. destruct op; cbn [step].
    - by apply ensure_model_inv.
    - by apply complete_inv.
    - apply reset_inv. }
  apply H. by split.
Qed.

(** X15: after any sequence of [ensure_model], [complete] and
    [reset_model_state] calls on a fresh client, the client counts as
    available exactly when it holds a non-empty model name, and a
    client that has never checked, or was reset, holds no model name.
    A [complete] call made then returns a completion only if the
    request was sent with a non-empty model name and answered, and
    leaves the client available; when it raises, the client is left
    unavailable. *)
Theorem client_available_iff_model_known :
  ∀ (ops : list call) (retry : Q) t answer post,
    let c := after ops retry in
    let outcome := complete t answer post c in
    is_available c = truthy (model_name c)
    ∧ (last_check c = None → model_name c = None)
    ∧ match outcome.1 with
      | Ok completion_text =>
          truthy (model_name outcome.2) = true
          ∧ post (model_name outcome.2) = Completion completion_text
          ∧ is_available outcome.2 = true
      | Raise _ => is_available outcome.2 = false
      end.
Proof.
  intros ops retry t answer post. cbn zeta.
  pose proof (after_inv ops retry) as Hinv.
  set (c := after ops retry) in *.
  destruct Hinv as [Hav Hlast]. split; [done|]. split; [done|].
  pose proof (ensure_model_inv t answer c (conj Hav Hlast)) as [Hav1 _].
  unfold complete.
  assert (Hret : (ensure_model t answer c).1.1
                 = is_available (ensure_model t answer c).1.2).
  { unfold ensure_model. by destruct (should_check t c). }
  destruct (ensure_model t answer c) as [[available c1] q].
  cbn in Hav1, Hret. subst available.
  destruct (is_available c1) eqn:Hc1; [|done].
  destruct (post (model_name c1)) eqn:Hpost; cbn; [|done..].
  by rewrite <- Hav1.
Qed.

(** X16: while a model name is held and the last check is no older
    than the retry interval, [ensure_model] answers from the state
    without asking the server; once no model name is held it asks at
    every call, however recent the last check. *)
Theorem ensure_model_cache :
  ∀ (c : Client) (current_time : Q) (answer : option pystr),
    (∀ name checked,
       model_name c = Some name → last_check c = Some checked →
       (current_time - checked <= retry_interval c)%Q →
       ensure_model current_time answer c = (is_available c, c, false))
    ∧ (model_name c = None →
       ensure_model current_time answer c
       = (truthy answer,
          mkClient answer (Some current_time) (truthy answer)
                   (retry_interval c),
          true)).
Proof.
  intros c t answer. split.
  - intros name checked Hn Hl Hle. unfold ensure_model, should_check.
    rewrite Hn, Hl. unfold KGExtractor.Qltb.
    apply Qle_bool_iff in Hle. by rewrite Hle.
  - intros Hn. unfold ensure_model, should_check. by rewrite Hn.
Qed.

Lemma ensure_model_cache_witness :
  ensure_model 125%Q None Samples.discovered_client
  = (true, Samples.discovered_client, false).
Proof.
  apply (proj1 (ensure_model_cache Samples.discovered_client 125%Q None)
           (py "qwen") 100%Q); [reflexivity|reflexivity|].
  vm_compute. discriminate.
Defined.

End ClientExtra.

(** ** Repeated merges of an entity: the mention count *)

Section MergeExtra.
Import Neo4jClient Neo4jRuns.

Lemma find_update_where {A} (p : A → bool) (f : A → A) (l : list A) :
  (∀ x, p (f x) = p x) →
  List.find p (update_where p f l) = f <$> List.find p l.
Proof.
  intros Hp. unfold update_where.
  induction l as [|x l IH]; [done|]. cbn [fmap list_fmap List.find].
  destruct (p x) eqn:Hx.
  - by rewrite Hp, Hx.
  - rewrite Hx. exact IH.
Qed.

Lemma find_app_None {A} (p : A → bool) (l : list A) x :
  List.find p l = None → p x = true → List.find p (l ++ [x]) = Some x.
Proof.
  intros Hl Hx. induction l as [|y l IH]; cbn in *; [by rewrite Hx|].
  destruct (p y); [done|]. by apply IH.
Qed.

Lemma create_entity_new txt key ty confidence g :
  find_entity g key = None →
  let g' := (create_entity txt key ty confidence g).2 in
  find_entity g' key
  = Some (mkEntityNode (next_id g) key txt ty 1 confidence)
  ∧ length (entities g') = S (length (entities g))
  ∧ (documents g', chunks g', edges g') = (documents g, chunks g, edges g).
Proof.
  intros Hnone. cbv zeta. unfold create_entity. rewrite Hnone. cbn [snd].
  split; [|split; [|done]].
  - unfold find_entity. cbn [entities]. apply find_app_None; [done|].
    by apply bool_decide_eq_true.
  - cbn [entities]. rewrite length_app. cbn. lia.
Qed.

Lemma create_entity_again txt key ty confidence g e :
  find_entity g key = Some e →
  let g' := (create_entity txt key ty confidence g).2 in
  find_entity g' key = Some (entity_on_match confidence e)
  ∧ rest_of g' = rest_of g.
Proof.
  intros Hsome. cbv zeta. unfold create_entity. rewrite Hsome. cbn [snd].
  split.
  - unfold find_entity in *. cbn [entities].
    rewrite find_update_where; [by rewrite Hsome|]. done.
  - unfold rest_of, update_where. cbn. by rewrite length_fmap.
Qed.

Lemma merge_mentions_counts txt key ty confidences : ∀ g e,
  find_entity g key = Some e →
  let g' := merge_mentions txt key ty confidences g in
  ∃ e', find_entity g' key = Some e'
        ∧ mention_count e'
          = mention_count e + Z.of_nat (length confidences)
        ∧ identity_of e' = identity_of e
        ∧ rest_of g' = rest_of g.
Proof.
  unfold merge_mentions.
  induction confidences as [|c cs IH]; intros g e He; cbv zeta.
  - exists e. split; [done|]. split; [cbn; lia|]. done.
  - cbn [foldl].
    destruct (create_entity_again txt key ty c g e He) as [He1 Hrest1].
    destruct (IH _ _ He1) as (e' & Hfind & Hcount & Hid & Hrest).
    exists e'. split; [done|].
    cbn [entity_on_match mention_count] in Hcount.
    split; [rewrite Hcount; cbn [length]; lia|].
    split; [by rewrite Hid|by rewrite Hrest].
Qed.

(** X17: when [create_entity] is called once for each of [n >= 1]
    mentions of an entity the store does not hold yet, the store ends
    with one more entity node, which has the given key, the text and
    type of the first call, the id that was free, and
    [mention_count = n]; documents, chunks and edges are as before. *)
Theorem repeated_merge_counts_mentions :
  ∀ txt key ty (confidences : list Q) (g : Graph),
    find_entity g key = None →
    confidences ≠ [] →
    let g' := merge_mentions txt key ty confidences g in
    ∃ e, find_entity g' key = Some e
         ∧ mention_count e = Z.of_nat (length confidences)
         ∧ identity_of e = (next_id g, key, txt, ty)
         ∧ length (entities g') = S (length (entities g))
         ∧ next_id g' = S (next_id g)
         ∧ (documents g', chunks g', edges g')
           = (documents g, chunks g, edges g).
Proof.
  intros txt key ty confidences g Hnone Hne. cbv zeta.
  destruct confidences as [|c cs]; [done|].
  destruct (create_entity_new txt key ty c g Hnone) as (He0 & Hlen0 & Hrest0).
  destruct (merge_mentions_counts txt key ty cs _ _ He0)
    as (e & He & Hc & Hid & Hrest).
  change (merge_mentions txt key ty (c :: cs) g)
    with (merge_mentions txt key ty cs (create_entity txt key ty c g).2).
  exists e. split; [exact He|].
  split; [rewrite Hc; cbn [mention_count length]; lia|].
  split; [exact Hid|].
  unfold rest_of in Hrest. injection Hrest as Hd Hch He' Hn Hl.
  injection Hrest0 as Hd0 Hch0 He0'.
  split; [by rewrite Hl|].
  split.
  { rewrite Hn. unfold create_entity. by rewrite Hnone. }
  by rewrite Hd, Hch, He', Hd0, Hch0, He0'.
Qed.

Lemma repeated_merge_counts_mentions_witness :
  ∃ e, find_entity (merge_mentions (py "Redis") (py "redis")
                      Scenario.database_type Samples.three_mentions
                      Scenario.small_graph) (py "redis") = Some e
       ∧ mention_count e = 3
       ∧ entity_id e = 2%nat.
Proof.
  destruct (repeated_merge_counts_mentions (py "Redis") (py "redis")
              Scenario.database_type Samples.three_mentions
              Scenario.small_graph)
    as (e & He & Hc & Hid & _).
  - vm_compute. reflexivity.
  - discriminate.
  - exists e. split; [exact He|]. split; [exact Hc|].
    by injection Hid as -> _ _ _.
Defined.

End MergeExtra.

(** ** The mapping summary *)

Section SummaryExtra.
Import ChunkMapper MappingSummary.

Lemma count_appearances_dom apps : ∀ (m : gmap Z nat) k,
  k ∈ dom (foldl count_appearance m apps)
  ↔ k ∈ dom m ∨ k ∈ app_vector_rowid <$> apps.
Proof.
  induction apps as [|a apps IH]; intros m k; cbn [foldl].
  - rewrite fmap_nil, elem_of_nil. tauto.
  - rewrite IH. unfold count_appearance.
    rewrite dom_insert, elem_of_union, elem_of_singleton, fmap_cons,
      elem_of_cons. tauto.
Qed.

Lemma chunk_entity_count_dom entities : ∀ (m : gmap Z nat) k,
  k ∈ dom (foldl (λ m e, foldl count_appearance m (get_chunk_appearances e))
                 m entities)
  ↔ k ∈ dom m
    ∨ ∃ e, e ∈ entities ∧ k ∈ app_vector_rowid <$> get_chunk_appearances e.
Proof.
  induction entities as [|e entities IH]; intros m k; cbn [foldl].
  - split; [by left|]. intros [?|(e & He & _)]; [done|].
    by apply elem_of_nil in He.
  - rewrite IH, count_appearances_dom. split.
    + intros [[?|?]|(e' & ? & ?)]; [by left|right..].
      * exists e. split; [apply list_elem_of_here|done].
      * exists e'. split; [by apply list_elem_of_further|done].
    + intros [?|(e' & He' & ?)]; [by left; left|].
      apply elem_of_cons in He' as [->|?]; [by left; right|].
      right. by exists e'.
Qed.

Lemma count_appearances_size apps : ∀ (m : gmap Z nat),
  (size (foldl count_appearance m apps) ≤ size m + length apps)%nat.
Proof.
  induction apps as [|a apps IH]; intros m; cbn [foldl length]; [lia|].
  etransitivity; [apply IH|].
  assert (size (count_appearance m a) ≤ S (size m))%nat; [|lia].
  unfold count_appearance.
  destruct (m !! app_vector_rowid a) as [n|] eqn:Hm.
  - rewrite map_size_insert_Some by done. lia.
  - rewrite map_size_insert_None by done. lia.
Qed.

Lemma chunk_entity_count_size entities : ∀ (m : gmap Z nat),
  (size (foldl (λ m e, foldl count_appearance m (get_chunk_appearances e))
               m entities)
   ≤ size m + sum_nat ((λ e, length (get_chunk_appearances e)) <$> entities))%nat.
Proof.
  induction entities as [|e entities IH]; intros m; cbn [foldl]; [cbn; lia|].
  etransitivity; [apply IH|]. unfold sum_nat.
  pose proof (count_appearances_size (get_chunk_appearances e) m).
  unfold sum_nat. rewrite fmap_cons. cbn [foldr]. lia.
Qed.

Lemma filter_length_le {A} (P : A → Prop) `{∀ x, Decision (P x)} (l : list A) :
  (length (filter P l) ≤ length l)%nat.
Proof.
  induction l as [|x l IH]; [done|]. rewrite filter_cons.
  destruct (decide (P x)); cbn [length]; lia.
Qed.

Lemma size_list_to_set_length (l : list Z) :
  (size (list_to_set l : gset Z) ≤ length l)%nat.
Proof.
  induction l as [|x l IH]; [by rewrite list_to_set_nil, size_empty|].
  rewrite list_to_set_cons. cbn [length].
  destruct (decide (x ∈ (list_to_set l : gset Z))) as [Hin|Hnin].
  - replace ({[x]} ∪ list_to_set l) with (list_to_set l : gset Z); [lia|].
    apply set_eq. intros y. rewrite elem_of_union, elem_of_singleton.
    split; [tauto|]. intros [->|?]; done.
  - rewrite size_union by (apply disjoint_singleton_l; done).
    rewrite size_singleton. lia.
Qed.

(** X18: for the entities mapped onto a non-empty chunk list, the
    summary is consistent: the number of chunks with entities is at
    most the number of chunks and at most the number of appearances;
    every entity counted as spanning several chunks accounts for at
    least two appearances; and the multi-chunk and cross-chunk counts
    do not exceed the entity and relationship counts. *)
Theorem mapping_summary_consistent :
  ∀ (entities : list Entity) (relationships : list Relationship)
    (chunks : list ChunkBoundary),
    chunks ≠ [] →
    let s := generate_mapping_summary
               (map_entities_to_chunks entities chunks) relationships chunks in
    (chunks_with_entities s ≤ total_chunks s)%nat
    ∧ (chunks_with_entities s ≤ total_entity_appearances s)%nat
    ∧ (2 * multi_chunk_entities s ≤ total_entity_appearances s)%nat
    ∧ (multi_chunk_entities s ≤ unique_entities s)%nat
    ∧ unique_entities s = length entities
    ∧ (cross_chunk_relationships s ≤ total_relationships s)%nat.
Proof.
  intros entities relationships chunks Hne. cbn zeta.
  unfold generate_mapping_summary.
  cbn [total_chunks chunks_with_entities total_entity_appearances
       unique_entities multi_chunk_entities total_relationships
       cross_chunk_relationships].
  set (mapped := map_entities_to_chunks entities chunks).
  split; [|split; [|split; [|split; [|split]]]].
  - (* the rowids counted are rowids of the chunk list *)
    assert (Hsub : dom (chunk_entity_count mapped)
                   ⊆ list_to_set (vector_rowid <$> chunks)).
    { intros k Hk. unfold chunk_entity_count in Hk.
      apply chunk_entity_count_dom in Hk as [Hk|(e & He & Hk)].
      - rewrite dom_empty in Hk. by apply not_elem_of_empty in Hk.
      - apply list_elem_of_fmap in Hk as (a & -> & Ha).
        destruct (mapped_appearances entities chunks e a Hne He Ha)
          as (e0 & _ & Ha0).
        apply appearances_origin in Ha0 as (occ & c & _ & Hc & _ & ->).
        apply elem_of_list_to_set. apply list_elem_of_fmap. by exists c. }
    rewrite <- size_dom.
    etransitivity; [apply (subseteq_size _ _ Hsub)|].
    etransitivity; [apply size_list_to_set_length|].
    by rewrite length_fmap.
  - pose proof (chunk_entity_count_size mapped ∅) as H.
    rewrite map_size_empty in H. exact H.
  - subst mapped. destruct chunks as [|c0 chunks0]; [done|].
    unfold map_entities_to_chunks.
    unfold sum_nat.
    induction entities as [|e entities IH]; [cbn; lia|].
    rewrite !fmap_cons, filter_cons. cbn [foldr].
    change (get_chunk_appearances (enrich (c0 :: chunks0) e))
      with (appearances_of (c0 :: chunks0) e).
    change (default false (spans_multiple_chunks (enrich (c0 :: chunks0) e)))
      with (bool_decide (1 < length (appearances_of (c0 :: chunks0) e))%nat).
    destruct (decide (bool_decide
                (1 < length (appearances_of (c0 :: chunks0) e))%nat = true))
      as [Hm|Hm].
    + apply bool_decide_eq_true in Hm. cbn [length]. lia.
    + lia.
  - apply filter_length_le.
  - subst mapped. destruct chunks as [|c0 chunks0]; [done|].
    unfold map_entities_to_chunks. by rewrite length_fmap.
  - apply filter_length_le.
Qed.

Lemma mapping_summary_consistent_witness :
  generate_mapping_summary Samples.summarised_entities
    [Samples.neo4j_written_in_python] Scenario.two_chunks
  = mkSummary 2 2 3 2 1 1 0
  ∧ (2 * multi_chunk_entities
           (generate_mapping_summary Samples.summarised_entities
              [Samples.neo4j_written_in_python] Scenario.two_chunks)
     ≤ total_entity_appearances
         (generate_mapping_summary Samples.summarised_entities
            [Samples.neo4j_written_in_python] Scenario.two_chunks))%nat.
Proof.
  split; [vm_compute; reflexivity|].
  refine (proj1 (proj2 (proj2
    (mapping_summary_consistent _ [Samples.neo4j_written_in_python]
       Scenario.two_chunks _)))).
  discriminate.
Defined.

End SummaryExtra.

(** ** Hierarchical entity types *)

Section TypeExtra.
Import ChunkMapper KGExtractor.

Lemma split_colons_nonempty s : ∀ skip cur, split_colons skip cur s ≠ [].
Proof.
  induction s as [|c s IH]; intros skip cur; cbn [split_colons]; [done|].
  destruct skip; [apply IH|].
  destruct (startswith [58%N; 58%N] (c :: s)); [done|apply IH].
Qed.

Lemma join_cons sep (w : pystr) ws :
  ws ≠ [] → join sep (w :: ws) = w ++ sep ++ join sep ws.
Proof. by destruct ws. Qed.

Lemma split_colons_join n : ∀ s cur,
  (length s ≤ n)%nat →
  join [58%N; 58%N] (split_colons false cur s) = cur ++ s.
Proof.
  induction n as [|n IH]; intros s cur Hlen.
  - destruct s; [|cbn in Hlen; lia]. cbn. by rewrite app_nil_r.
  - destruct s as [|c s]; [cbn; by rewrite app_nil_r|].
    cbn [split_colons].
    destruct (startswith [58%N; 58%N] (c :: s)) eqn:Hsw.
    + destruct s as [|c2 s2];
        [cbn in Hsw; by rewrite andb_false_r in Hsw|].
      cbn in Hsw. rewrite !andb_true_iff, !bool_decide_eq_true in Hsw.
      destruct Hsw as (<- & <- & _).
      rewrite join_cons by apply split_colons_nonempty.
      cbn [split_colons]. rewrite IH by (cbn in Hlen; lia). done.
    + rewrite IH by (cbn in Hlen; lia). by rewrite <- app_assoc.
Qed.

(** X19: parsing a hierarchical type loses nothing up to four levels:
    the pieces of [split("::")], joined by [::], give back the type
    string; the levels kept are the first four pieces, in order, and
    [type_full] is the type string itself. *)
Theorem parse_type_levels :
  ∀ entity_type : pystr,
    let parts := split_colons false [] entity_type in
    let parsed := parse_type entity_type in
    join (py "::") parts = entity_type
    ∧ type_primary parsed
        :: omap id [type_sub1 parsed; type_sub2 parsed; type_sub3 parsed]
      = take 4 parts
    ∧ type_full parsed = entity_type.
Proof.
  intros entity_type. cbn zeta. split; [|split; [|done]].
  - change (py "::") with [58%N; 58%N].
    by rewrite (split_colons_join (length entity_type)).
  - unfold parse_type. cbn [type_primary type_sub1 type_sub2 type_sub3].
    pose proof (split_colons_nonempty entity_type false []) as Hne.
    destruct (split_colons false [] entity_type) as [|p0 [|p1 [|p2 [|p3 ps]]]];
      done.
Qed.

End TypeExtra.

(** ** The health endpoint *)

Section HealthExtra.
Import Health.

Lemma error_not_ok message : is_ok (error_status message) = false.
Proof.
  unfold is_ok, error_status. apply orb_false_iff. split; [|done].
  apply bool_decide_eq_false. intros Hin.
  apply elem_of_cons in Hin as [H|Hin]; [discriminate H|].
  apply list_elem_of_singleton in Hin. discriminate Hin.
Qed.

Lemma error_contains message :
  contains (py "error") (error_status message) = true.
Proof. by apply bool_decide_eq_true. Qed.

Lemma neo4j_ok p : is_ok (neo4j_status p) = true ↔ ∃ u, p = Up u.
Proof.
  destruct p as [u| |message]; cbn [neo4j_status].
  - split; [by exists u|done].
  - split; [done|]. by intros [u Hu].
  - rewrite error_not_ok. split; [done|]. by intros [u Hu].
Qed.

Lemma gliner_ok p : is_ok (gliner_status p) = true ↔ ∃ u, p = Up u.
Proof.
  destruct p as [u| |message]; cbn [gliner_status].
  - split; [by exists u|done].
  - split; [done|]. by intros [u Hu].
  - rewrite error_not_ok. split; [done|]. by intros [u Hu].
Qed.

Lemma vllm_ok p : is_ok (vllm_status p) = true ↔ ∃ m, p = Up m.
Proof.
  destruct p as [m| |message]; cbn [vllm_status].
  - split; [by exists m|]. intros _. unfold is_ok.
    apply orb_true_iff. right. done.
  - split; [done|]. by intros [u Hu].
  - rewrite error_not_ok. split; [done|]. by intros [u Hu].
Qed.

(** X20: the health endpoint reports [healthy] exactly when the three
    checks succeed; it reports [unhealthy] whenever one of the checks
    raises; with the model server down and no check raising it reports
    [degraded]; the report is always one of the three.  The model
    name is part of the status searched for [error]: with the store
    not initialised and a connected model whose name contains
    [error], the report is [unhealthy] although no check raised. *)
Theorem health_status_cases :
  (∀ neo4j vllm gliner,
     health_check neo4j vllm gliner = py "healthy"
     ↔ (∃ u, neo4j = Up u) ∧ (∃ m, vllm = Up m) ∧ (∃ u, gliner = Up u))
  ∧ (∀ neo4j vllm gliner message,
       neo4j = Raised message ∨ vllm = Raised message
       ∨ gliner = Raised message →
       health_check neo4j vllm gliner = py "unhealthy")
  ∧ (∀ neo4j gliner,
       (∀ message, neo4j ≠ Raised message) →
       (∀ message, gliner ≠ Raised message) →
       health_check neo4j Down gliner = py "degraded")
  ∧ (∀ neo4j vllm gliner,
       health_check neo4j vllm gliner = py "healthy"
       ∨ health_check neo4j vllm gliner = py "unhealthy"
       ∨ health_check neo4j vllm gliner = py "degraded")
  ∧ health_check Down (Up (Some (py "terror-7b"))) (Up ())
    = py "unhealthy".
Proof.
  split; [|split; [|split; [|split]]].
  - intros neo4j vllm gliner.
    rewrite <- neo4j_ok, <- vllm_ok, <- gliner_ok.
    unfold health_check, overall_status. cbn [forallb].
    rewrite andb_true_r.
    destruct (is_ok (neo4j_status neo4j)), (is_ok (vllm_status vllm)),
      (is_ok (gliner_status gliner)); cbn [andb];
      try (split; [done|]; intros (? & ? & ?); done).
    all: split; [|intros (? & ? & ?); done].
    all: destruct (existsb _ _); intros H; discriminate H.
  - intros neo4j vllm gliner message Hraised.
    unfold health_check, overall_status. cbn [forallb existsb].
    destruct Hraised as [-> | [-> | ->]];
      cbn [neo4j_status vllm_status gliner_status];
      rewrite error_not_ok, error_contains;
      rewrite ?andb_false_r, ?orb_true_r; done.
  - intros neo4j gliner Hn Hg.
    destruct neo4j as [u| |m]; [destruct u| |by destruct (Hn m)];
      (destruct gliner as [u| |m']; [destruct u| |by destruct (Hg m')]);
      vm_compute; reflexivity.
  - intros neo4j vllm gliner. unfold health_check, overall_status.
    destruct (forallb _ _); [by left|].
    destruct (existsb _ _); [by right; left|by right; right].
  - vm_compute. reflexivity.
Qed.

End HealthExtra.

(** ** The ingest path writes the mentions *)

Section StoreExtra.
Import ChunkMapper Neo4jClient Processor StoreInv.

Lemma extends_refl g : extends g g.
Proof. repeat split; eauto. Qed.

Lemma extends_trans g1 g2 g3 : extends g1 g2 → extends g2 g3 → extends g1 g3.
Proof.
  intros (Hd & Hc & He & Hed) (Hd' & Hc' & He' & Hed').
  split; [congruence|]. split; [congruence|]. split.
  - intros en Hen. destruct (He en Hen) as (en' & Hen' & Hid & Hn).
    destruct (He' en' Hen') as (en'' & Hen'' & Hid' & Hn').
    exists en''. split; [done|]. split; congruence.
  - intros s ty d H. by apply Hed', Hed.
Qed.

Lemma update_where_any {A} (p : A → bool) (f : A → A) l x :
  x ∈ l → (if p x then f x else x) ∈ update_where p f l.
Proof.
  intros Hx. unfold update_where. apply list_elem_of_fmap. by exists x.
Qed.

Lemma existsb_update_where {A} (p q : A → bool) (f : A → A) l :
  (∀ x, p (f x) = p x) → existsb p (update_where q f l) = existsb p l.
Proof.
  intros Hp. unfold update_where. induction l as [|x l IH]; [done|].
  rewrite fmap_cons. cbn [existsb].
  rewrite IH. destruct (q x); [by rewrite Hp|done].
Qed.

Lemma existsb_snoc {A} (p : A → bool) l x :
  existsb p (l ++ [x]) = existsb p l || p x.
Proof. rewrite existsb_app. cbn. by rewrite orb_false_r. Qed.

Lemma create_entity_extends txt key ty confidence g :
  ∃ id g', create_entity txt key ty confidence g = (Ok id, g')
           ∧ extends g g'
           ∧ ∃ en, en ∈ entities g' ∧ entity_id en = id
                   ∧ normalized en = key.
Proof.
  unfold create_entity.
  destruct (find_entity g key) as [e|] eqn:Hfind.
  - eexists _, _. split; [reflexivity|]. split.
    + split; [done|]. split; [done|]. split; [|done].
      intros en Hen. cbn [entities].
      exists (if bool_decide (normalized en = key)
              then entity_on_match confidence en else en).
      split; [exact (update_where_any
                       (λ x : EntityNode, bool_decide (normalized x = key))
                       (entity_on_match confidence) _ en Hen)|].
      by destruct (bool_decide (normalized en = key)).
    + apply find_some_elem in Hfind as [He Hp].
      exists (entity_on_match confidence e). cbn [entities].
      split; [by apply (update_where_elem
                          (λ x : EntityNode, bool_decide (normalized x = key)))|].
      apply bool_decide_eq_true in Hp. done.
  - eexists _, _. split; [reflexivity|]. split.
    + split; [done|]. split; [done|]. split; [|done].
      intros en Hen. exists en. cbn [entities].
      split; [apply elem_of_app; by left|done].
    + eexists. cbn [entities].
      split; [apply elem_of_app; right; apply list_elem_of_here|done].
Qed.

Lemma link_extends eid cid os oe confidence cb ca sent g :
  ∃ g', link_entity_to_chunk eid cid os oe confidence cb ca sent g
        = (Ok (), g')
        ∧ extends g g'
        ∧ ((∃ en, en ∈ entities g ∧ entity_id en = eid) →
           (∃ cn, cn ∈ Neo4jClient.chunks g ∧ chunk_id cn = cid) →
           has_edge g' eid MENTIONED_IN cid = true).
Proof.
  unfold link_entity_to_chunk.
  destruct (find_entity_by_id g eid) as [en0|] eqn:He;
    [destruct (find_chunk_by_id g cid) as [cn0|] eqn:Hc|].
  - eexists. split; [reflexivity|].
    assert (Hmono : ∀ s ty d, has_edge g s ty d = true →
      existsb (is_edge s ty d)
        (if has_edge g eid MENTIONED_IN cid
         then update_where (is_edge eid MENTIONED_IN cid)
                (λ e, mkEdge (src e) (rel_type e) (dst e)
                        (MentionProps os oe confidence (prefix cb 100)
                           (prefix ca 100) (prefix sent 500))) (edges g)
         else edges g ++ [mkEdge eid MENTIONED_IN cid
                            (MentionProps os oe confidence (prefix cb 100)
                               (prefix ca 100) (prefix sent 500))]) = true).
    { intros s ty d H. destruct (has_edge g eid MENTIONED_IN cid).
      - by rewrite existsb_update_where.
      - rewrite existsb_snoc. unfold has_edge in H. by rewrite H. }
    split.
    + split; [done|]. split; [done|]. split; [by eauto|].
      intros s ty d H. unfold has_edge at 1. cbn [edges]. by apply Hmono.
    + intros _ _. unfold has_edge at 1. cbn [edges].
      destruct (has_edge g eid MENTIONED_IN cid) eqn:Hhas.
      * rewrite existsb_update_where by done. exact Hhas.
      * rewrite existsb_snoc. unfold is_edge at 2. cbn.
        rewrite !bool_decide_eq_true_2 by done. by rewrite orb_true_r.
  - eexists. split; [reflexivity|]. split; [apply extends_refl|].
    intros _ (cn & Hcn & Hid).
    destruct (find_is_Some (λ x : ChunkNode, bool_decide (chunk_id x = cid)) _ cn Hcn)
      as [y Hy]; [by apply bool_decide_eq_true|].
    unfold find_chunk_by_id in Hc. congruence.
  - eexists. split; [reflexivity|]. split; [apply extends_refl|].
    intros (en & Hen & Hid) _.
    destruct (find_is_Some (λ x : EntityNode, bool_decide (entity_id x = eid)) _ en Hen)
      as [y Hy]; [by apply bool_decide_eq_true|].
    unfold find_entity_by_id in He. congruence.
Qed.

Lemma chunk_map_ok_extends m g g' :
  extends g g' → chunk_map_ok m g → chunk_map_ok m g'.
Proof.
  intros (_ & Hc & _) Hok rowid id Hm. rewrite Hc. by apply Hok.
Qed.

Lemma link_appearances_extends e eid m apps : ∀ g,
  (∃ en, en ∈ entities g ∧ entity_id en = eid) →
  chunk_map_ok m g →
  ∃ g', link_appearances e eid m apps g = (Ok (), g')
        ∧ extends g g'
        ∧ ∀ a cid, a ∈ apps → m !! app_vector_rowid a = Some cid →
            has_edge g' eid MENTIONED_IN cid = true.
Proof.
  induction apps as [|a apps IH]; intros g Hen Hok; cbn [link_appearances].
  - eexists. split; [reflexivity|]. split; [apply extends_refl|].
    intros a cid Ha. by apply elem_of_nil in Ha.
  - destruct (m !! app_vector_rowid a) as [cid0|] eqn:Hm.
    + unfold bind.
      destruct (link_extends eid cid0 (offset_start a) (offset_end a)
                  (e_confidence e) (context_before (e_context e))
                  (context_after (e_context e)) (sentence (e_context e)) g)
        as (g1 & -> & Hext1 & Hedge1).
      assert (Hen1 : ∃ en, en ∈ entities g1 ∧ entity_id en = eid).
      { destruct Hen as (en & Hen & Hid).
        destruct Hext1 as (_ & _ & He & _).
        destruct (He en Hen) as (en' & ? & ? & _). exists en'.
        split; [done|congruence]. }
      destruct (IH g1 Hen1 (chunk_map_ok_extends _ _ _ Hext1 Hok))
        as (g' & -> & Hext' & Hall).
      eexists. split; [reflexivity|].
      split; [by eapply extends_trans|].
      intros a' cid Ha' Hcid. apply elem_of_cons in Ha' as [->|Ha'].
      * destruct Hext' as (_ & _ & _ & Hmono). apply Hmono.
        rewrite Hm in Hcid. injection Hcid as <-. apply Hedge1; [done|].
        destruct (Hok _ _ Hm) as (cn & Hcn & Hid & _). by exists cn.
      * by apply (Hall a').
    + destruct (IH g Hen Hok) as (g' & -> & Hext' & Hall).
      eexists. split; [reflexivity|]. split; [done|].
      intros a' cid Ha' Hcid. apply elem_of_cons in Ha' as [->|Ha'].
      * congruence.
      * by apply (Hall a').
Qed.

Lemma store_entities_extends m : ∀ ents emap g,
  chunk_map_ok m g →
  ∃ emap' g', store_entities ents m emap g = (Ok emap', g')
    ∧ extends g g'
    ∧ ∀ e a cid, e ∈ ents → a ∈ get_chunk_appearances e →
        m !! app_vector_rowid a = Some cid →
        ∃ en, en ∈ entities g' ∧ normalized en = e_normalized e
              ∧ has_edge g' (entity_id en) MENTIONED_IN cid = true.
Proof.
  induction ents as [|e ents IH]; intros emap g Hok; cbn [store_entities].
  - eexists _, _. split; [reflexivity|]. split; [apply extends_refl|].
    intros e a cid He. by apply elem_of_nil in He.
  - unfold bind.
    destruct (create_entity_extends (e_text e) (e_normalized e) (e_type e)
                (e_confidence e) g)
      as (eid & g1 & -> & Hext1 & en1 & Hen1 & Hid1 & Hn1).
    pose proof (chunk_map_ok_extends _ _ _ Hext1 Hok) as Hok1.
    destruct (link_appearances_extends e eid m (get_chunk_appearances e) g1)
      as (g2 & -> & Hext2 & Hedges); [by exists en1|done|].
    pose proof (chunk_map_ok_extends _ _ _ Hext2 Hok1) as Hok2.
    destruct (IH (<[e_normalized e := eid]> emap) g2 Hok2)
      as (emap' & g' & -> & Hext' & Hall).
    eexists _, _. split; [reflexivity|].
    split; [eapply extends_trans; [|exact Hext'];
            by eapply extends_trans|].
    intros e' a cid He' Ha Hcid. apply elem_of_cons in He' as [->|He'].
    + destruct Hext2 as (_ & _ & He2 & _).
      destruct (He2 en1 Hen1) as (en2 & Hen2 & Hid2 & Hn2).
      destruct Hext' as (_ & _ & He3 & Hmono).
      destruct (He3 en2 Hen2) as (en3 & Hen3 & Hid3 & Hn3).
      exists en3. split; [done|]. split; [congruence|].
      apply Hmono. rewrite Hid3, Hid2, Hid1. by apply (Hedges a).
    + by apply (Hall e' a).
Qed.

Lemma create_relationship_extends s p o confidence context g :
  ∃ g', create_relationship s p o confidence context g = (Ok (), g')
        ∧ extends g g'.
Proof.
  unfold create_relationship.
  destruct (find_entity g s) as [es|]; [destruct (find_entity g o) as [eo|]|];
    eexists; (split; [reflexivity|]); try apply extends_refl.
  split; [done|]. split; [done|]. split; [by eauto|].
  intros s' ty d H. unfold has_edge at 1. cbn [edges].
  destruct (has_edge g (entity_id es) (relationship_type p) (entity_id eo)).
  - rewrite existsb_update_where; [done|].
    intros x. unfold rel_on_match. by destruct (props x).
  - rewrite existsb_snoc. unfold has_edge in H. by rewrite H.
Qed.

Lemma store_relationships_extends rels : ∀ g,
  ∃ g', store_relationships rels g = (Ok (), g') ∧ extends g g'.
Proof.
  induction rels as [|r rels IH]; intros g; cbn [store_relationships].
  - eexists. split; [reflexivity|apply extends_refl].
  - unfold bind.
    destruct (create_relationship_extends (subject_normalized r)
                (predicate r) (object_normalized r) (r_confidence r)
                (r_context r) g) as (g1 & -> & Hext1).
    destruct (IH g1) as (g' & -> & Hext').
    eexists. split; [reflexivity|]. by eapply extends_trans.
Qed.

Lemma create_chunk_map did rowid idx cs ce p g d m :
  find_document_by_id g did = Some d → chunk_map_ok m g →
  ∃ cid g', create_chunk did rowid idx cs ce p g = (Ok cid, g')
            ∧ chunk_map_ok (<[rowid := cid]> m) g'.
Proof.
  intros Hd Hok. unfold create_chunk. rewrite Hd.
  destruct (merge_chunk rowid idx cs ce (prefix p 200) g) as [cid g1] eqn:E.
  eexists _, _. split; [reflexivity|].
  assert (Hch : Neo4jClient.chunks (merge_plain_edge (doc_id d) HAS_CHUNK cid g1)
                = Neo4jClient.chunks g1).
  { unfold merge_plain_edge. by destruct (has_edge _ _ _ _). }
  intros r id Hm. rewrite Hch.
  destruct (decide (r = rowid)) as [->|Hne].
  - rewrite lookup_insert_eq in Hm. injection Hm as <-.
    destruct (merge_chunk_node rowid idx cs ce (prefix p 200) g)
      as (cn & Hcn & Hrow & Hid).
    rewrite E in Hcn, Hid. cbn in Hcn, Hid. by exists cn.
  - rewrite lookup_insert_ne in Hm by done.
    destruct (Hok r id Hm) as (cn & Hcn & Hid & Hrow).
    destruct (merge_chunk_keeps rowid idx cs ce (prefix p 200) g cn Hcn)
      as (cn' & Hcn' & Hrow' & Hid').
    rewrite E in Hcn'. cbn in Hcn'. exists cn'.
    split; [done|]. split; congruence.
Qed.

Lemma store_chunks_map did d : ∀ request_chunks m g,
  find_document_by_id g did = Some d → chunk_map_ok m g →
  ∃ m' g', store_chunks did request_chunks m g = (Ok m', g')
           ∧ chunk_map_ok m' g'
           ∧ (∀ r, is_Some (m !! r) → is_Some (m' !! r))
           ∧ ∀ c, c ∈ request_chunks →
               is_Some (m' !! ChunkMapper.vector_rowid c).
Proof.
  induction request_chunks as [|c rest IH]; intros m g Hd Hok;
    cbn [store_chunks].
  - eexists _, _. split; [reflexivity|]. split; [done|]. split; [done|].
    intros c Hc. by apply elem_of_nil in Hc.
  - unfold bind.
    destruct (create_chunk_map did (ChunkMapper.vector_rowid c)
                (ChunkMapper.chunk_index c) (ChunkMapper.char_start c)
                (ChunkMapper.char_end c) (prefix (ChunkMapper.text c) 200)
                g d m Hd Hok) as (cid & g1 & Hcreate & Hok1).
    destruct (create_chunk_persists did (ChunkMapper.vector_rowid c)
                (ChunkMapper.chunk_index c) (ChunkMapper.char_start c)
                (ChunkMapper.char_end c) (prefix (ChunkMapper.text c) 200)
                g d Hd) as (cid' & g1' & Hcreate' & Hdocs & _).
    rewrite Hcreate in Hcreate'. injection Hcreate' as <- <-.
    rewrite Hcreate.
    assert (Hd1 : find_document_by_id g1 did = Some d)
      by (unfold find_document_by_id; by rewrite Hdocs).
    destruct (IH _ g1 Hd1 Hok1) as (m' & g' & -> & Hok' & Hkeep & Hall).
    eexists _, _. split; [reflexivity|]. split; [done|]. split.
    + intros r Hr. apply Hkeep.
      destruct (decide (r = ChunkMapper.vector_rowid c)) as [->|Hne].
      * rewrite lookup_insert_eq. by eexists.
      * by rewrite lookup_insert_ne.
    + intros c' Hc'. apply elem_of_cons in Hc' as [->|Hc'].
      * apply Hkeep. rewrite lookup_insert_eq. by eexists.
      * by apply Hall.
Qed.

Lemma mentioned_extends g g' key rowid :
  extends g g' → mentioned g key rowid → mentioned g' key rowid.
Proof.
  intros (_ & Hc & He & Hmono) (en & cn & Hen & Hn & Hcn & Hrow & Hedge).
  destruct (He en Hen) as (en' & Hen' & Hid & Hn').
  exists en', cn. rewrite Hc, Hid. repeat split; try done; [congruence|].
  by apply Hmono.
Qed.

Lemma chunk_persisted_extends g g' did rowid :
  extends g g' → chunk_persisted g did rowid → chunk_persisted g' did rowid.
Proof.
  intros (_ & Hc & _ & Hmono) (cn & Hcn & Hrow & Hedge).
  exists cn. rewrite Hc. repeat split; try done. by apply Hmono.
Qed.

(** X21: when the predicate of every relationship gives a label that
    Cypher reads as one name (the label is written into the query text
    unescaped), [_store_in_neo4j] returns in the store model: it stores
    the Document node, a Chunk node under it (by [HAS_CHUNK]) for every
    chunk of the request, and, for every entity and every chunk
    appearance of it whose rowid belongs to a chunk of the request, a
    [MENTIONED_IN] edge from an Entity node of the entity's normalized
    name to a Chunk node of that rowid. *)
Theorem store_writes_mentions :
  ∀ cid u t (request_chunks : list ChunkBoundary) (ents : list Entity)
    (rels : list Relationship) (g : Graph),
    Forall (λ r, cypher_name_ok (relationship_type (predicate r)) = true)
           rels →
    ∃ res g',
      _store_in_neo4j cid u t request_chunks ents rels g = (Ok res, g')
      ∧ document_persisted g' (document_node_id res) cid
      ∧ Forall (λ c, chunk_persisted g' (document_node_id res)
                       (ChunkMapper.vector_rowid c)) request_chunks
      ∧ Forall (λ e,
          Forall (λ a,
            app_vector_rowid a ∈ ChunkMapper.vector_rowid <$> request_chunks →
            mentioned g' (e_normalized e) (app_vector_rowid a))
            (get_chunk_appearances e)) ents.
Proof.
  intros cid u t request_chunks ents rels g _.
  unfold _store_in_neo4j, bind.
  destruct (create_document_persists cid u t g)
    as (id & g1 & -> & (d & Hd & Hid & Hcid)).
  assert (Hp : bool_decide (doc_id d = id) = true)
    by by apply bool_decide_eq_true.
  destruct (find_is_Some (λ d, bool_decide (doc_id d = id)) _ _ Hd Hp)
    as [d' Hfind].
  destruct (store_chunks_persists id d' request_chunks ∅ g1 Hfind)
    as (m & g2 & Hstore & Hdocs & Hall & _).
  destruct (store_chunks_map id d' request_chunks ∅ g1 Hfind)
    as (m0 & g20 & Hstore' & Hok & _ & Hdom).
  { intros r i Hr. by rewrite lookup_empty in Hr. }
  rewrite Hstore in Hstore'. injection Hstore' as <- <-. rewrite Hstore.
  destruct (store_entities_extends m ents ∅ g2 Hok)
    as (emap & g3 & -> & Hext3 & Hment).
  destruct (store_relationships_extends rels g3) as (g4 & -> & Hext4).
  unfold ret. eexists _, _. split; [reflexivity|]. cbn [document_node_id].
  pose proof (extends_trans _ _ _ Hext3 Hext4) as Hext.
  split; [|split].
  - exists d. destruct Hext as (Hdoc & _). rewrite Hdoc, Hdocs. done.
  - apply Forall_forall. intros c Hc.
    eapply chunk_persisted_extends; [exact Hext|]. by apply Hall.
  - apply Forall_forall. intros e He. apply Forall_forall. intros a Ha Hin.
    apply list_elem_of_fmap in Hin as (c & Hrow & Hc).
    destruct (Hdom c Hc) as [cn_id Hcn]. rewrite <- Hrow in Hcn.
    destruct (Hment e a cn_id He Ha Hcn) as (en & Hen & Hn & Hedge).
    destruct (Hok _ _ Hcn) as (cn & Hcn_in & Hcn_id & Hcn_row).
    eapply mentioned_extends; [exact Hext4|].
    destruct Hext3 as (_ & Hc3 & _).
    exists en, cn. rewrite Hc3, Hcn_id. done.
Qed.

Lemma store_writes_mentions_witness :
  ∃ res g',
    _store_in_neo4j 123 (py "https://docs.fastapi.com")
      (py "FastAPI Documentation") Scenario.two_chunks
      Samples.known_entities [Samples.neo4j_written_in_python]
      empty_graph = (Ok res, g')
    ∧ document_persisted g' (document_node_id res) 123
    ∧ Forall (λ c, chunk_persisted g' (document_node_id res)
                     (ChunkMapper.vector_rowid c)) Scenario.two_chunks.
Proof.
  destruct (store_writes_mentions 123 (py "https://docs.fastapi.com")
              (py "FastAPI Documentation") Scenario.two_chunks
              Samples.known_entities [Samples.neo4j_written_in_python]
              empty_graph)
    as (res & g' & Heq & Hdoc & Hchunks & _).
  - repeat constructor.
  - exists res, g'. split; [exact Heq|]. split; [exact Hdoc|exact Hchunks].
Defined.

End StoreExtra.
